(** * obsidian_to_notion: a shallow embedding of the conversion engine

    The file embeds [src/obsidian_to_notion.py] function by function and
    proves properties of the embedded functions.

    Conventions.
    - A Python [str] is a [list ascii]: one element per character, for text
      whose code points lie below 256.  The character classes of [re] and of
      [str.isspace], [str.lower] are written out for that range.  [bytes]
      are a [list ascii] as well.
    - A Python [dict] is a [gmap]; [None] is the [None] of [option].
    - An exception is the [Raise] case of [result].  The tests of [pathlib]
      on a path raise where the system call fails for another reason than a
      missing path: [Path.exists], [Path.is_file] and [Path.resolve] return
      a [result], and a [try] of the source is a match on it.
    - The standard library and third-party calls whose code is not part of
      the repository ([urllib.parse], [pathlib], the file system, [hashlib],
      the upload provider, the Notion client) are fields of the classes
      [UrlLib], [FileSystem], [Hashlib], [Provider] and [NotionApi]; every
      definition and theorem is parametric in them.
    - [re.sub], [re.split] and [re.finditer] share one scanning engine,
      [finditer]; each pattern of the source is a matcher that tries the
      pattern at the current position. *)

From Stdlib Require Import Ascii String List ZArith Lia DecimalString.
From stdpp Require Import base option list strings gmap.

Local Open Scope list_scope.

(** ** Python strings *)

Abbreviation str := (list ascii) (only parsing).

(** [py "abc"] is the Python literal ['abc']. *)
Definition py (s : string) : str := list_ascii_of_string s.
Arguments py s%_string.

(** [str(n)] for a non-negative [int]. *)
Definition str_of_nat (n : nat) : str :=
  py (NilZero.string_of_uint (Nat.to_uint n)).

Definition char_is (c : ascii) : ascii -> bool := fun x => Ascii.eqb x c.
Definition char_not (c : ascii) : ascii -> bool := fun x => negb (Ascii.eqb x c).
Arguments char_is c%_char _.
Arguments char_not c%_char _.

(** [str.isspace] of one character (code points below 256); also [\s]. *)
Definition isspace (c : ascii) : bool :=
  let n := nat_of_ascii c in
  ((9 <=? n) && (n <=? 13)) || ((28 <=? n) && (n <=? 32))
  || (n =? 133) || (n =? 160).

(** [\d] of [re] for a [str] pattern (code points below 256). *)
Definition isdigit (c : ascii) : bool :=
  let n := nat_of_ascii c in (48 <=? n) && (n <=? 57).

(** [str.lower] of one character (code points below 256). *)
Definition lower_char (c : ascii) : ascii :=
  let n := nat_of_ascii c in
  if ((65 <=? n) && (n <=? 90))
     || ((192 <=? n) && (n <=? 222) && negb (n =? 215))
  then ascii_of_nat (n + 32) else c.

Definition lower (s : str) : str := map lower_char s.

(** The longest prefix whose characters satisfy [p], and the rest. *)
Fixpoint span (p : ascii -> bool) (s : str) : str * str :=
  match s with
  | c :: s' =>
      if p c then let '(a, r) := span p s' in (c :: a, r) else ([], s)
  | [] => ([], [])
  end.

Definition lstrip_by (p : ascii -> bool) (s : str) : str := snd (span p s).
Definition rstrip_by (p : ascii -> bool) (s : str) : str :=
  rev (lstrip_by p (rev s)).

(** [s.strip()] and [s.rstrip(')')]. *)
Definition strip (s : str) : str := rstrip_by isspace (lstrip_by isspace s).
Definition rstrip_char (c : ascii) (s : str) : str := rstrip_by (char_is c) s.

(** [expect lit s]: the text after the literal [lit] when [s] starts with it. *)
Fixpoint expect (lit s : str) : option str :=
  match lit with
  | [] => Some s
  | c :: lit' =>
      match s with
      | x :: s' => if Ascii.eqb x c then expect lit' s' else None
      | [] => None
      end
  end.

Definition startswith (lit s : str) : bool :=
  match expect lit s with Some _ => true | None => false end.
Definition endswith (lit s : str) : bool := startswith (rev lit) (rev s).

(** [s[a:-b]] for literals [a >= 0] and [b > 0]. *)
Definition slice_inner (a b : nat) (s : str) : str :=
  drop a (take (length s - b) s).

(** [s.replace(a, b)] for single characters. *)
Definition replace_char (a b : ascii) (s : str) : str :=
  map (fun c => if Ascii.eqb c a then b else c) s.

(** [s.encode()] (UTF-8) for code points below 256. *)
Definition utf8_encode (s : str) : list ascii :=
  flat_map (fun c =>
    let n := nat_of_ascii c in
    if n <? 128 then [c]
    else [ascii_of_nat (192 + n / 64); ascii_of_nat (128 + n mod 64)]) s.

(** ** Slicing into chunks: [[l[i:i+n] for i in range(0, len(l), n)]] *)

(** [range(0, stop, step)] for [step > 0]. *)
Definition range_step (stop step : nat) : list nat :=
  map (fun k => k * step) (seq 0 ((stop + step - 1) / step)).

(** [l[i:j]] for [0 <= i <= j]. *)
Definition slice {A} (i j : nat) (l : list A) : list A :=
  take (j - i) (drop i l).

Definition chunks {A} (n : nat) (l : list A) : list (list A) :=
  map (fun i => slice i (i + n) l) (range_step (length l) n).

(** ** The regular-expression engine *)

(** The character before the current position once [consumed] has been
    read, [prev] being the character before [consumed]. *)
Definition char_before (prev : option ascii) (consumed : str) : option ascii :=
  match last consumed with Some c => Some c | None => prev end.

Section Regex.
Context {G : Type}.

(** A pattern tried at one position: it receives the character before the
    position (for a lookbehind) and the text from the position on, and on
    success returns group 0, the captured groups and the text after the
    match. *)
Variable m_at : option ascii -> str -> option (str * G * str).

(** The matches of the pattern from left to right, without overlap: each
    with the text between the end of the previous match and its start;
    and the text after the last match.  A match is never empty, so [fuel]
    above the length of the text is never used up. *)
Fixpoint finditer (fuel : nat) (prev : option ascii) (s : str)
  : list (str * str * G) * str :=
  match fuel with
  | O => ([], s)
  | S fuel' =>
      match m_at prev s with
      | Some (g0, g, rest) =>
          let '(ms, tail) := finditer fuel' (char_before prev g0) rest in
          (([], g0, g) :: ms, tail)
      | None =>
          match s with
          | [] => ([], [])
          | c :: s' =>
              match finditer fuel' (Some c) s' with
              | ((gap, g0, g) :: ms, tail) => ((c :: gap, g0, g) :: ms, tail)
              | ([], tail) => ([], c :: tail)
              end
          end
      end
  end.

Definition re_finditer (s : str) : list (str * str * G) * str :=
  finditer (S (length s)) None s.

(** [re.sub(pattern, repl, s)] once the matches are known. *)
Fixpoint sub_join (repl : str -> G -> str) (ms : list (str * str * G))
  (tail : str) : str :=
  match ms with
  | [] => tail
  | (gap, g0, g) :: ms' => gap ++ repl g0 g ++ sub_join repl ms' tail
  end.

Definition re_sub (repl : str -> G -> str) (s : str) : str :=
  let '(ms, tail) := re_finditer s in sub_join repl ms tail.

(** [re.split(pattern, s)] for a pattern that is one capturing group. *)
Fixpoint split_join (ms : list (str * str * G)) (tail : str) : list str :=
  match ms with
  | [] => [tail]
  | (gap, g0, _) :: ms' => gap :: g0 :: split_join ms' tail
  end.

Definition re_split (s : str) : list str :=
  let '(ms, tail) := re_finditer s in split_join ms tail.
End Regex.

(** A literal, one or more characters of a class, a literal, at the current
    position.  In every use the class excludes the first character of the
    closing literal, so the greedy run of the pattern is the longest run of
    the class and nothing is gained by giving characters back. *)
Definition m_enclosed (open : str) (p : ascii -> bool) (close : str)
  (s : str) : option (str * str * str) :=
  s1 ← expect open s;
  let '(body, s2) := span p s1 in
  match body with
  | [] => None
  | _ :: _ => s3 ← expect close s2; Some (open ++ body ++ close, body, s3)
  end.

Definition orelse {A} (a b : option A) : option A :=
  match a with Some x => Some x | None => b end.

(** [!\[\[([^\]]+)\]\]] *)
Definition match_embed (_ : option ascii) (s : str) :=
  m_enclosed (py "![[") (char_not "]") (py "]]") s.

(** [\[\[([^\]]+)\]\]] *)
Definition match_wiki (_ : option ascii) (s : str) :=
  m_enclosed (py "[[") (char_not "]") (py "]]") s.

(** [(?<!\!)\[([^\]]+)\]\(([^)]+\)[^)]*|[^)]+)\)]: the groups are the link
    text and the link target.  The first alternative of group 2 takes a
    target with one closing parenthesis inside it. *)
Definition match_link (prev : option ascii) (s : str)
  : option (str * (str * str) * str) :=
  if bool_decide (prev = Some "!"%char) then None else
  s1 ← expect (py "[") s;
  let '(d, s2) := span (char_not "]") s1 in
  match d with
  | [] => None
  | _ :: _ =>
      s3 ← expect (py "](") s2;
      let '(a, s4) := span (char_not ")") s3 in
      match a with
      | [] => None
      | _ :: _ =>
          s5 ← expect (py ")") s4;
          let '(b, s6) := span (char_not ")") s5 in
          match expect (py ")") s6 with
          | Some s7 =>
              let u := a ++ py ")" ++ b in
              Some (py "[" ++ d ++ py "](" ++ u ++ py ")", (d, u), s7)
          | None =>
              Some (py "[" ++ d ++ py "](" ++ a ++ py ")", (d, a), s5)
          end
      end
  end.

(** [(`[^`]+`)] *)
Definition match_codespan (_ : option ascii) (s : str) :=
  m_enclosed (py "`") (char_not "`") (py "`") s.

(** [(~~[^~]+~~|\*\*[^*]+\*\*|\*[^*]+\*|__LINK_\d+__)] *)
Definition match_inline (_ : option ascii) (s : str) :=
  orelse (m_enclosed (py "~~") (char_not "~") (py "~~") s)
  (orelse (m_enclosed (py "**") (char_not "*") (py "**") s)
  (orelse (m_enclosed (py "*") (char_not "*") (py "*") s)
          (m_enclosed (py "__LINK_") isdigit (py "__") s))).

(** The lookahead [(?=\s|$|\n|!|\[)]. *)
Definition boundary (s : str) : bool :=
  match s with
  | [] => true
  | c :: _ => isspace c || char_is "!" c || char_is "[" c
  end.

(** [(.+?)\)(?=\s|$|\n|!|\[)]: the shortest non-empty run of characters
    other than a newline that a closing parenthesis at a boundary follows. *)
Fixpoint lazy_until_close (first : bool) (s : str) : option (str * str) :=
  match s with
  | [] => None
  | c :: s' =>
      if negb first && char_is ")" c && boundary s' then Some ([], s')
      else if char_is "010" c then None
      else '(src, rest) ← lazy_until_close false s'; Some (c :: src, rest)
  end.

(** The image pattern of [parse_markdown_to_blocks] (source line 798): an
    exclamation mark, the alternative text in brackets (any characters but a
    closing bracket, possibly none), the source in parentheses as above.
    The groups are the alternative text and the source. *)
Definition match_image (_ : option ascii) (s : str)
  : option (str * (str * str) * str) :=
  s1 ← expect (py "![") s;
  let '(alt, s2) := span (char_not "]") s1 in
  s3 ← expect (py "](") s2;
  '(src, rest) ← lazy_until_close true s3;
  Some (py "![" ++ alt ++ py "](" ++ src ++ py ")", (alt, src), rest).

(** ** Exceptions *)

Inductive exn :=
| KeyError (key : str)          (* a missing [dict] key that is a [str] *)
| KeyError_int (key : Z)        (* a missing [dict] key that is an [int] *)
| OSError (errno : Z)           (* a failed system call, with its [errno] *)
| OtherError (class_name : str). (* an exception of another class *)

Inductive result (A : Type) :=
| Ok (a : A)
| Raise (e : exn).
Arguments Ok {A} a.
Arguments Raise {A} e.

#[global] Instance result_ret : MRet result := fun A a => Ok a.
#[global] Instance result_bind : MBind result := fun A B f m =>
  match m with Ok a => f a | Raise e => Raise e end.

(** Truthiness of a [str]. *)
Definition truthy (s : str) : bool :=
  match s with [] => false | _ :: _ => true end.

(** ** [urllib.parse] *)

Class UrlLib := {
  (** [urlparse(url)]: the scheme and the netloc of the result, [None] when
      the call raises. *)
  urlparse : str -> option (str * str);
  (** [urllib.parse.unquote] *)
  unquote : str -> str
}.

Section Urls.
Context `{UrlLib}.

Definition is_url (path : str) : bool :=
  match urlparse path with
  | Some (scheme, netloc) => truthy scheme && truthy netloc
  | None => false
  end.

Definition decode_url_path (path : str) : str := unquote path.

Definition _is_valid_url (url : str) : bool :=
  if negb (truthy url) || negb (truthy (strip url)) then false
  else
    let url := rstrip_char ")" url in
    match urlparse url with
    | Some (scheme, netloc) =>
        truthy scheme && truthy netloc
        && (bool_decide (scheme = py "http")
            || bool_decide (scheme = py "https"))
    | None => false
    end.
End Urls.

(** ** Rich text and blocks *)

Inductive annotation := ann_code | ann_strikethrough | ann_bold | ann_italic.

(** One element of a [rich_text] list:
    [{"type": "text", "text": {"content": .., "link": {"url": ..}},
      "annotations": {..: True}}], the last two keys optional. *)
Record RichText := {
  content : str;
  link : option str;
  annotations : option annotation
}.

Definition plain_run (c : str) : RichText :=
  {| content := c; link := None; annotations := None |}.
Definition annotated_run (a : annotation) (c : str) : RichText :=
  {| content := c; link := None; annotations := Some a |}.
Definition link_run (c url : str) : RichText :=
  {| content := c; link := Some url; annotations := None |}.

Inductive heading_type := heading_1 | heading_2 | heading_3.
Inductive list_type := numbered_list_item | bulleted_list_item.

Inductive Block :=
| HeadingBlock (t : heading_type) (rich_text : list RichText)
| ParagraphBlock (rich_text : list RichText)
| CodeBlock (rich_text : list RichText) (language : str)
| QuoteBlock (rich_text : list RichText)
| ListItemBlock (t : list_type) (rich_text : list RichText)
| ImageBlock (url : str) (caption : option (list RichText))
| DividerBlock.

(** The value of the block's ["type"] key. *)
Definition block_type (b : Block) : str :=
  match b with
  | HeadingBlock heading_1 _ => py "heading_1"
  | HeadingBlock heading_2 _ => py "heading_2"
  | HeadingBlock heading_3 _ => py "heading_3"
  | ParagraphBlock _ => py "paragraph"
  | CodeBlock _ _ => py "code"
  | QuoteBlock _ => py "quote"
  | ListItemBlock numbered_list_item _ => py "numbered_list_item"
  | ListItemBlock bulleted_list_item _ => py "bulleted_list_item"
  | ImageBlock _ _ => py "image"
  | DividerBlock => py "divider"
  end.

(** Every rich-text run a block carries. *)
Definition block_runs (b : Block) : list RichText :=
  match b with
  | HeadingBlock _ rt | ParagraphBlock rt | CodeBlock rt _ | QuoteBlock rt
  | ListItemBlock _ rt => rt
  | ImageBlock _ (Some caption) => caption
  | ImageBlock _ None | DividerBlock => []
  end.

(** ** The inline formatter: [_parse_rich_text] *)

(** [f"__LINK_{link_counter}__"] *)
Definition placeholder (link_counter : nat) : str :=
  py "__LINK_" ++ str_of_nat link_counter ++ py "__".

(** [re.sub(link_pattern, save_link, text)] once the matches are known:
    [save_link] numbers the links and fills [link_map]. *)
Fixpoint save_links (ms : list (str * str * (str * str))) (tail : str)
  (link_counter : nat) (link_map : gmap (list ascii) (str * str))
  : str * gmap (list ascii) (str * str) :=
  match ms with
  | [] => (tail, link_map)
  | (gap, _, (link_text, link_url)) :: ms' =>
      let ph := placeholder link_counter in
      let '(out, lm) :=
        save_links ms' tail (S link_counter)
                   (<[ph := (link_text, link_url)]> link_map) in
      (gap ++ ph ++ out, lm)
  end.

Section Formatter.
Context `{UrlLib}.

(** The body of the loop over [re.finditer(pattern, part)], after the plain
    text before the match has been emitted. *)
Definition emit_match (link_map : gmap (list ascii) (str * str))
  (matched_text : str) : result (list RichText) :=
  if startswith (py "__LINK_") matched_text then
    match link_map !! matched_text with
    | None => Raise (KeyError matched_text)
    | Some (link_text, link_url) =>
        if _is_valid_url link_url then
          Ok [link_run (take 2000 link_text) link_url]
        else
          Ok [plain_run
                (take 2000 (py "[" ++ link_text ++ py "](" ++ link_url
                            ++ py ")"))]
    end
  else if startswith (py "~~") matched_text then
    Ok [annotated_run ann_strikethrough
          (take 2000 (slice_inner 2 2 matched_text))]
  else if startswith (py "**") matched_text then
    Ok [annotated_run ann_bold (take 2000 (slice_inner 2 2 matched_text))]
  else if startswith (py "*") matched_text then
    Ok [annotated_run ann_italic (take 2000 (slice_inner 1 1 matched_text))]
  else Ok [].

Fixpoint emit_matches (link_map : gmap (list ascii) (str * str))
  (ms : list (str * str * str)) : result (list RichText) :=
  match ms with
  | [] => Ok []
  | (plain, matched_text, _) :: ms' =>
      let before := if truthy plain then [plain_run (take 2000 plain)] else [] in
      runs ← emit_match link_map matched_text;
      more ← emit_matches link_map ms';
      Ok (before ++ runs ++ more)
  end.

(** One iteration of [for part in parts]. *)
Definition format_part (link_map : gmap (list ascii) (str * str))
  (part : str) : result (list RichText) :=
  if negb (truthy part) then Ok []
  else if startswith (py "`") part && endswith (py "`") part then
    let code_text := slice_inner 1 1 part in
    if truthy code_text
    then Ok [annotated_run ann_code (take 2000 code_text)]
    else Ok []
  else
    let '(ms, remaining) := re_finditer match_inline part in
    runs ← emit_matches link_map ms;
    Ok (runs ++ if truthy remaining
                then [plain_run (take 2000 remaining)] else []).

Fixpoint format_parts (link_map : gmap (list ascii) (str * str))
  (parts : list str) : result (list RichText) :=
  match parts with
  | [] => Ok []
  | part :: parts' =>
      runs ← format_part link_map part;
      more ← format_parts link_map parts';
      Ok (runs ++ more)
  end.

Definition _parse_rich_text (text : str) : result (list RichText) :=
  let '(lms, ltail) := re_finditer match_link text in
  let '(text, link_map) := save_links lms ltail 0 ∅ in
  let parts := re_split match_codespan text in
  rich_text ← format_parts link_map parts;
  Ok (match rich_text with
      | [] => [plain_run []]
      | _ :: _ => rich_text
      end).
End Formatter.

(** ** The block builder: [ObsidianToNotionConverter] *)

Record Converter := {
  blocks : list Block;
  current_list_type : option list_type
}.

(** The state [__init__] leaves. *)
Definition new_converter : Converter :=
  {| blocks := []; current_list_type := None |}.

Definition append_block (b : Block) (c : Converter) : Converter :=
  {| blocks := blocks c ++ [b]; current_list_type := current_list_type c |}.

(** [heading_types[level]] *)
Definition heading_types (level : Z) : result heading_type :=
  if bool_decide (level = 1%Z) then Ok heading_1
  else if bool_decide (level = 2%Z) then Ok heading_2
  else if bool_decide (level = 3%Z) then Ok heading_3
  else Raise (KeyError_int level).

Definition language_map : gmap (list ascii) str :=
  list_to_map
    [ (py "py", py "python"); (py "python", py "python");
      (py "js", py "javascript"); (py "javascript", py "javascript");
      (py "ts", py "typescript"); (py "typescript", py "typescript");
      (py "java", py "java"); (py "c", py "c"); (py "cpp", py "c++");
      (py "c++", py "c++"); (py "csharp", py "c#"); (py "c#", py "c#");
      (py "go", py "go"); (py "rust", py "rust"); (py "ruby", py "ruby");
      (py "php", py "php"); (py "swift", py "swift");
      (py "kotlin", py "kotlin"); (py "sql", py "sql");
      (py "shell", py "shell"); (py "bash", py "bash");
      (py "powershell", py "powershell"); (py "yaml", py "yaml");
      (py "json", py "json"); (py "xml", py "xml"); (py "html", py "html");
      (py "css", py "css"); (py "markdown", py "markdown") ].

Definition _map_language (language : str) : str :=
  default (py "plain text") (language_map !! lower language).

Section Builder.
Context `{UrlLib}.

Definition heading (text : str) (level : Z) (c : Converter)
  : result Converter :=
  let level := if (3 <? level)%Z then 3%Z else level in
  t ← heading_types level;
  Ok (append_block (HeadingBlock t [plain_run (take 2000 text)]) c).

Definition paragraph (text : str) (c : Converter) : result Converter :=
  if negb (truthy (strip text)) then Ok c
  else
    rich_text ← _parse_rich_text text;
    Ok (append_block (ParagraphBlock rich_text) c).

Definition block_code (code : str) (info : option str) (c : Converter)
  : result Converter :=
  let language :=
    match info with
    | Some i => if truthy i then strip i else py "plain text"
    | None => py "plain text"
    end in
  Ok (fold_left
        (fun c chunk =>
           append_block
             (CodeBlock [plain_run chunk] (_map_language language)) c)
        (chunks 2000 code) c).

Definition block_quote (text : str) (c : Converter) : result Converter :=
  Ok (append_block (QuoteBlock [plain_run (take 2000 text)]) c).

(** The method [list]. *)
Definition list_ (ordered : bool) (c : Converter) : result Converter :=
  Ok {| blocks := blocks c;
        current_list_type :=
          Some (if ordered then numbered_list_item
                else bulleted_list_item) |}.

Definition list_item (text : str) (c : Converter) : result Converter :=
  let list_type := default bulleted_list_item (current_list_type c) in
  rich_text ← _parse_rich_text text;
  Ok (append_block (ListItemBlock list_type rich_text) c).

Definition image (text url : str) (c : Converter) : result Converter :=
  if negb (truthy url) || negb (truthy (strip url)) then Ok c
  else
    let caption :=
      if truthy text then Some [plain_run (take 2000 text)] else None in
    Ok (append_block (ImageBlock url caption) c).

Definition thematic_break (c : Converter) : result Converter :=
  Ok (append_block DividerBlock c).

(** The block-level calls the markdown parser makes on the renderer. *)
Inductive event :=
| EvHeading (text : str) (level : Z)
| EvParagraph (text : str)
| EvBlockCode (code : str) (info : option str)
| EvBlockQuote (text : str)
| EvList (ordered : bool)
| EvListItem (text : str)
| EvImage (text url : str)
| EvThematicBreak.

Definition handle (e : event) (c : Converter) : result Converter :=
  match e with
  | EvHeading text level => heading text level c
  | EvParagraph text => paragraph text c
  | EvBlockCode code info => block_code code info c
  | EvBlockQuote text => block_quote text c
  | EvList ordered => list_ ordered c
  | EvListItem text => list_item text c
  | EvImage text url => image text url c
  | EvThematicBreak => thematic_break c
  end.

(** A sequence of calls; the first exception ends it. *)
Fixpoint render (es : list event) (c : Converter) : result Converter :=
  match es with
  | [] => Ok c
  | e :: es' => c' ← handle e c; render es' c'
  end.
End Builder.

(** ** The file system, [pathlib] and [hashlib] *)

(** What [os.stat] finds at a path.  [Path.exists] and [Path.is_file]
    answer [False] where the call fails because the path leads nowhere
    ([ENOENT], [ENOTDIR], [EBADF], [ELOOP]): that is [Absent].  Any other
    failure of the call ([ENAMETOOLONG], [EACCES], ..) is raised by both
    methods as an [OSError]: that is [Failing]. *)
Inductive fs_node :=
| Absent
| Directory                                   (* exists, not a regular file *)
| RegularFile (content : option (list ascii)) (* [None]: cannot be read *)
| Failing (errno : Z).

Class FileSystem := {
  node : str -> fs_node;
  path_parent : str -> str;                     (* [Path(p).parent] *)
  path_join : str -> str -> str;                (* [Path(a) / b] *)
  (** [Path(p).resolve()], which may raise *)
  path_resolve : str -> result str;
  path_name : str -> str;                       (* [Path(p).name] *)
  path_suffix : str -> str;                     (* [Path(p).suffix] *)
  (** [a.relative_to(b)], [None] when it raises [ValueError] *)
  path_relative_to : str -> str -> option str;
  (** [Path(d).rglob(pattern)]: the paths it yields, in its order, and the
      exception that ends the iteration if there is one *)
  rglob : str -> str -> list str * option exn
}.

Class Hashlib := {
  md5_hexdigest : list ascii -> str             (* [hashlib.md5(b).hexdigest()] *)
}.

Section Files.
Context `{FileSystem}.

(** [Path(p).exists()] *)
Definition path_exists (p : str) : result bool :=
  match node p with
  | Absent => Ok false
  | Failing errno => Raise (OSError errno)
  | _ => Ok true
  end.
(** [Path(p).is_file()] *)
Definition path_is_file (p : str) : result bool :=
  match node p with
  | RegularFile _ => Ok true
  | Failing errno => Raise (OSError errno)
  | _ => Ok false
  end.
(** [p.exists() and p.is_file()] *)
Definition exists_and_is_file (p : str) : result bool :=
  e ← path_exists p; if e : bool then path_is_file p else Ok false.
(** [open(p, 'rb').read()], [None] when it raises. *)
Definition read_bytes (p : str) : option (list ascii) :=
  match node p with RegularFile (Some b) => Some b | _ => None end.
End Files.

(** ** The path resolver: [resolve_relative_path] *)

Definition attachment_folders : list str :=
  [ py "attachments"; py "Attachments"; py "assets"; py "Assets";
    py "files"; py "Files"; py "images"; py "Images"; py "pdfs"; py "PDFs" ].

Section Resolver.
Context `{UrlLib} `{FileSystem} `{Hashlib}.

(** [if p.exists() and p.is_file(): return str(p.resolve())]: the value
    returned, [None] when the test fails and the code goes on. *)
Definition return_if_file (p : str) : result (option str) :=
  found ← exists_and_is_file p;
  if found : bool then (resolved ← path_resolve p; Ok (Some resolved))
  else Ok None.

(** [for folder in attachment_folders: ...], which stands outside the
    [try]: an exception of [exists], [is_file] or [resolve] leaves the
    function. *)
Fixpoint try_folders (md_dir file_name : str) (folders : list str)
  : result (option str) :=
  match folders with
  | [] => Ok None
  | folder :: folders' =>
      let folder_path := path_join (path_join md_dir folder) file_name in
      found ← return_if_file folder_path;
      match found with
      | Some resolved => Ok (Some resolved)
      | None => try_folders md_dir file_name folders'
      end
  end.

(** [try: for item in md_dir.rglob(file_name): ... except: pass] over the
    paths [rglob] yields: an exception of [is_file] or [resolve], like one
    of [rglob] itself after its last path, ends the search without a
    result. *)
Fixpoint try_items (items : list str) : option str :=
  match items with
  | [] => None
  | item :: items' =>
      match path_is_file item with
      | Ok true =>
          match path_resolve item with
          | Ok resolved => Some resolved
          | Raise _ => None
          end
      | Ok false => try_items items'
      | Raise _ => None
      end
  end.

Definition resolve_relative_path (file_path markdown_file_path vault_dir : str)
  : result (option str) :=
  if is_url file_path then Ok (Some file_path)
  else
    let file_path := strip (decode_url_path file_path) in
    if negb (truthy file_path) then Ok None
    else
      let md_dir := path_parent markdown_file_path in
      vault_path ← path_resolve vault_dir;
      md_dir_resolved ← path_resolve md_dir;
      let is_single_folder := bool_decide (md_dir_resolved = vault_path) in
      let relative_path := path_join md_dir file_path in
      found ← return_if_file relative_path;
      match found with
      | Some resolved => Ok (Some resolved)
      | None =>
          if is_single_folder then
            let file_name := path_name file_path in
            found ← try_folders md_dir file_name attachment_folders;
            match found with
            | Some resolved => Ok (Some resolved)
            | None => Ok (try_items (fst (rglob md_dir file_name)))
            end
          else
            let vault_relative := path_join vault_path file_path in
            return_if_file vault_relative
      end.

(** The outer [try: ... except: return 'root'] covers the two calls of
    [resolve]. *)
Definition get_unique_path_for_file (file_path vault_dir : str) : str :=
  match path_resolve file_path, path_resolve vault_dir with
  | Ok file_path, Ok vault_dir =>
      match path_relative_to file_path vault_dir with
      | Some rel_path =>
          let parent_path := replace_char "\" "/" (path_parent rel_path) in
          if bool_decide (parent_path = py ".")
             || bool_decide (parent_path = [])
          then py "root" else parent_path
      | None => take 8 (md5_hexdigest (utf8_encode file_path))
      end
  | _, _ => py "root"
  end.
End Resolver.

(** ** The uploader: [FileUploader] *)

Class Provider := {
  (** [self.uploaders[self.provider](file_path, self.config, unique_path)]:
      the URL or [None].  The answer of the network may depend on the calls
      made before, which are the first argument. *)
  provider_upload : list (str * str) -> str -> str -> option str
}.

Record Stats := {
  images : nat; pdfs : nat; other : nat; failed : nat; skipped_dirs : nat
}.

Record FileUploader := {
  cache : gmap (list ascii) str;
  stats : Stats;
  (** the calls of the provider so far, oldest first: [(file_path, unique_path)] *)
  calls : list (str * str)
}.

(** The state [__init__] leaves. *)
Definition new_uploader : FileUploader :=
  {| cache := ∅;
     stats := {| images := 0; pdfs := 0; other := 0; failed := 0;
                 skipped_dirs := 0 |};
     calls := [] |}.

Definition image_suffixes : list str :=
  [ py ".png"; py ".jpg"; py ".jpeg"; py ".gif"; py ".webp"; py ".svg";
    py ".bmp" ].

Definition count_failed (s : Stats) : Stats :=
  {| images := images s; pdfs := pdfs s; other := other s;
     failed := S (failed s); skipped_dirs := skipped_dirs s |}.
Definition count_skipped_dir (s : Stats) : Stats :=
  {| images := images s; pdfs := pdfs s; other := other s;
     failed := failed s; skipped_dirs := S (skipped_dirs s) |}.
Definition count_uploaded (file_ext : str) (s : Stats) : Stats :=
  if bool_decide (file_ext = py ".pdf") then
    {| images := images s; pdfs := S (pdfs s); other := other s;
       failed := failed s; skipped_dirs := skipped_dirs s |}
  else if bool_decide (file_ext ∈ image_suffixes) then
    {| images := S (images s); pdfs := pdfs s; other := other s;
       failed := failed s; skipped_dirs := skipped_dirs s |}
  else
    {| images := images s; pdfs := pdfs s; other := S (other s);
       failed := failed s; skipped_dirs := skipped_dirs s |}.

Section Uploader.
Context `{FileSystem} `{Hashlib} `{Provider}.

Definition _get_cache_key (file_path : str) : str :=
  match read_bytes file_path with
  | Some b => file_path ++ py "_" ++ md5_hexdigest b
  | None => file_path
  end.

(** [upload]: the value returned and the uploader it leaves.  The two
    tests at the top stand outside any [try]: where [exists] or [is_file]
    raises, the call raises and the uploader is as it was. *)
Definition upload (file_path unique_path : str) (u : FileUploader)
  : result (option str * FileUploader) :=
  e ← path_exists file_path;
  if negb e then
    Ok (None, {| cache := cache u; stats := count_failed (stats u);
                 calls := calls u |})
  else
    f ← path_is_file file_path;
    if negb f then
      Ok (None, {| cache := cache u; stats := count_skipped_dir (stats u);
                   calls := calls u |})
    else
      let cache_key := _get_cache_key file_path in
      match cache u !! cache_key with
      | Some url => Ok (Some url, u)
      | None =>
          let url := provider_upload (calls u) file_path unique_path in
          let calls' := calls u ++ [(file_path, unique_path)] in
          let failure :=
            {| cache := cache u; stats := count_failed (stats u);
               calls := calls' |} in
          match url with
          | Some v =>
              if truthy v then
                Ok (url,
                    {| cache := <[cache_key := v]> (cache u);
                       stats := count_uploaded (lower (path_suffix file_path))
                                               (stats u);
                       calls := calls' |})
              else Ok (url, failure)
          | None => Ok (url, failure)
          end
      end.
End Uploader.

(** ** The link normalizer: [convert_obsidian_links] *)

(** [link_content.split('|', 1)] when ['|' in link_content]. *)
Definition split_pipe (link_content : str) : option (str * str) :=
  match span (char_not "|") link_content with
  | (page_name, _ :: display_text) => Some (page_name, display_text)
  | (_, []) => None
  end.

Definition replace_wiki_link (page_map : gmap (list ascii) str)
  (link_content : str) : str :=
  let '(page_name, display_text) :=
    match split_pipe link_content with
    | Some pd => pd
    | None => (link_content, link_content)
    end in
  match page_map !! page_name with
  | Some url => py "[" ++ display_text ++ py "](" ++ url ++ py ")"
  | None => display_text
  end.

(** The replacement template ['![](\1)']. *)
Definition embed_to_image (target : str) : str :=
  py "![](" ++ target ++ py ")".

Definition convert_embeds (content : str) : str :=
  re_sub match_embed (fun _ target => embed_to_image target) content.

Definition convert_wiki_links (page_map : gmap (list ascii) str)
  (content : str) : str :=
  re_sub match_wiki (fun _ lc => replace_wiki_link page_map lc) content.

Definition convert_obsidian_links (content : str)
  (page_map : gmap (list ascii) str) : str :=
  let content := convert_embeds content in
  convert_wiki_links page_map content.

(** ** The attachment rewrite of [parse_markdown_to_blocks] *)

(** The pattern of [re.search] in [upload_and_replace_image]: a closing
    bracket, an opening parenthesis, a greedy non-empty run of characters
    other than a newline, a closing parenthesis, the end of the text (or
    the newline that ends the text).  The group is the run. *)
Definition match_src (_ : option ascii) (s : str)
  : option (str * str * str) :=
  s1 ← expect (py "](") s;
  let '(run, rest) := span (char_not "010") s1 in
  if (bool_decide (rest = []) || bool_decide (rest = ["010"%char]))
     && bool_decide (last run = Some ")"%char)
     && (2 <=? length run)
  then Some (py "](" ++ run, removelast run, rest)
  else None.

(** [re.search(pattern, s)]: the groups of the first match. *)
Definition re_search {G} (m_at : option ascii -> str -> option (str * G * str))
  (s : str) : option G :=
  match fst (re_finditer m_at s) with
  | (_, _, g) :: _ => Some g
  | [] => None
  end.

(** [f"![{alt}]({src})"] *)
Definition image_syntax (alt src : str) : str :=
  py "![" ++ alt ++ py "](" ++ src ++ py ")".

Record Rewrite := {
  uploaded_images : gmap (list ascii) str;
  uploader : option FileUploader            (* the argument [uploader] *)
}.

Section RewriteImages.
Context `{UrlLib} `{FileSystem} `{Hashlib} `{Provider}.
Variables (markdown_file_path vault_dir : str).

(** [file_path and Path(file_path).is_file() and uploader]: the uploader
    to call, [None] when the test fails.  [is_file] is asked before the
    uploader is looked at, and only for a non-empty path. *)
Definition upload_wanted (file_path : option str) (u : option FileUploader)
  : result (option (str * FileUploader)) :=
  match file_path with
  | Some file_path =>
      if truthy file_path then
        f ← path_is_file file_path;
        if f : bool then
          match u with
          | Some u => Ok (Some (file_path, u))
          | None => Ok None
          end
        else Ok None
      else Ok None
  | None => Ok None
  end.

(** The callback: the replacement and the state it leaves.  It raises
    where the resolver, [is_file] or [upload] raises; the dictionary and
    the uploader are then as they were when it was called. *)
Definition upload_and_replace_image (full_match alt : str) (st : Rewrite)
  : result (str * Rewrite) :=
  match re_search match_src full_match with
  | None => Ok (full_match, st)
  | Some src =>
      if is_url src then Ok (image_syntax alt src, st)
      else
        match uploaded_images st !! src with
        | Some url => Ok (image_syntax alt url, st)
        | None =>
            let decoded_src := unquote src in
            file_path ← resolve_relative_path decoded_src markdown_file_path
                                              vault_dir;
            wanted ← upload_wanted file_path (uploader st);
            match wanted with
            | Some (file_path, u) =>
                let unique_path :=
                  get_unique_path_for_file file_path vault_dir in
                '(file_url, u') ← upload file_path unique_path u;
                match file_url with
                | Some v =>
                    if truthy v then
                      Ok (image_syntax alt v,
                          {| uploaded_images :=
                               <[src := v]> (uploaded_images st);
                             uploader := Some u' |})
                    else
                      Ok (image_syntax alt src,
                          {| uploaded_images := uploaded_images st;
                             uploader := Some u' |})
                | None =>
                    Ok (image_syntax alt src,
                        {| uploaded_images := uploaded_images st;
                           uploader := Some u' |})
                end
            | None => Ok (image_syntax alt src, st)
            end
        end
  end.

(** [re.sub(image_pattern, upload_and_replace_image, content)] once the
    matches are known: the new text, or the exception of the first callback
    that raises, and the state left behind in both cases. *)
Fixpoint replace_images (ms : list (str * str * (str * str))) (tail : str)
  (st : Rewrite) : result str * Rewrite :=
  match ms with
  | [] => (Ok tail, st)
  | (gap, full_match, (alt, _)) :: ms' =>
      match upload_and_replace_image full_match alt st with
      | Raise e => (Raise e, st)
      | Ok (r, st1) =>
          let '(out, st2) := replace_images ms' tail st1 in
          (out ← out; Ok (gap ++ r ++ out), st2)
      end
  end.

Definition rewrite_images (content : str) (u : option FileUploader)
  : result str * Rewrite :=
  let '(ms, tail) := re_finditer match_image content in
  replace_images ms tail {| uploaded_images := ∅; uploader := u |}.
End RewriteImages.

(** ** [parse_markdown_to_blocks] *)

Class MarkdownParser := {
  (** the block-level calls [mistune] makes on the renderer for a text *)
  markdown_events : str -> list event
}.

Section Parse.
Context `{UrlLib} `{FileSystem} `{Hashlib} `{Provider} `{MarkdownParser}.

Definition parse_markdown_to_blocks (content vault_dir markdown_file_path : str)
  (page_map : gmap (list ascii) str) (u : option FileUploader)
  : result (list Block) * option FileUploader :=
  let content := convert_obsidian_links content page_map in
  let '(content, st) :=
    rewrite_images markdown_file_path vault_dir content u in
  (content ← content;
   c ← render (markdown_events content) new_converter; Ok (blocks c),
   uploader st).
End Parse.

(** ** The batch emitter of [create_notion_page] *)

Class NotionApi := {
  (** [notion.pages.create(..)]: the id and the URL of the page, [None] when
      the call raises *)
  pages_create : str -> option (str * str);
  (** [notion.blocks.children.append(block_id, children)]: the message of
      the exception it raises, [None] when it returns.  The answer may depend
      on the calls made before, which are the first argument. *)
  children_append :
    list (list Block * option str) -> list Block -> option str
}.

Inductive outcome :=
| Returned
| Reraised (e : str).          (* the statement [raise] of line 882 *)

Section Emitter.
Context `{NotionApi}.

(** One call of [children.append], added to the record of calls. *)
Definition append_call (children : list Block)
  (log : list (list Block * option str))
  : option str * list (list Block * option str) :=
  let r := children_append log children in (r, log ++ [(children, r)]).

(** [for k, single_block in enumerate(batch): try: ... except: ...] *)
Fixpoint retry_singly (batch : list Block)
  (log : list (list Block * option str))
  : list (list Block * option str) :=
  match batch with
  | [] => log
  | single_block :: batch' =>
      retry_singly batch' (snd (append_call [single_block] log))
  end.

(** [for i in range(0, len(blocks), batch_size): ...] *)
Fixpoint submit_batches (batches : list (list Block))
  (log : list (list Block * option str))
  : outcome * list (list Block * option str) :=
  match batches with
  | [] => (Returned, log)
  | batch :: batches' =>
      match append_call batch log with
      | (None, log1) => submit_batches batches' log1
      | (Some e, log1) => (Reraised e, retry_singly batch log1)
      end
  end.

Definition batch_size : nat := 100.

(** Lines 850 to 882. *)
Definition submit_blocks (blocks : list Block)
  (log : list (list Block * option str))
  : outcome * list (list Block * option str) :=
  match blocks with
  | [] => (Returned, log)
  | _ :: _ => submit_batches (chunks batch_size blocks) log
  end.
End Emitter.

Section CreatePage.
Context `{UrlLib} `{FileSystem} `{Hashlib} `{Provider} `{MarkdownParser}
        `{NotionApi}.

(** [create_notion_page]: [(page_id, page_url)], [None] for the pair
    [(None, None)] of the two handlers. *)
Definition create_notion_page (title content vault_dir markdown_file_path : str)
  (page_map : gmap (list ascii) str) (u : option FileUploader)
  (log : list (list Block * option str))
  : option (str * str) * option FileUploader
    * list (list Block * option str) :=
  match pages_create (take 2000 title) with
  | None => (None, u, log)
  | Some new_page =>
      match parse_markdown_to_blocks content vault_dir markdown_file_path
                                     page_map u with
      | (Raise _, u') => (None, u', log)
      | (Ok blocks, u') =>
          match submit_blocks blocks log with
          | (Returned, log') => (Some new_page, u', log')
          | (Reraised _, log') => (None, u', log')
          end
      end
  end.
End CreatePage.

(** ** The inline methods of the renderer *)

Definition codespan (text : str) : str := py "`" ++ text ++ py "`".
Definition emphasis (text : str) : str := py "*" ++ text ++ py "*".
Definition strong (text : str) : str := py "**" ++ text ++ py "**".
Definition strikethrough (text : str) : str := py "~~" ++ text ++ py "~~".
Definition linebreak : str := ["010"%char].
Definition newline : str := [].

(** [a or b] for strings, a missing [a] being [None]. *)
Definition str_or (a : option str) (b : str) : str :=
  match a with
  | Some s => if truthy s then s else b
  | None => b
  end.

Definition document_suffixes : list str :=
  [ py ".pdf"; py ".doc"; py ".docx"; py ".xls"; py ".xlsx"; py ".ppt";
    py ".pptx"; py ".txt" ].

Section LinkMethod.
Context `{FileSystem}.

(** The method [link]; [text] and [url] may be [None]. *)
Definition link_ (text url : option str) : str :=
  match url with
  | None => str_or text []
  | Some u =>
      if negb (truthy u) || negb (truthy (strip u)) then str_or text []
      else
        let url_lower := lower u in
        if existsb (fun e => endswith e url_lower) document_suffixes
        then py "[" ++ str_or text (path_name u) ++ py "](" ++ u ++ py ")"
        else py "[" ++ str_or text u ++ py "](" ++ u ++ py ")"
  end.
End LinkMethod.

(** ** [FileUploader.print_stats] *)

(** The number [print_stats] prints as the total. *)
Definition print_stats_total (u : FileUploader) : nat :=
  images (stats u) + pdfs (stats u) + other (stats u).

(** ** [get_markdown_files] and the loop of [main] *)

Class TextFiles := {
  (** [md_file.read_text(encoding='utf-8')], [None] when it raises *)
  read_text : str -> option str;
  path_stem : str -> str;                       (* [Path(p).stem] *)
  path_parts : str -> list str                  (* [Path(p).parts] *)
}.

Definition default_exclude_folders : list str :=
  [ py ".obsidian"; py ".trash"; py ".git" ].

(** What [main] keeps between two files: the page map, the two counters,
    the uploader and the record of the calls made on the API. *)
Record Migration := {
  m_page_map : gmap (list ascii) str;
  successful : nat;
  failed_files : nat;
  m_uploader : FileUploader;
  m_log : list (list Block * option str)
}.

Section Main.
Context `{UrlLib} `{FileSystem} `{Hashlib} `{Provider} `{MarkdownParser}
        `{NotionApi} `{TextFiles}.

(** The loop only builds the list: an exception of [rglob] leaves the
    function whatever was collected. *)
Definition get_markdown_files (vault_dir : str)
  (exclude_folders : option (list str)) : result (list str) :=
  let exclude_folders := default default_exclude_folders exclude_folders in
  let '(found, raised) := rglob vault_dir (py "*.md") in
  match raised with
  | Some e => Raise e
  | None =>
      Ok (filter (fun md_file =>
                    negb (existsb
                            (fun excluded =>
                               bool_decide (excluded ∈ path_parts md_file))
                            exclude_folders) = true)
                 found)
  end.

(** The state before the first file. *)
Definition migration_start : Migration :=
  {| m_page_map := ∅; successful := 0; failed_files := 0;
     m_uploader := new_uploader; m_log := [] |}.

(** The body of [for i, md_file in enumerate(markdown_files, 1)].  The
    uploader is one object shared by all files: what [create_notion_page]
    leaves of it is what the next file starts from. *)
Definition migrate_file (vault_dir md_file : str) (m : Migration)
  : Migration :=
  let title := path_stem md_file in
  let failure :=
    {| m_page_map := m_page_map m; successful := successful m;
       failed_files := S (failed_files m); m_uploader := m_uploader m;
       m_log := m_log m |} in
  match read_text md_file, path_resolve md_file with
  | None, _ => failure
  | Some _, Raise _ => failure
  | Some content, Ok markdown_file_path =>
      let '(page, u, log) :=
        create_notion_page title content vault_dir markdown_file_path
                           (m_page_map m) (Some (m_uploader m)) (m_log m) in
      let u := default (m_uploader m) u in
      match page with
      | Some (page_id, page_url) =>
          if truthy page_id then
            {| m_page_map := <[title := page_url]> (m_page_map m);
               successful := S (successful m);
               failed_files := failed_files m; m_uploader := u;
               m_log := log |}
          else
            {| m_page_map := m_page_map m; successful := successful m;
               failed_files := S (failed_files m); m_uploader := u;
               m_log := log |}
      | None =>
          {| m_page_map := m_page_map m; successful := successful m;
             failed_files := S (failed_files m); m_uploader := u;
             m_log := log |}
      end
  end.

Definition migrate_files (vault_dir : str) (markdown_files : list str)
  (m : Migration) : Migration :=
  fold_left (fun m md_file => migrate_file vault_dir md_file m)
            markdown_files m.

(** [main] after the arguments are read: [None] when the vault is not
    found.  The calls before the loop stand outside any [try]. *)
Definition main (vault_dir : str) : result (option Migration) :=
  vault_dir ← path_resolve vault_dir;
  e ← path_exists vault_dir;
  if negb e then Ok None
  else
    markdown_files ← get_markdown_files vault_dir None;
    Ok (Some (migrate_files vault_dir markdown_files migration_start)).
End Main.

(** ** Instances for the examples

    Small instances of the classes, on which the closed examples below are
    evaluated: the scheme and the netloc of [urlsplit] for URLs without a
    bracket in the host, percent-decoding of ASCII escapes, POSIX paths
    without [.] and [..] over a file tree given as a list, where a name of
    more than 255 characters fails as on Linux, and stub collaborators.
    No theorem depends on them but the closed examples. *)

Module Demo.

Definition scheme_char (c : ascii) : bool :=
  let n := nat_of_ascii c in
  ((48 <=? n) && (n <=? 57)) || ((65 <=? n) && (n <=? 90))
  || ((97 <=? n) && (n <=? 122))
  || char_is "+" c || char_is "-" c || char_is "." c.

Definition ascii_letter (c : ascii) : bool :=
  let n := nat_of_ascii c in
  ((65 <=? n) && (n <=? 90)) || ((97 <=? n) && (n <=? 122)).

(** The scheme and the netloc [urlsplit] gives: leading control characters
    and spaces are stripped, tab and line ends removed; the text before the
    first colon is the scheme when it starts with an ASCII letter and goes
    on with letters, digits, [+], [-] and [.]; the netloc is what follows
    [//] up to the first [/], [?] or [#].
    The model covers hosts without brackets only: it answers [None] (the
    call raises) for every netloc that holds a bracket, where [urlsplit]
    raises for an unbalanced bracket or a bracketed host that is no IPv6 or
    IPvFuture literal and accepts the others.  It leaves out the check of
    the netloc under NFKC normalization, which concerns characters that are
    not ASCII. *)
Definition urlparse_model (url : str) : option (str * str) :=
  let url := lstrip_by (fun c => nat_of_ascii c <=? 32) url in
  let url :=
    filter (fun c => c <> "009"%char /\ c <> "010"%char /\ c <> "013"%char)
           url in
  let '(scheme, url) :=
    match span (char_not ":") url with
    | (first :: s, _ :: after) =>
        if ascii_letter first && forallb scheme_char s
        then (lower (first :: s), after)
        else ([], url)
    | (_, _) => ([], url)
    end in
  let netloc :=
    match expect (py "//") url with
    | Some r =>
        fst (span (fun c => negb (char_is "/" c || char_is "?" c
                                  || char_is "#" c)) r)
    | None => []
    end in
  if bool_decide ("["%char ∈ netloc) || bool_decide ("]"%char ∈ netloc)
  then None else Some (scheme, netloc).

Definition hex_value (c : ascii) : option nat :=
  let n := nat_of_ascii c in
  if (48 <=? n) && (n <=? 57) then Some (n - 48)
  else if (65 <=? n) && (n <=? 70) then Some (n - 55)
  else if (97 <=? n) && (n <=? 102) then Some (n - 87)
  else None.

(** [unquote] on text whose escapes are ASCII. *)
Fixpoint unquote_ascii (s : str) : str :=
  match s with
  | [] => []
  | c :: s' =>
      match s' with
      | a :: b :: rest =>
          match hex_value a, hex_value b with
          | Some x, Some y =>
              if char_is "%" c && (16 * x + y <? 128)
              then ascii_of_nat (16 * x + y) :: unquote_ascii_skip2 rest s'
              else c :: unquote_ascii s'
          | _, _ => c :: unquote_ascii s'
          end
      | _ => c :: unquote_ascii s'
      end
  end
with unquote_ascii_skip2 (rest s' : str) : str :=
  match s' with
  | _ :: s'' => match s'' with _ :: r => unquote_ascii r | [] => [] end
  | [] => []
  end.

Definition urllib : UrlLib :=
  {| urlparse := urlparse_model; unquote := unquote_ascii |}.

(** The digest of the empty input; the files of the examples are empty. *)
Definition hashlib : Hashlib :=
  {| md5_hexdigest := fun _ => py "d41d8cd98f00b204e9800998ecf8427e" |}.

Definition posix_name (p : str) : str :=
  rev (fst (span (char_not "/") (rev p))).

Definition posix_parent (p : str) : str :=
  match snd (span (char_not "/") (rev p)) with
  | [] => py "."
  | [_] => py "/"
  | _ :: r => rev r
  end.

Definition posix_join (a b : str) : str :=
  if startswith (py "/") b then b else a ++ py "/" ++ b.

Definition posix_suffix (p : str) : str :=
  let name := posix_name p in
  match snd (span (char_not ".") (rev name)) with
  | [] | [_] => []
  | _ :: _ :: _ => py "." ++ rev (fst (span (char_not ".") (rev name)))
  end.

Definition posix_relative_to (p base : str) : option str :=
  match expect (base ++ py "/") p with
  | Some rel => Some rel
  | None => if bool_decide (p = base) then Some (py ".") else None
  end.

Definition tree : list (str * fs_node) :=
  [ (py "/v", Directory);
    (py "/v/note.md", RegularFile (Some []));
    (py "/v/a.png", RegularFile (Some []));
    (py "/v/b.png", RegularFile (Some []));
    (py "/v/attachments", Directory);
    (py "/v/attachments/pic.png", RegularFile (Some []));
    (py "/v/.obsidian", Directory);
    (py "/v/.obsidian/plugin.md", RegularFile (Some []));
    (py "/v/other.md", RegularFile (Some [])) ].

(** The names between the slashes of a path. *)
Fixpoint posix_components (p : str) : list str :=
  match p with
  | [] => [[]]
  | c :: p' =>
      if char_is "/" c then [] :: posix_components p'
      else
        match posix_components p' with
        | name :: names => (c :: name) :: names
        | [] => [[c]]
        end
  end.

(** [os.stat] fails with [ENAMETOOLONG] (36) for a path one of whose names
    has more than 255 characters. *)
Definition lookup_node (t : list (str * fs_node)) (p : str) : fs_node :=
  if existsb (fun name => 255 <? length name) (posix_components p)
  then Failing 36
  else
    match find (fun e => bool_decide (fst e = p)) t with
    | Some e => snd e
    | None => Absent
    end.

(** The names a pattern of the examples selects: the names that end with
    [suffix] for the pattern [*suffix], the name [pattern] itself for a
    pattern without a star.  The other characters of the glob syntax are
    not modelled; no pattern of the examples has one. *)
Definition glob_match (pattern name : str) : bool :=
  match pattern with
  | c :: suffix =>
      if char_is "*" c then endswith suffix name
      else bool_decide (name = pattern)
  | [] => false
  end.

(** The paths of the examples are absolute and have no link: [resolve]
    returns them as they are.  [rglob] yields the paths below [d] whose
    name the pattern selects, in the order of the tree, and does not
    raise. *)
Definition fs : FileSystem :=
  {| node := lookup_node tree;
     path_parent := posix_parent;
     path_join := posix_join;
     path_resolve := fun p => Ok p;
     path_name := posix_name;
     path_suffix := posix_suffix;
     path_relative_to := posix_relative_to;
     rglob := fun d pattern =>
       (map fst (filter (fun e => glob_match pattern (posix_name (fst e))
                                  = true
                                  /\ startswith (d ++ py "/") (fst e) = true)
                        tree), None) |}.

(** A provider that stores every file under the hint and the file name. *)
Definition provider_ok : Provider :=
  {| provider_upload := fun _ file_path unique_path =>
       Some (py "https://cdn/" ++ unique_path ++ py "/"
             ++ posix_name file_path) |}.

(** A provider whose every call fails. *)
Definition provider_down : Provider :=
  {| provider_upload := fun _ _ _ => None |}.

(** An API whose [n]-th call of [children.append] (from 0) fails and whose
    other calls succeed. *)
Definition notion_failing_at (n : nat) : NotionApi :=
  {| pages_create := fun _ => Some (py "id", py "https://notion/id");
     children_append := fun log _ =>
       if length log =? n then Some (py "rate_limited") else None |}.

(** A parser that reads a whole text as one paragraph. *)
Definition one_paragraph : MarkdownParser :=
  {| markdown_events := fun content => [EvParagraph content] |}.

(** The notes of the examples: the stem is the name without [.md], the
    parts are the root and the names between the slashes. *)
Definition text_files : TextFiles :=
  {| read_text := fun p =>
       if bool_decide (p = py "/v/note.md") then Some (py "see [[other]]")
       else if bool_decide (p = py "/v/other.md") then Some (py "text")
       else None;
     path_stem := fun p =>
       let name := posix_name p in
       if endswith (py ".md") name then take (length name - 3) name
       else name;
     path_parts := fun p =>
       (if startswith (py "/") p then [py "/"] else [])
       ++ filter (fun name => name <> []) (posix_components p) |}.

End Demo.

(** ** Vocabulary of the statements *)

Section RegexVocabulary.
Context {G : Type}.
Variable m_at : option ascii -> str -> option (str * G * str).

(** A matcher reads its match off the front of the text, and the match is
    not empty. *)
Definition consuming : Prop :=
  forall prev s g0 g rest,
    m_at prev s = Some (g0, g, rest) -> s = g0 ++ rest /\ g0 <> [].

(** The text a list of matches and a tail came from. *)
Definition join (ms : list (str * str * G)) (tail : str) : str :=
  sub_join (fun g0 _ => g0) ms tail.

(** The pattern matches at no position of [pre] when [rest] follows it. *)
Fixpoint no_match_in (prev : option ascii) (pre rest : str) : Prop :=
  match pre with
  | [] => True
  | c :: pre' =>
      m_at prev (c :: pre' ++ rest) = None
      /\ no_match_in (Some c) pre' rest
  end.

(** The result of a scan with [pre] put in front of the text, when no
    match starts in [pre]. *)
Definition prefix_gap (pre : str) (r : list (str * str * G) * str)
  : list (str * str * G) * str :=
  match r with
  | ((gap, g0, g) :: ms, tail) => ((pre ++ gap, g0, g) :: ms, tail)
  | ([], tail) => ([], pre ++ tail)
  end.
End RegexVocabulary.


(** The destination's limit on the content of a run. *)
Definition run_bounded (r : RichText) : Prop := length (content r) <= 2000.
Definition block_bounded (b : Block) : Prop :=
  Forall run_bounded (block_runs b).

(** The heading type an event of level [level] gets. *)
Definition clamped_heading (level : Z) : heading_type :=
  if (level <=? 1)%Z then heading_1
  else if (level =? 2)%Z then heading_2 else heading_3.

Definition is_list_event (e : event) : bool :=
  match e with EvList _ => true | _ => false end.

(** The path resolver in the words of the specification. *)

(** A text without its leading white space, and without its leading and
    trailing white space. *)
Fixpoint drop_spaces (s : str) : str :=
  match s with
  | c :: s' => if isspace c then drop_spaces s' else s
  | [] => []
  end.
Definition trimmed (s : str) : str := rev (drop_spaces (rev (drop_spaces s))).

(** The attachment subfolders, in the order in which they are tried. *)
Definition conventional_folders : list str :=
  [ py "attachments"; py "Attachments"; py "assets"; py "Assets";
    py "files"; py "Files"; py "images"; py "Images"; py "pdfs"; py "PDFs" ].

Section ResolverSpec.
Context `{UrlLib} `{FileSystem}.

(** The paths the strategies test for a decoded and trimmed reference, in
    the order in which they are tested; the recursive search comes after
    them. *)
Definition candidates (reference doc_dir root : str) (single_folder : bool)
  : list str :=
  path_join doc_dir reference
  :: (if single_folder then
        map (fun folder =>
               path_join (path_join doc_dir folder) (path_name reference))
            conventional_folders
      else [path_join root reference]).

(** The first candidate that is a regular file, made absolute.  An error
    of the file system at a candidate, or while the winner is made
    absolute, is the result. *)
Fixpoint first_regular_file (paths : list str) : result (option str) :=
  match paths with
  | [] => Ok None
  | p :: paths' =>
      match node p with
      | Failing errno => Raise (OSError errno)
      | RegularFile _ =>
          match path_resolve p with
          | Ok a => Ok (Some a)
          | Raise e => Raise e
          end
      | Absent | Directory => first_regular_file paths'
      end
  end.

(** The recursive search: the first regular file among the paths found,
    made absolute; an error ends the search without a result. *)
Fixpoint first_found (paths : list str) : option str :=
  match paths with
  | [] => None
  | p :: paths' =>
      match node p with
      | Failing _ => None
      | RegularFile _ =>
          match path_resolve p with
          | Ok a => Some a
          | Raise _ => None
          end
      | Absent | Directory => first_found paths'
      end
  end.

Definition resolve_by_strategies (reference source_doc_path root_dir : str)
  : result (option str) :=
  if is_url reference then Ok (Some reference)
  else
    match trimmed (unquote reference) with
    | [] => Ok None
    | r =>
        let doc_dir := path_parent source_doc_path in
        match path_resolve root_dir, path_resolve doc_dir with
        | Raise e, _ => Raise e
        | Ok _, Raise e => Raise e
        | Ok root, Ok doc =>
            let single_folder := bool_decide (doc = root) in
            match first_regular_file (candidates r doc_dir root single_folder)
            with
            | Raise e => Raise e
            | Ok (Some found) => Ok (Some found)
            | Ok None =>
                if single_folder
                then Ok (first_found (fst (rglob doc_dir (path_name r))))
                else Ok None
            end
        end
    end.
End ResolverSpec.

(** [without c s]: the character [c] does not occur in [s]. *)
Definition without (c : ascii) (s : str) : Prop :=
  Forall (fun x => x <> c) s.

(** The occurrences of a syntax in a text. *)
Section Occurrences.
Context {G : Type}.

(** [syntax s g0 g rest]: the text [s] starts with the syntax; [g0] is the
    text of the syntax, [g] are its parts and [rest] is the text after
    it. *)
Variable syntax : str -> str -> G -> str -> Prop.

(** The syntax starts at no position of [gap], [rest] being the text after
    [gap]. *)
Fixpoint none_starts (gap rest : str) : Prop :=
  match gap with
  | [] => True
  | c :: gap' =>
      (forall g0 g r, ~ syntax (c :: gap' ++ rest) g0 g r)
      /\ none_starts gap' rest
  end.

(** [occurrences ms tail s]: [ms] are the occurrences of the syntax in the
    text [s] from left to right, each the first that starts at or after the
    end of the one before, with the text between the two; [tail] is the
    text after the last, in which the syntax does not start. *)
Inductive occurrences : list (str * str * G) -> str -> str -> Prop :=
| occurrences_none tail :
    none_starts tail [] -> occurrences [] tail tail
| occurrences_next gap g0 g rest ms tail :
    none_starts gap (g0 ++ rest) ->
    syntax (g0 ++ rest) g0 g rest ->
    occurrences ms tail rest ->
    occurrences ((gap, g0, g) :: ms) tail (gap ++ g0 ++ rest).
End Occurrences.

(** The normalizer in the words of the specification. *)

(** The syntax of embeds ([open] is an exclamation mark and two opening
    brackets) and of wiki-links ([open] is two opening brackets): [open], a
    body that is not empty and has no closing bracket, and two closing
    brackets. *)
Definition bracketed (open : str) (s g0 body rest : str) : Prop :=
  g0 = open ++ body ++ py "]]" /\ s = g0 ++ rest
  /\ body <> [] /\ without "]" body.

(** The body of a wiki-link cut at its first pipe. *)
Fixpoint cut_at_pipe (body : str) : option (str * str) :=
  match body with
  | [] => None
  | c :: body' =>
      if char_is "|" c then Some ([], body')
      else
        match cut_at_pipe body' with
        | Some (page, display) => Some (c :: page, display)
        | None => None
        end
  end.

(** What a wiki-link to the page [A] with the display text [B] becomes. *)
Definition linked_or_bare (page_map : gmap (list ascii) str) (A B : str)
  : str :=
  match page_map !! A with
  | Some U => py "[" ++ B ++ py "](" ++ U ++ py ")"
  | None => B
  end.

(** What a wiki-link with the body [body] becomes: [A|B] is the page [A]
    with the display text [B], a body without pipe is both. *)
Definition wiki_target (page_map : gmap (list ascii) str) (body : str) : str :=
  match cut_at_pipe body with
  | Some (A, B) => linked_or_bare page_map A B
  | None => linked_or_bare page_map body body
  end.

(** A note as a sequence of segments: text, embeds and wiki-links. *)
Inductive segment :=
| Text (t : str)
| Embed (x : str)                              (* [![[x]]] *)
| WikiLink (A : str) (B : option str).         (* [[[A]]] or [[[A|B]]] *)

Definition source_of (seg : segment) : str :=
  match seg with
  | Text t => t
  | Embed x => py "![[" ++ x ++ py "]]"
  | WikiLink A None => py "[[" ++ A ++ py "]]"
  | WikiLink A (Some B) => py "[[" ++ A ++ py "|" ++ B ++ py "]]"
  end.

Definition normalized_of (page_map : gmap (list ascii) str) (seg : segment)
  : str :=
  match seg with
  | Text t => t
  | Embed x => py "![](" ++ x ++ py ")"
  | WikiLink A None => linked_or_bare page_map A A
  | WikiLink A (Some B) => linked_or_bare page_map A B
  end.

Definition source_text (segs : list segment) : str :=
  concat (map source_of segs).
Definition normalized_text (page_map : gmap (list ascii) str)
  (segs : list segment) : str :=
  concat (map (normalized_of page_map) segs).

(** Two opening brackets follow each other somewhere in [t]. *)
Fixpoint double_bracket_in (t : str) : bool :=
  match t with
  | [] => false
  | c :: t' =>
      (char_is "[" c
       && match t' with d :: _ => char_is "[" d | [] => false end)
      || double_bracket_in t'
  end.
Definition no_double_bracket (t : str) : Prop := double_bracket_in t = false.

(** A segment after the embed pass. *)
Definition after_embeds (seg : segment) : str :=
  match seg with
  | Embed x => py "![](" ++ x ++ py ")"
  | _ => source_of seg
  end.

(** The segments are what they are read as.  A text segment has no two
    opening brackets in a row (ordinary links and images are text), and
    does not end with an opening bracket or an exclamation mark when
    another segment follows; the target of an embed and the two parts of a
    wiki-link have no bracket; a target and a page without display text
    are not empty; a page has no pipe. *)
Fixpoint segmented (segs : list segment) : Prop :=
  match segs with
  | [] => True
  | seg :: segs' =>
      match seg with
      | Text t =>
          no_double_bracket t
          /\ (segs' <> [] ->
              last t <> Some "["%char /\ last t <> Some "!"%char)
      | Embed x => x <> [] /\ without "[" x /\ without "]" x
      | WikiLink A None =>
          A <> [] /\ without "[" A /\ without "]" A /\ without "|" A
      | WikiLink A (Some B) =>
          without "[" A /\ without "]" A /\ without "|" A
          /\ without "[" B /\ without "]" B
      end
      /\ segmented segs'
  end.

(** A match of the image pattern: the alternative text has no closing
    bracket; the source is not empty and has no newline. *)
Definition image_parts (alt src : str) : Prop :=
  without "]" alt /\ src <> [] /\ without "010" src.

Definition is_image (m : str * str * (str * str)) : Prop :=
  let '(_, g0, (alt, src)) := m in
  g0 = image_syntax alt src /\ image_parts alt src.

(** The text in which the [i]-th image points at the [i]-th target. *)
Fixpoint retarget (ms : list (str * str * (str * str))) (targets : list str)
  (tail : str) : str :=
  match ms, targets with
  | (gap, _, (alt, _)) :: ms', target :: targets' =>
      gap ++ image_syntax alt target ++ retarget ms' targets' tail
  | _, _ => tail
  end.

(** The attachment rewrite in the words of the specification. *)

(** An image reference at the front of [s]: [![alt](src)], the alternative
    text without closing bracket, the source not empty and without line
    end, and the closing parenthesis the first one, after a source that is
    not empty, that white space, an exclamation mark, an opening bracket or
    the end of the text follows. *)
Definition image_reference (s g0 : str) (g : str * str) (rest : str) : Prop :=
  let '(alt, src) := g in
  g0 = image_syntax alt src /\ s = g0 ++ rest
  /\ without "]" alt /\ src <> [] /\ without "010" src
  /\ boundary rest = true
  /\ (forall a b,
        a <> [] -> src = a ++ py ")" ++ b ->
        boundary (b ++ py ")" ++ rest) = false).

Section RewriteSpec.
Context `{UrlLib} `{FileSystem} `{Hashlib} `{Provider}.
Variables (source_doc_path root_dir : str).

(** The hosted URL of a reference that is no URL: resolution gives a path,
    the path is a regular file, an uploader is present and the upload
    returns a URL that is not empty; [None] when one of them fails.  The
    uploader is as the upload leaves it.  An error of the resolver, of the
    test of the path or of the upload is the result. *)
Definition host_reference (src : str) (u : option FileUploader)
  : result (option str * option FileUploader) :=
  match resolve_relative_path (unquote src) source_doc_path root_dir with
  | Raise e => Raise e
  | Ok None => Ok (None, u)
  | Ok (Some path) =>
      if negb (truthy path) then Ok (None, u)
      else
        match path_is_file path with
        | Raise e => Raise e
        | Ok false => Ok (None, u)
        | Ok true =>
            match u with
            | None => Ok (None, None)
            | Some u =>
                match upload path (get_unique_path_for_file path root_dir) u
                with
                | Raise e => Raise e
                | Ok (Some url, u') =>
                    if truthy url then Ok (Some url, Some u')
                    else Ok (None, Some u')
                | Ok (None, u') => Ok (None, Some u')
                end
            end
        end
  end.

(** The text in which the references [ms] are rewritten one after the
    other, [hosted] being the per-document cache and [u] the uploader: a
    reference to a URL is left as it is; a reference to a cached source
    points at the cached URL; any other reference points at its hosted
    URL, which is put in the cache, or is left as it is when there is
    none.  An error ends the rewrite: no text is produced, the cache and
    the uploader are as they were when it was raised. *)
Fixpoint rewrite_references (ms : list (str * str * (str * str)))
  (tail : str) (hosted : gmap (list ascii) str) (u : option FileUploader)
  : result str * Rewrite :=
  match ms with
  | [] => (Ok tail, {| uploaded_images := hosted; uploader := u |})
  | (gap, _, (alt, src)) :: ms' =>
      let pointing_at target hosted u :=
        let '(out, st) := rewrite_references ms' tail hosted u in
        (match out with
         | Ok out => Ok (gap ++ image_syntax alt target ++ out)
         | Raise e => Raise e
         end, st) in
      if is_url src then pointing_at src hosted u
      else
        match hosted !! src with
        | Some url => pointing_at url hosted u
        | None =>
            match host_reference src u with
            | Raise e =>
                (Raise e, {| uploaded_images := hosted; uploader := u |})
            | Ok (Some url, u') =>
                pointing_at url (<[src := url]> hosted) u'
            | Ok (None, u') => pointing_at src hosted u'
            end
        end
  end.
End RewriteSpec.

(** The characters the patterns of the formatter react to. *)
Definition is_markup (c : ascii) : bool :=
  char_is "[" c || char_is "]" c || char_is "(" c || char_is ")" c
  || char_is "`" c || char_is "~" c || char_is "*" c || char_is "_" c
  || char_is "!" c.

(** A text without markup characters. *)
Definition unmarked (s : str) : Prop := Forall (fun c => is_markup c = false) s.

(** [free_of chars s]: no character of [chars] occurs in [s]. *)
Definition free_of (chars s : str) : Prop :=
  Forall (fun x => forallb (fun c => negb (Ascii.eqb x c)) chars = true) s.

(** A text in which no pattern of the formatter can start: no opening
    bracket, backtick, tilde, asterisk or underscore. *)
Definition plain (s : str) : Prop := free_of (py "[`~*_") s.

(** The run for the text between two matches: none for the empty text. *)
Definition text_run (s : str) : list RichText :=
  if truthy s then [plain_run (take 2000 s)] else [].

(** A run that carries a link carries a URL the validation accepts, and no
    annotation. *)
Definition link_checked `{UrlLib} (r : RichText) : Prop :=
  match link r with
  | Some url => _is_valid_url url = true /\ annotations r = None
  | None => True
  end.

Definition block_links_checked `{UrlLib} (b : Block) : Prop :=
  Forall link_checked (block_runs b).

(** The uploader after the calls [upload(file_path, unique_path)] for the
    pairs of [requests], in their order. *)
Definition upload_each `{FileSystem} `{Hashlib} `{Provider}
  (requests : list (str * str)) (u : FileUploader) : FileUploader :=
  fold_left (fun u r =>
               match upload (fst r) (snd r) u with
               | Ok (_, u') => u'
               | Raise _ => u        (* a call that raises changes nothing *)
               end) requests u.

(** The books of an uploader after [n] calls of [upload]: the cache has one
    entry for each file counted as uploaded; the provider was called once
    for each of them and at most once more for each failure; every call of
    [upload] is counted at most once; the provider has seen regular files
    only; and every cached URL is a non-empty answer of the provider, kept
    under the key of the path it was called for. *)
Definition books_balanced `{FileSystem} `{Hashlib} `{Provider}
  (n : nat) (u : FileUploader) : Prop :=
  print_stats_total u = size (cache u)
  /\ size (cache u) <= length (calls u)
  /\ length (calls u) <= size (cache u) + failed (stats u)
  /\ print_stats_total u + failed (stats u) + skipped_dirs (stats u) <= n
  /\ Forall (fun c => path_is_file (fst c) = Ok true) (calls u)
  /\ map_Forall
       (fun k url =>
          url <> [] /\ exists c, c ∈ calls u /\ k = _get_cache_key (fst c))
       (cache u).

(** The state of the builder with the blocks set aside. *)
Definition without_blocks (c : Converter) : Converter :=
  {| blocks := []; current_list_type := current_list_type c |}.

(** The books of the loop of [main] after the files [done]: every file is
    counted once, as a success or as a failure; the page map has at most
    one entry for each success; and each entry stands under the stem of a
    file of [done], with the URL of the page created for that title. *)
Definition migration_balanced `{NotionApi} `{TextFiles} (done : list str)
  (m : Migration) : Prop :=
  successful m + failed_files m = length done
  /\ size (m_page_map m) <= successful m
  /\ map_Forall
       (fun title url =>
          exists md_file page_id,
            md_file ∈ done /\ path_stem md_file = title
            /\ pages_create (take 2000 title) = Some (page_id, url)
            /\ page_id <> [])
       (m_page_map m).

(** The placeholder with the digits [d]. *)
Definition token (d : str) : str := py "__LINK_" ++ d ++ py "__".

(** A non-empty text of digits. *)
Definition is_number (d : str) : Prop :=
  d <> [] /\ Forall (fun c => isdigit c = true) d.

(** The text [g] occurs in the text [s]. *)
Definition occurs_in (g s : str) : Prop := exists a b, s = a ++ g ++ b.

(** Every placeholder that occurs in [s] is a key of [link_map]. *)
Definition placeholders_known (link_map : gmap (list ascii) (str * str))
  (s : str) : Prop :=
  forall d, is_number d -> occurs_in (token d) s ->
            is_Some (link_map !! token d).

(** The first underscore of [s], if there is one, starts a placeholder. *)
Definition underscores_paired (s : str) : Prop :=
  exists g r,
    s = g ++ r /\ without "_" g
    /\ (r = [] \/ exists d r', is_number d /\ r = token d ++ r').

(** An event whose handler has what it needs: a heading has a level of at
    least 1, and the text of a paragraph or of a list item has no
    underscore. *)
Definition event_safe (e : event) : Prop :=
  match e with
  | EvHeading _ level => (1 <= level)%Z
  | EvParagraph text | EvListItem text => without "_" text
  | _ => True
  end.

(** Every link of the map has a text. *)
Definition links_have_text (link_map : gmap (list ascii) (str * str)) : Prop :=
  map_Forall (fun _ link => fst link <> []) link_map.

(** A note [pre ![[x]] post] whose only bracket syntax is the embed of a
    local name [x], the embed being followed by white space, an exclamation
    mark or the end of the text. *)
Definition lone_embed `{UrlLib} (pre x post : str) : Prop :=
  without "[" pre /\ without "[" post /\ boundary post = true
  /\ x <> [] /\ without "[" x /\ without "]" x /\ without ")" x
  /\ without "010" x /\ is_url x = false.

(** * Properties *)

(** ** Characters, literals and spans *)

Lemma char_is_true c x : char_is c x = true <-> x = c.
Proof. unfold char_is. apply Ascii.eqb_eq. Qed.

Lemma char_is_false c x : char_is c x = false <-> x <> c.
Proof. unfold char_is. apply Ascii.eqb_neq. Qed.

Lemma char_not_true c x : char_not c x = true <-> x <> c.
Proof.
  unfold char_not. rewrite negb_true_iff. apply Ascii.eqb_neq.
Qed.

Lemma char_not_false c x : char_not c x = false <-> x = c.
Proof.
  unfold char_not. rewrite negb_false_iff. apply Ascii.eqb_eq.
Qed.

Lemma expect_app lit s : expect lit (lit ++ s) = Some s.
Proof.
  induction lit as [|c lit IH]; simpl; [reflexivity|].
  rewrite Ascii.eqb_refl. exact IH.
Qed.

Lemma expect_Some lit s r : expect lit s = Some r -> s = lit ++ r.
Proof.
  revert s. induction lit as [|c lit IH]; intros s; simpl.
  - intros [= ->]. reflexivity.
  - destruct s as [|x s]; [discriminate|].
    destruct (Ascii.eqb x c) eqn:E; [|discriminate].
    apply Ascii.eqb_eq in E. subst x. intros Hr. f_equal. auto.
Qed.

Lemma expect_head_ne c lit x s : x <> c -> expect (c :: lit) (x :: s) = None.
Proof.
  intros Hne. simpl. apply Ascii.eqb_neq in Hne. rewrite Hne. reflexivity.
Qed.

Lemma span_spec p s a r :
  span p s = (a, r) ->
  s = a ++ r /\ Forall (fun c => p c = true) a
  /\ match r with [] => True | c :: _ => p c = false end.
Proof.
  revert a r. induction s as [|c s IH]; intros a r; simpl.
  - intros [= <- <-]. auto.
  - destruct (p c) eqn:Hc.
    + destruct (span p s) as [a' r'] eqn:Hs. intros [= <- <-].
      destruct (IH _ _ eq_refl) as (-> & Ha & Hr).
      repeat split; auto.
    + intros [= <- <-]. repeat split; auto.
Qed.

Lemma span_app p a r :
  Forall (fun c => p c = true) a ->
  match r with [] => True | c :: _ => p c = false end ->
  span p (a ++ r) = (a, r).
Proof.
  intros Ha Hr. induction Ha as [|c a Hc Ha IH]; simpl.
  - destruct r as [|c r]; [reflexivity|]. simpl. rewrite Hr. reflexivity.
  - rewrite Hc, IH. reflexivity.
Qed.

Lemma truthy_true (s : str) : truthy s = true <-> s <> [].
Proof. destruct s; simpl; split; congruence. Qed.

Lemma truthy_false (s : str) : truthy s = false <-> s = [].
Proof. destruct s; simpl; split; congruence. Qed.

(** ** Chunks *)

Section Chunks.
Context {A : Type}.
Implicit Types l : list A.

Lemma chunks_unfold n l :
  chunks n l
  = map (fun k => take n (drop (k * n) l))
        (seq 0 ((length l + n - 1) / n)).
Proof.
  unfold chunks, range_step, slice. rewrite map_map.
  apply map_ext. intros k. f_equal. lia.
Qed.

Lemma concat_take_drop n l m :
  concat (map (fun k => take n (drop (k * n) l)) (seq 0 m))
  = take (m * n) l.
Proof.
  induction m as [|m IH]; [reflexivity|].
  rewrite seq_S, map_app, concat_app, IH. simpl.
  rewrite app_nil_r, take_take_drop. f_equal. lia.
Qed.

Lemma div_up_covers len n : 0 < n -> len <= (len + n - 1) / n * n.
Proof.
  intros Hn.
  pose proof (Nat.div_mod_eq (len + n - 1) n) as E.
  pose proof (Nat.mod_upper_bound (len + n - 1) n ltac:(lia)) as B.
  nia.
Qed.

Lemma chunks_concat n l : 0 < n -> concat (chunks n l) = l.
Proof.
  intros Hn. rewrite chunks_unfold, concat_take_drop.
  apply take_ge. apply div_up_covers. exact Hn.
Qed.

Lemma chunks_bounded n l : Forall (fun c => length c <= n) (chunks n l).
Proof.
  rewrite chunks_unfold. apply Forall_forall. intros c Hc.
  apply list_elem_of_fmap in Hc as (k & -> & _).
  rewrite length_take. lia.
Qed.

Lemma chunks_nonempty n l :
  0 < n -> Forall (fun c => c <> []) (chunks n l).
Proof.
  intros Hn. rewrite chunks_unfold. apply Forall_forall. intros c Hc.
  apply list_elem_of_fmap in Hc as (k & -> & Hk).
  apply elem_of_seq in Hk. intros E.
  apply (f_equal length) in E. rewrite length_take, length_drop in E.
  simpl in E.
  pose proof (Nat.div_mod_eq (length l + n - 1) n) as D.
  pose proof (Nat.mod_upper_bound (length l + n - 1) n ltac:(lia)) as B.
  nia.
Qed.

Lemma chunks_lengths n l :
  map length (chunks n l)
  = map (fun k => Nat.min n (length l - k * n))
        (seq 0 ((length l + n - 1) / n)).
Proof.
  rewrite chunks_unfold, map_map. apply map_ext. intros k.
  rewrite length_take, length_drop. reflexivity.
Qed.
End Chunks.

(** ** The scanning engine *)

Section RegexFacts.
Context {G : Type}.
Variable m_at : option ascii -> str -> option (str * G * str).
Hypothesis m_consumes : consuming m_at.

Lemma char_before_cons prev c s :
  char_before prev (c :: s) = char_before (Some c) s.
Proof. unfold char_before. destruct s as [|x s]; [reflexivity|].
  change (last (c :: x :: s)) with (last (x :: s)).
  destruct (last (x :: s)) eqn:E; [reflexivity|].
  apply last_None in E. discriminate.
Qed.

Lemma char_before_app prev a b :
  char_before prev (a ++ b) = char_before (char_before prev a) b.
Proof.
  revert prev. induction a as [|c a IH]; intros prev; [reflexivity|].
  simpl app. rewrite !char_before_cons. apply IH.
Qed.

Lemma m_at_nil prev : m_at prev [] = None.
Proof.
  destruct (m_at prev []) as [[[g0 g] rest]|] eqn:E; [|reflexivity].
  apply m_consumes in E as [E Hne]. symmetry in E.
  apply app_eq_nil in E as [-> _]. congruence.
Qed.

Lemma finditer_fuel f1 f2 prev s :
  length s < f1 -> length s < f2 ->
  finditer m_at f1 prev s = finditer m_at f2 prev s.
Proof.
  revert f2 prev s. induction f1 as [|f1 IH]; intros f2 prev s H1 H2; [lia|].
  destruct f2 as [|f2]; [lia|]. simpl.
  destruct (m_at prev s) as [[[g0 g] rest]|] eqn:E.
  - apply m_consumes in E as [-> Hne].
    rewrite length_app in H1, H2. destruct g0; [congruence|]. simpl in *.
    rewrite (IH f2) by lia. reflexivity.
  - destruct s as [|c s]; [reflexivity|]. simpl in *.
    rewrite (IH f2) by lia. reflexivity.
Qed.

Lemma finditer_join fuel prev s ms tail :
  length s < fuel -> finditer m_at fuel prev s = (ms, tail) ->
  join ms tail = s.
Proof.
  revert prev s ms tail.
  induction fuel as [|fuel IH]; intros prev s ms tail Hf; [lia|]. simpl.
  destruct (m_at prev s) as [[[g0 g] rest]|] eqn:E.
  - apply m_consumes in E as [-> Hne].
    destruct (finditer m_at fuel _ rest) as [ms' tail'] eqn:F.
    intros [= <- <-]. unfold join. simpl. f_equal.
    apply IH in F; [exact F|].
    rewrite length_app in Hf. destruct g0; [congruence|simpl in Hf; lia].
  - destruct s as [|c s]; [intros [= <- <-]; reflexivity|].
    destruct (finditer m_at fuel (Some c) s) as [ms' tail'] eqn:F.
    assert (J : join ms' tail' = s)
      by (apply IH in F; [exact F|simpl in Hf; lia]).
    destruct ms' as [|[[gap g0] g] ms'']; intros [= <- <-];
      unfold join in *; simpl in *; congruence.
Qed.

(** Every match the scan reports is a match of the pattern. *)
Lemma finditer_matches fuel prev s :
  Forall (fun '(_, g0, g) =>
            exists prev' rest', m_at prev' (g0 ++ rest') = Some (g0, g, rest'))
         (fst (finditer m_at fuel prev s)).
Proof.
  revert prev s. induction fuel as [|fuel IH]; intros prev s; simpl; [constructor|].
  destruct (m_at prev s) as [[[g0 g] rest]|] eqn:E.
  - specialize (IH (char_before prev g0) rest).
    destruct (finditer m_at fuel _ rest) as [ms' tail']. simpl in *.
    constructor; [|exact IH].
    pose proof (m_consumes _ _ _ _ _ E) as [-> _]. eauto.
  - destruct s as [|c s]; [constructor|].
    specialize (IH (Some c) s).
    destruct (finditer m_at fuel (Some c) s) as [[|[[gap g0] g] ms'] tail'];
      simpl in *; [constructor|].
    inversion IH; subst. constructor; assumption.
Qed.

Lemma finditer_gap fuel prev pre rest :
  no_match_in m_at prev pre rest -> length (pre ++ rest) < fuel ->
  finditer m_at fuel prev (pre ++ rest)
  = prefix_gap pre
      (finditer m_at (fuel - length pre) (char_before prev pre) rest).
Proof.
  revert fuel prev. induction pre as [|c pre IH]; intros fuel prev Hn Hf.
  - simpl. rewrite Nat.sub_0_r.
    destruct (finditer m_at fuel _ rest) as [[|[[gap g0] g] ms] tail];
      reflexivity.
  - destruct Hn as [Hc Hn]. destruct fuel as [|fuel]; [simpl in Hf; lia|].
    simpl app. simpl finditer. rewrite Hc.
    rewrite IH by (auto; simpl in Hf; lia).
    rewrite char_before_cons.
    change (S fuel - length (c :: pre)) with (fuel - length pre).
    destruct (finditer m_at (fuel - length pre) _ rest)
      as [[|[[gap g0] g] ms] tail]; reflexivity.
Qed.

(** No match at all: the scan returns the text as its tail. *)
Lemma re_finditer_none s :
  no_match_in m_at None s [] -> re_finditer m_at s = ([], s).
Proof.
  intros Hn. unfold re_finditer.
  rewrite <- (app_nil_r s) at 2.
  rewrite finditer_gap by (auto; rewrite app_nil_r; lia).
  replace (S (length s) - length s) with 1 by lia.
  simpl. rewrite m_at_nil. simpl. rewrite app_nil_r. reflexivity.
Qed.

(** The first match, after a gap in which the pattern does not match. *)
Lemma re_finditer_first pre g0 g rest :
  no_match_in m_at None pre (g0 ++ rest) ->
  m_at (char_before None pre) (g0 ++ rest) = Some (g0, g, rest) ->
  re_finditer m_at (pre ++ g0 ++ rest)
  = let '(ms, tail) :=
      finditer m_at (S (length rest))
               (char_before (char_before None pre) g0) rest in
    ((pre, g0, g) :: ms, tail).
Proof.
  intros Hn Hm. unfold re_finditer.
  rewrite finditer_gap by (auto; lia).
  replace (S (length (pre ++ g0 ++ rest)) - length pre)
    with (S (length (g0 ++ rest))) by (rewrite !length_app; lia).
  pose proof (m_consumes _ _ _ _ _ Hm) as [_ Hne].
  remember (finditer m_at (S (length rest))
              (char_before (char_before None pre) g0) rest) as r eqn:Hr.
  cbn [finditer]. rewrite Hm.
  rewrite (finditer_fuel (length (g0 ++ rest)) (S (length rest)))
    by (rewrite ?length_app; destruct g0; [congruence|simpl; lia]).
  rewrite <- Hr. destruct r as [ms tail].
  simpl. rewrite app_nil_r. reflexivity.
Qed.

Lemma re_sub_join_id s : re_sub m_at (fun g0 _ => g0) s = s.
Proof.
  unfold re_sub. destruct (re_finditer m_at s) as [ms tail] eqn:F.
  unfold re_finditer in F. apply finditer_join in F; [exact F|lia].
Qed.
End RegexFacts.

(** ** The matchers *)

Lemma m_enclosed_spec open p close s g0 body rest :
  m_enclosed open p close s = Some (g0, body, rest) ->
  g0 = open ++ body ++ close /\ body <> []
  /\ Forall (fun c => p c = true) body /\ s = g0 ++ rest.
Proof.
  unfold m_enclosed.
  destruct (expect open s) as [s1|] eqn:E1; [|discriminate]. simpl.
  destruct (span p s1) as [b s2] eqn:Es.
  destruct b as [|x b]; [discriminate|].
  destruct (expect close s2) as [s3|] eqn:E2; [|discriminate]. simpl.
  intros [= <- <- <-].
  apply expect_Some in E1, E2. apply span_spec in Es as (-> & Hb & _).
  subst. repeat split; auto.
  rewrite <- ?app_assoc. simpl. rewrite <- ?app_assoc. reflexivity.
Qed.

Lemma m_enclosed_app open p close body rest :
  body <> [] -> Forall (fun c => p c = true) body ->
  match close ++ rest with [] => True | c :: _ => p c = false end ->
  m_enclosed open p close (open ++ body ++ close ++ rest)
  = Some (open ++ body ++ close, body, rest).
Proof.
  intros Hne Hb Hc. unfold m_enclosed. rewrite expect_app. simpl.
  rewrite span_app by assumption.
  destruct body; [congruence|]. rewrite expect_app. reflexivity.
Qed.

Lemma m_enclosed_consuming open p close :
  open <> [] -> consuming (fun _ => m_enclosed open p close).
Proof.
  intros Ho prev s g0 g rest E. apply m_enclosed_spec in E as (-> & _ & _ & ->).
  split; [reflexivity|]. destruct open; [congruence|discriminate].
Qed.

Lemma match_embed_consuming : consuming match_embed.
Proof. apply m_enclosed_consuming. discriminate. Qed.

Lemma match_wiki_consuming : consuming match_wiki.
Proof. apply m_enclosed_consuming. discriminate. Qed.

Lemma match_codespan_consuming : consuming match_codespan.
Proof. apply m_enclosed_consuming. discriminate. Qed.

Lemma orelse_Some {A} (a b : option A) x :
  orelse a b = Some x -> a = Some x \/ (a = None /\ b = Some x).
Proof. destruct a; simpl; intros E; auto. Qed.

Lemma match_inline_consuming : consuming match_inline.
Proof.
  intros prev s g0 g rest E. unfold match_inline in E.
  repeat (apply orelse_Some in E as [E|[_ E]]);
    apply m_enclosed_spec in E as (-> & _ & _ & ->);
    (split; [reflexivity|discriminate]).
Qed.

(** ** The language table and the code blocks *)



Lemma fold_append_blocks {X} (f : X -> Block) xs c :
  fold_left (fun c x => append_block (f x) c) xs c
  = {| blocks := blocks c ++ map f xs;
       current_list_type := current_list_type c |}.
Proof.
  revert c. induction xs as [|x xs IH]; intros c; simpl.
  - rewrite app_nil_r. destruct c; reflexivity.
  - rewrite IH. simpl. rewrite <- app_assoc. reflexivity.
Qed.


(** ** The block builder *)


Lemma render_app `{UrlLib} es1 es2 c :
  render (es1 ++ es2) c = (c1 ← render es1 c; render es2 c1).
Proof.
  revert c. induction es1 as [|e es1 IH]; intros c; simpl; [reflexivity|].
  destruct (handle e c) as [c1|x]; simpl; [apply IH|reflexivity].
Qed.

Lemma handle_keeps_list_type `{UrlLib} e c c' :
  is_list_event e = false -> handle e c = Ok c' ->
  current_list_type c' = current_list_type c.
Proof.
  destruct e; simpl; try discriminate; intros _.
  - unfold heading. destruct (heading_types _); simpl; [|discriminate].
    intros [= <-]. reflexivity.
  - unfold paragraph. destruct (negb _); [intros [= <-]; reflexivity|].
    destruct (_parse_rich_text text); simpl; [|discriminate].
    intros [= <-]. reflexivity.
  - unfold block_code. rewrite fold_append_blocks. intros [= <-]. reflexivity.
  - intros [= <-]. reflexivity.
  - unfold list_item.
    destruct (_parse_rich_text text); simpl; [|discriminate].
    intros [= <-]. reflexivity.
  - unfold image. destruct (_ || _); intros [= <-]; reflexivity.
  - intros [= <-]. reflexivity.
Qed.

Lemma render_keeps_list_type `{UrlLib} es c c' :
  forallb (fun e => negb (is_list_event e)) es = true ->
  render es c = Ok c' -> current_list_type c' = current_list_type c.
Proof.
  revert c. induction es as [|e es IH]; intros c; simpl.
  - intros _ [= <-]. reflexivity.
  - intros [He Hes]%andb_true_iff. apply negb_true_iff in He.
    destruct (handle e c) as [c1|x] eqn:E; simpl; [|discriminate].
    intros R. rewrite (IH _ Hes R). eapply handle_keeps_list_type; eauto.
Qed.

(** C10. The list-type state starts unset, and a list-item event that
    arrives while it is unset (in particular after any events none of which
    is a list container event) adds exactly one block at the end of the
    blocks: a list-item block of type [bulleted_list_item] that carries the
    formatter's output for the item; the state stays unset. *)
Theorem list_item_defaults_to_bulleted `{UrlLib} (es : list event) (text : str)
  (rich_text : list RichText) :
  current_list_type new_converter = None
  /\ (forall c, current_list_type c = None ->
        _parse_rich_text text = Ok rich_text ->
        list_item text c
        = Ok {| blocks :=
                  blocks c ++ [ListItemBlock bulleted_list_item rich_text];
                current_list_type := None |}
        /\ block_type (ListItemBlock bulleted_list_item rich_text)
           = py "bulleted_list_item")
  /\ (forall c1,
        forallb (fun e => negb (is_list_event e)) es = true ->
        render es new_converter = Ok c1 ->
        _parse_rich_text text = Ok rich_text ->
        render (es ++ [EvListItem text]) new_converter
        = Ok {| blocks :=
                  blocks c1 ++ [ListItemBlock bulleted_list_item rich_text];
                current_list_type := None |}).
Proof.
  split; [reflexivity|]. split.
  - intros c Hc Hp. split; [|reflexivity].
    unfold list_item, append_block. rewrite Hc, Hp. reflexivity.
  - intros c1 Hes R Hp. rewrite render_app, R. simpl.
    pose proof (render_keeps_list_type _ _ _ Hes R) as Hc. simpl in Hc.
    unfold list_item, append_block. rewrite Hc, Hp. reflexivity.
Qed.

(** C10, at a concrete input: a heading, then a list item.  The blocks are
    the heading and one bulleted list item. *)
Lemma list_item_defaults_to_bulleted_witness :
  render (H := Demo.urllib)
         ([EvHeading (py "T") 1] ++ [EvListItem (py "item")]) new_converter
  = Ok {| blocks :=
            [HeadingBlock heading_1 [plain_run (py "T")]]
            ++ [ListItemBlock bulleted_list_item [plain_run (py "item")]];
          current_list_type := None |}.
Proof.
  apply (proj2 (proj2 (list_item_defaults_to_bulleted
                         (H := Demo.urllib) [EvHeading (py "T") 1]
                         (py "item") [plain_run (py "item")]))
               {| blocks := [HeadingBlock heading_1 [plain_run (py "T")]];
                  current_list_type := None |});
    vm_compute; reflexivity.
Defined.

Lemma heading_types_clamped level :
  (1 <= level)%Z ->
  heading_types (if (3 <? level)%Z then 3%Z else level)
  = Ok (clamped_heading level).
Proof.
  intros Hl. unfold heading_types, clamped_heading.
  destruct (3 <? level)%Z eqn:E3.
  - apply Z.ltb_lt in E3.
    destruct (level <=? 1)%Z eqn:E1; [apply Z.leb_le in E1; lia|].
    destruct (level =? 2)%Z eqn:E2; [apply Z.eqb_eq in E2; lia|].
    reflexivity.
  - apply Z.ltb_ge in E3. repeat case_bool_decide; subst; try reflexivity.
    all: destruct (level <=? 1)%Z eqn:E1;
      [apply Z.leb_le in E1; lia|];
      destruct (level =? 2)%Z eqn:E2;
      [apply Z.eqb_eq in E2; lia|]; try reflexivity; lia.
Qed.

(** C3, where the code departs from it.  For a text that is not white
    space only and for which the formatter returns the runs [rich_text],
    the paragraph block and the list-item block carry [rich_text], while
    the heading block and the quote block carry one run without annotation
    or link whose content is the raw text cut at 2000 characters: [heading]
    and [block_quote] never call the formatter.  So the markup that
    [strong], [emphasis] and [link] write into the text of a heading or of
    a quote reaches the page as literal characters. *)
Theorem heading_and_quote_skip_formatter `{UrlLib} (text : str)
  (rich_text : list RichText) (level : Z) (c : Converter) :
  strip text <> [] ->
  _parse_rich_text text = Ok rich_text ->
  (1 <= level)%Z ->
  paragraph text c
  = Ok {| blocks := blocks c ++ [ParagraphBlock rich_text];
          current_list_type := current_list_type c |}
  /\ list_item text c
     = Ok {| blocks :=
               blocks c
               ++ [ListItemBlock
                     (default bulleted_list_item (current_list_type c))
                     rich_text];
             current_list_type := current_list_type c |}
  /\ heading text level c
     = Ok {| blocks :=
               blocks c
               ++ [HeadingBlock (clamped_heading level)
                                [plain_run (take 2000 text)]];
             current_list_type := current_list_type c |}
  /\ block_quote text c
     = Ok {| blocks := blocks c ++ [QuoteBlock [plain_run (take 2000 text)]];
             current_list_type := current_list_type c |}.
Proof.
  intros Hne Hp Hl. apply truthy_true in Hne.
  refine (conj _ (conj _ (conj _ _))).
  - unfold paragraph, append_block. rewrite Hne, Hp. reflexivity.
  - unfold list_item, append_block. rewrite Hp. reflexivity.
  - unfold heading, append_block.
    rewrite heading_types_clamped by exact Hl. reflexivity.
  - reflexivity.
Qed.

(** C3 at the failing input: the note line [# **a**], for which the parser
    calls [strong] on [a] and then [heading] on what [strong] returned.  The
    formatter reads the text as one bold run [a]; the paragraph and the list
    item carry that run, the heading and the quote carry the four asterisks. *)
Lemma heading_and_quote_skip_formatter_witness :
  strong (py "a") = py "**a**"
  /\ _parse_rich_text (H := Demo.urllib) (py "**a**")
     = Ok [annotated_run ann_bold (py "a")]
  /\ paragraph (H := Demo.urllib) (py "**a**") new_converter
     = Ok {| blocks := [ParagraphBlock [annotated_run ann_bold (py "a")]];
             current_list_type := None |}
  /\ list_item (H := Demo.urllib) (py "**a**") new_converter
     = Ok {| blocks :=
               [ListItemBlock bulleted_list_item
                              [annotated_run ann_bold (py "a")]];
             current_list_type := None |}
  /\ heading (py "**a**") 1 new_converter
     = Ok {| blocks := [HeadingBlock heading_1 [plain_run (py "**a**")]];
             current_list_type := None |}
  /\ block_quote (py "**a**") new_converter
     = Ok {| blocks := [QuoteBlock [plain_run (py "**a**")]];
             current_list_type := None |}
  /\ [plain_run (py "**a**")] <> [annotated_run ann_bold (py "a")].
Proof.
  assert (Hp : _parse_rich_text (H := Demo.urllib) (py "**a**")
               = Ok [annotated_run ann_bold (py "a")])
    by (vm_compute; reflexivity).
  pose proof (heading_and_quote_skip_formatter (H := Demo.urllib)
                (py "**a**") [annotated_run ann_bold (py "a")] 1
                new_converter ltac:(discriminate) Hp ltac:(lia))
    as (H1 & H2 & H3 & H4).
  refine (conj eq_refl (conj Hp (conj H1 (conj H2 (conj H3 (conj H4 _)))))).
  discriminate.
Defined.

(** ** The length of runs *)

Lemma take_bounded (s : str) : length (take 2000 s) <= 2000.
Proof. rewrite length_take. apply Nat.le_min_l. Qed.

Lemma plain_run_bounded s : run_bounded (plain_run (take 2000 s)).
Proof. apply take_bounded. Qed.

Lemma annotated_run_bounded a s : run_bounded (annotated_run a (take 2000 s)).
Proof. apply take_bounded. Qed.

Lemma link_run_bounded s url : run_bounded (link_run (take 2000 s) url).
Proof. apply take_bounded. Qed.

Lemma empty_run_bounded : run_bounded (plain_run []).
Proof. apply Nat.le_0_l. Qed.

(** Closes [Forall run_bounded] goals over explicit lists of runs cut at
    2000 characters. *)
Ltac bounded_runs :=
  repeat match goal with
    | |- Forall _ [] => constructor
    | |- Forall _ (_ :: _) => constructor
    | |- run_bounded (plain_run (take 2000 _)) => apply plain_run_bounded
    | |- run_bounded (annotated_run _ (take 2000 _)) =>
        apply annotated_run_bounded
    | |- run_bounded (link_run (take 2000 _) _) => apply link_run_bounded
    | |- run_bounded (plain_run []) => apply empty_run_bounded
    end.

Section Bounded.
Context `{UrlLib}.

Lemma emit_match_bounded link_map matched_text runs :
  emit_match link_map matched_text = Ok runs -> Forall run_bounded runs.
Proof.
  unfold emit_match.
  destruct (startswith (py "__LINK_") matched_text).
  { destruct (link_map !! matched_text) as [[d u]|]; [|discriminate].
    pose proof (take_bounded (py "[" ++ d ++ py "](" ++ u ++ py ")")) as B.
    revert B.
    generalize (take 2000 (py "[" ++ d ++ py "](" ++ u ++ py ")")).
    intros literal B.
    destruct (_is_valid_url u); intros [= <-]; bounded_runs.
    exact B. }
  destruct (startswith (py "~~") matched_text);
    [intros [= <-]; bounded_runs|].
  destruct (startswith (py "**") matched_text);
    [intros [= <-]; bounded_runs|].
  destruct (startswith (py "*") matched_text);
    intros [= <-]; bounded_runs.
Qed.

Lemma emit_matches_bounded link_map ms runs :
  emit_matches link_map ms = Ok runs -> Forall run_bounded runs.
Proof.
  revert runs. induction ms as [|[[plain mt] g] ms IH]; intros runs;
    cbn [emit_matches].
  - intros [= <-]. constructor.
  - destruct (emit_match link_map mt) as [r1|] eqn:E1; [|discriminate].
    destruct (emit_matches link_map ms) as [r2|] eqn:E2; [|discriminate].
    intros [= <-]. apply Forall_app. split.
    + destruct (truthy plain); bounded_runs.
    + apply Forall_app. split; [eapply emit_match_bounded; eauto|auto].
Qed.

Lemma format_part_bounded link_map part runs :
  format_part link_map part = Ok runs -> Forall run_bounded runs.
Proof.
  unfold format_part.
  destruct (negb (truthy part)); [intros [= <-]; constructor|].
  destruct (_ && _).
  - destruct (truthy _); intros [= <-]; bounded_runs.
  - destruct (re_finditer match_inline part) as [ms remaining].
    destruct (emit_matches link_map ms) as [r|] eqn:E; [|discriminate].
    intros [= <-]. apply Forall_app. split.
    + eapply emit_matches_bounded; eauto.
    + destruct (truthy remaining); bounded_runs.
Qed.

Lemma format_parts_bounded link_map parts runs :
  format_parts link_map parts = Ok runs -> Forall run_bounded runs.
Proof.
  revert runs. induction parts as [|part parts IH]; intros runs;
    cbn [format_parts].
  - intros [= <-]. constructor.
  - destruct (format_part link_map part) as [r1|] eqn:E1; [|discriminate].
    destruct (format_parts link_map parts) as [r2|] eqn:E2; [|discriminate].
    intros [= <-]. apply Forall_app. split; [|auto].
    eapply format_part_bounded; eauto.
Qed.

Lemma _parse_rich_text_bounded text runs :
  _parse_rich_text text = Ok runs -> Forall run_bounded runs.
Proof.
  unfold _parse_rich_text.
  destruct (re_finditer match_link text) as [lms ltail].
  destruct (save_links lms ltail 0 ∅) as [text1 link_map].
  destruct (format_parts link_map _) as [r|] eqn:E; [|discriminate].
  intros [= <-]. apply format_parts_bounded in E.
  destruct r; [bounded_runs|exact E].
Qed.

Lemma handle_bounded e c c' :
  Forall block_bounded (blocks c) -> handle e c = Ok c' ->
  Forall block_bounded (blocks c').
Proof.
  intros Hc. destruct e; cbn [handle].
  - unfold heading. destruct (heading_types _); [|discriminate].
    intros [= <-]. apply Forall_app. split; [exact Hc|].
    constructor; [|constructor]. unfold block_bounded. cbn [block_runs].
    bounded_runs.
  - unfold paragraph. destruct (negb _); [intros [= <-]; exact Hc|].
    destruct (_parse_rich_text text) as [r|] eqn:E; [|discriminate].
    intros [= <-]. apply Forall_app. split; [exact Hc|].
    constructor; [|constructor].
    eapply _parse_rich_text_bounded; eauto.
  - unfold block_code. rewrite fold_append_blocks. intros [= <-].
    apply Forall_app. split; [exact Hc|].
    apply Forall_fmap.
    eapply Forall_impl; [apply (chunks_bounded 2000 code)|].
    intros chunk Hl. constructor; [exact Hl|constructor].
  - intros [= <-]. apply Forall_app. split; [exact Hc|].
    constructor; [|constructor]. unfold block_bounded. cbn [block_runs].
    bounded_runs.
  - intros [= <-]. exact Hc.
  - unfold list_item.
    destruct (_parse_rich_text text) as [r|] eqn:E; [|discriminate].
    intros [= <-]. apply Forall_app. split; [exact Hc|].
    constructor; [|constructor].
    eapply _parse_rich_text_bounded; eauto.
  - unfold image. destruct (_ || _); intros [= <-]; [exact Hc|].
    apply Forall_app. split; [exact Hc|].
    constructor; [|constructor]. unfold block_bounded.
    destruct (truthy text); cbn [block_runs]; bounded_runs.
  - intros [= <-]. apply Forall_app. split; [exact Hc|].
    constructor; [|constructor]. constructor.
Qed.
End Bounded.

(** C9. Every run of every block the converter appends has a content of
    at most 2000 characters: whatever the sequence of events, if it is
    rendered without an exception from a state whose blocks respect the
    bound (the initial state has no block), the blocks of the final state
    respect it. [block_runs] gives the runs of formatter output, heading and
    quote text, code chunks and image captions. *)
Theorem every_run_within_limit `{UrlLib} (es : list event) (c c' : Converter) :
  Forall block_bounded (blocks c) -> render es c = Ok c' ->
  Forall block_bounded (blocks c').
Proof.
  revert c. induction es as [|e es IH]; intros c Hc; simpl.
  - intros [= <-]. exact Hc.
  - destruct (handle e c) as [c1|] eqn:E; simpl; [|discriminate].
    apply IH. eapply handle_bounded; eauto.
Qed.

(** C9, at a concrete input: a heading of 2500 characters, a paragraph, a
    code block of 4100 characters and a captioned image. *)
Lemma every_run_within_limit_witness :
  exists c',
    render (H := Demo.urllib)
      [ EvHeading (repeat "h"%char 2500) 1;
        EvParagraph (py "**b** and [a](http://x/y)");
        EvBlockCode (repeat "c"%char 4100) None;
        EvImage (py "caption") (py "http://x/i.png") ] new_converter = Ok c'
    /\ length (blocks c') = 6
    /\ Forall block_bounded (blocks c').
Proof.
  eexists. split; [vm_compute; reflexivity|]. split; [reflexivity|].
  eapply (every_run_within_limit (H := Demo.urllib)
            [ EvHeading (repeat "h"%char 2500) 1;
              EvParagraph (py "**b** and [a](http://x/y)");
              EvBlockCode (repeat "c"%char 4100) None;
              EvImage (py "caption") (py "http://x/i.png") ] new_converter).
  - constructor.
  - vm_compute. reflexivity.
Defined.

(** ** The batch emitter *)

Section EmitterFacts.
Context `{NotionApi}.

Lemma retry_singly_children batch log :
  map fst (retry_singly batch log)
  = map fst log ++ map (fun b => [b]) batch.
Proof.
  revert log. induction batch as [|b batch IH]; intros log; simpl.
  - rewrite app_nil_r. reflexivity.
  - rewrite IH. unfold append_call. simpl.
    rewrite map_app, <- app_assoc. reflexivity.
Qed.

Lemma submit_batches_fails pre batch post log log1 e :
  submit_batches pre log = (Returned, log1) ->
  children_append log1 batch = Some e ->
  submit_batches (pre ++ batch :: post) log
  = (Reraised e, retry_singly batch (log1 ++ [(batch, Some e)])).
Proof.
  revert log. induction pre as [|b pre IH]; intros log; simpl.
  - intros [= ->] He. unfold append_call. rewrite He. reflexivity.
  - unfold append_call. destruct (children_append log b); [discriminate|].
    apply IH.
Qed.

Lemma submit_batches_returns bs log log' :
  submit_batches bs log = (Returned, log') ->
  log' = log ++ map (fun b => (b, None)) bs.
Proof.
  revert log. induction bs as [|b bs IH]; intros log; simpl.
  - intros [= ->]. rewrite app_nil_r. reflexivity.
  - unfold append_call.
    destruct (children_append log b) eqn:E; [discriminate|].
    intros R. apply IH in R. rewrite R, <- app_assoc. reflexivity.
Qed.

Lemma submit_batches_reraised bs log e log' :
  submit_batches bs log = (Reraised e, log') ->
  exists pre batch post log1,
    bs = pre ++ batch :: post
    /\ submit_batches pre log = (Returned, log1)
    /\ children_append log1 batch = Some e.
Proof.
  revert log. induction bs as [|b bs IH]; intros log; simpl; [discriminate|].
  unfold append_call. destruct (children_append log b) as [e'|] eqn:E.
  - intros [= -> <-]. exists [], b, bs, log. auto.
  - intros R. apply IH in R as (pre & batch & post & log1 & -> & R & F).
    exists (b :: pre), batch, post, log1. split; [reflexivity|].
    split; [|exact F]. simpl. unfold append_call. rewrite E. exact R.
Qed.

Lemma submit_blocks_batches blocks log :
  submit_blocks blocks log = submit_batches (chunks batch_size blocks) log.
Proof. destruct blocks; reflexivity. Qed.
End EmitterFacts.

(** C2 fails on the code where it makes the re-raise depend on the blocks:
    when the first call fails and every later call succeeds, the two blocks
    of the batch are accepted one by one and the failure is raised all the
    same. *)
Lemma reraised_though_every_block_succeeds :
  submit_blocks (H := Demo.notion_failing_at 0)
                [DividerBlock; DividerBlock] []
  = (Reraised (py "rate_limited"),
     [ ([DividerBlock; DividerBlock], Some (py "rate_limited"));
       ([DividerBlock], None); ([DividerBlock], None) ]).
Proof. vm_compute. reflexivity. Qed.

(** C2, as the code has it. The blocks are cut into consecutive batches of
    at most 100 that keep the order (250 blocks give 100, 100 and 50); the
    batches are submitted in order; when the submission of a batch fails,
    every block of that batch is submitted on its own, in the original order,
    no later batch is submitted, and the failure of the batch is raised
    again after those attempts whatever their results; the emitter raises
    exactly when the submission of some batch fails. *)
Theorem batches_and_retry `{NotionApi} (blocks : list Block) :
  concat (chunks batch_size blocks) = blocks
  /\ Forall (fun b => 0 < length b <= 100) (chunks batch_size blocks)
  /\ (length blocks = 250 ->
      map length (chunks batch_size blocks) = [100; 100; 50])
  /\ (forall pre batch post log log1 e,
        chunks batch_size blocks = pre ++ batch :: post ->
        submit_batches pre log = (Returned, log1) ->
        children_append log1 batch = Some e ->
        exists log2,
          submit_blocks blocks log = (Reraised e, log2)
          /\ map fst log2
             = map fst log ++ pre ++ [batch] ++ map (fun b => [b]) batch)
  /\ (forall log e log2,
        submit_blocks blocks log = (Reraised e, log2) ->
        exists pre batch post log1,
          chunks batch_size blocks = pre ++ batch :: post
          /\ submit_batches pre log = (Returned, log1)
          /\ children_append log1 batch = Some e)
  /\ (forall log log2,
        submit_blocks blocks log = (Returned, log2) ->
        log2 = log ++ map (fun b => (b, None)) (chunks batch_size blocks)).
Proof.
  split; [apply chunks_concat; unfold batch_size; lia|].
  split.
  { pose proof (chunks_bounded batch_size blocks) as Hb.
    pose proof (chunks_nonempty batch_size blocks
                  ltac:(unfold batch_size; lia)) as Hn.
    rewrite Forall_forall in *. intros x Hx. specialize (Hb x Hx).
    specialize (Hn x Hx). unfold batch_size in Hb.
    destruct x; [congruence|simpl in *; lia]. }
  split.
  { intros Hl. rewrite chunks_lengths, Hl. vm_compute. reflexivity. }
  split.
  { intros pre batch post log log1 e Hc Hpre He.
    eexists. rewrite submit_blocks_batches, Hc. split.
    - apply submit_batches_fails; eassumption.
    - rewrite retry_singly_children, map_app. simpl.
      apply submit_batches_returns in Hpre. subst log1.
      rewrite map_app, map_map. simpl. rewrite map_id.
      rewrite <- !app_assoc. reflexivity. }
  split.
  { intros log e log2. rewrite submit_blocks_batches.
    apply submit_batches_reraised. }
  intros log log2. rewrite submit_blocks_batches.
  apply submit_batches_returns.
Qed.

(** C2 as amended, at a concrete input: 250 blocks, the second call fails. *)
Lemma batches_and_retry_witness :
  exists log2,
    submit_blocks (H := Demo.notion_failing_at 1)
                  (repeat DividerBlock 250) []
    = (Reraised (py "rate_limited"), log2)
    /\ map fst log2
       = [] ++ [repeat DividerBlock 100] ++ [repeat DividerBlock 100]
         ++ map (fun b => [b]) (repeat DividerBlock 100).
Proof.
  apply (proj1 (proj2 (proj2 (proj2
           (batches_and_retry (H := Demo.notion_failing_at 1)
                              (repeat DividerBlock 250)))))
           [repeat DividerBlock 100] (repeat DividerBlock 100)
           [repeat DividerBlock 50] []
           [(repeat DividerBlock 100, None)] (py "rate_limited"));
    vm_compute; reflexivity.
Defined.

(** Proves a closed equation by evaluating both sides. *)
Ltac by_evaluation :=
  match goal with |- _ = ?r => vm_cast_no_check (eq_refl r) end.

(** ** The uploader *)

Section UploaderFacts.
Context `{FileSystem} `{Hashlib} `{Provider}.

Lemma path_is_file_exists p :
  path_is_file p = Ok true -> path_exists p = Ok true.
Proof.
  unfold path_is_file, path_exists. destruct (node p); auto; discriminate.
Qed.

(** A hit: the cached URL is returned and nothing changes. *)
Lemma upload_hit p h u url :
  path_is_file p = Ok true -> cache u !! _get_cache_key p = Some url ->
  upload p h u = Ok (Some url, u).
Proof.
  intros Hf Hc. unfold upload.
  rewrite (path_is_file_exists _ Hf). simpl. rewrite Hf. simpl.
  rewrite Hc. reflexivity.
Qed.

(** A successful call leaves the URL in the cache under the key of the
    path, and calls the provider at most once. *)
Lemma upload_success p h u v u1 :
  upload p h u = Ok (Some v, u1) -> truthy v = true ->
  path_is_file p = Ok true
  /\ cache u1 !! _get_cache_key p = Some v
  /\ (u1 = u \/ calls u1 = calls u ++ [(p, h)]).
Proof.
  unfold upload.
  destruct (path_exists p) as [[|]|] eqn:He; simpl; try discriminate.
  destruct (path_is_file p) as [[|]|] eqn:Hf; simpl; try discriminate.
  destruct (cache u !! _get_cache_key p) as [url|] eqn:Hc.
  - intros [= -> <-] _. auto.
  - destruct (provider_upload (calls u) p h) as [w|]; [|discriminate].
    destruct (truthy w) eqn:Hw.
    + intros [= -> <-] _. simpl. rewrite lookup_insert_eq. auto.
    + intros [= -> <-] Hv. congruence.
Qed.

Lemma cache_key_injective p1 p2 b :
  read_bytes p1 = Some b -> read_bytes p2 = Some b ->
  _get_cache_key p1 = _get_cache_key p2 -> p1 = p2.
Proof.
  unfold _get_cache_key. intros -> ->. apply app_inv_tail.
Qed.

(** On a miss the call returns, and the provider is called, whatever it
    answers. *)
Lemma upload_miss p h u :
  path_is_file p = Ok true -> cache u !! _get_cache_key p = None ->
  exists u1,
    upload p h u = Ok (provider_upload (calls u) p h, u1)
    /\ calls u1 = calls u ++ [(p, h)]
    /\ forall k, k <> _get_cache_key p -> cache u1 !! k = cache u !! k.
Proof.
  intros Hf Hc. unfold upload.
  rewrite (path_is_file_exists _ Hf). simpl. rewrite Hf. simpl. rewrite Hc.
  destruct (provider_upload (calls u) p h) as [w|]; [destruct (truthy w)|];
    eexists; (split; [reflexivity|]); simpl; split; auto.
  intros k Hk. rewrite lookup_insert_ne by congruence. reflexivity.
Qed.

(** A call that raises is one whose tests on the path raise. *)
Lemma upload_raises p h u e :
  upload p h u = Raise e -> exists errno, node p = Failing errno.
Proof.
  unfold upload, path_exists, path_is_file.
  destruct (node p) eqn:N; simpl; try discriminate; eauto.
  - destruct (cache u !! _get_cache_key p); [discriminate|].
    destruct (provider_upload _ _ _) as [w|]; [destruct (truthy w)|];
      discriminate.
Qed.
End UploaderFacts.

(** C1 fails on the code: two distinct files with the same (empty) content
    are both sent to the provider, and the two calls return different URLs.
    The cache key is the path joined to the digest of the content. *)
Lemma identical_files_uploaded_twice :
  let u1 :=
    {| cache :=
         {[ py "/v/a.png_d41d8cd98f00b204e9800998ecf8427e"
            := py "https://cdn/root/a.png" ]};
       stats := {| images := 1; pdfs := 0; other := 0; failed := 0;
                   skipped_dirs := 0 |};
       calls := [(py "/v/a.png", py "root")] |} in
  let u2 :=
    {| cache :=
         <[ py "/v/b.png_d41d8cd98f00b204e9800998ecf8427e"
            := py "https://cdn/root/b.png" ]> (cache u1);
       stats := {| images := 2; pdfs := 0; other := 0; failed := 0;
                   skipped_dirs := 0 |};
       calls := [(py "/v/a.png", py "root"); (py "/v/b.png", py "root")] |} in
  node (FileSystem := Demo.fs) (py "/v/a.png") = RegularFile (Some [])
  /\ node (FileSystem := Demo.fs) (py "/v/b.png") = RegularFile (Some [])
  /\ upload (H := Demo.fs) (H0 := Demo.hashlib) (H1 := Demo.provider_ok)
            (py "/v/a.png") (py "root") new_uploader
     = Ok (Some (py "https://cdn/root/a.png"), u1)
  /\ upload (H := Demo.fs) (H0 := Demo.hashlib) (H1 := Demo.provider_ok)
            (py "/v/b.png") (py "root") u1
     = Ok (Some (py "https://cdn/root/b.png"), u2).
Proof.
  intros u1 u2.
  refine (conj _ (conj _ (conj _ _))); by_evaluation.
Qed.

(** C1, as the code has it. The cache is keyed by the path together with
    the content.  Two calls for the same path: when the first returns a URL,
    the second returns the same URL from the cache, changes nothing and does
    not call the provider, so that on a fresh uploader the provider is
    called exactly once across the two calls.  Two calls on a fresh uploader
    for distinct paths of regular files with the same bytes: both calls
    return and the provider is called for each. *)
Theorem upload_cached_per_path `{FileSystem} `{Hashlib} `{Provider}
  (h1 h2 : str) :
  (forall p u v u1,
      upload p h1 u = Ok (Some v, u1) -> truthy v = true ->
      upload p h2 u1 = Ok (Some v, u1)
      /\ (calls u1 = calls u \/ calls u1 = calls u ++ [(p, h1)]))
  /\ (forall p v u1,
        upload p h1 new_uploader = Ok (Some v, u1) -> truthy v = true ->
        upload p h2 u1 = Ok (Some v, u1) /\ calls u1 = [(p, h1)])
  /\ (forall p1 p2 b,
        p1 <> p2 ->
        node p1 = RegularFile (Some b) -> node p2 = RegularFile (Some b) ->
        exists u1 u2,
          upload p1 h1 new_uploader
          = Ok (provider_upload [] p1 h1, u1)
          /\ upload p2 h2 u1 = Ok (provider_upload [(p1, h1)] p2 h2, u2)
          /\ calls u2 = [(p1, h1); (p2, h2)]).
Proof.
  split; [|split].
  - intros p u v u1 Hu Hv.
    destruct (upload_success _ _ _ _ _ Hu Hv) as (Hf & Hc & Hcalls).
    split; [apply upload_hit; assumption|].
    destruct Hcalls as [-> | ->]; auto.
  - intros p v u1 Hu Hv.
    destruct (upload_success _ _ _ _ _ Hu Hv) as (Hf & Hc & Hcalls).
    split; [apply upload_hit; assumption|].
    destruct Hcalls as [-> | ->]; [|reflexivity].
    simpl in Hc. rewrite lookup_empty in Hc. discriminate.
  - intros p1 p2 b Hne N1 N2.
    assert (F1 : path_is_file p1 = Ok true)
      by (unfold path_is_file; rewrite N1; reflexivity).
    assert (F2 : path_is_file p2 = Ok true)
      by (unfold path_is_file; rewrite N2; reflexivity).
    assert (R1 : read_bytes p1 = Some b)
      by (unfold read_bytes; rewrite N1; reflexivity).
    assert (R2 : read_bytes p2 = Some b)
      by (unfold read_bytes; rewrite N2; reflexivity).
    destruct (upload_miss p1 h1 new_uploader F1 (lookup_empty _))
      as (u1 & U1 & C1 & K1).
    assert (M2 : cache u1 !! _get_cache_key p2 = None).
    { rewrite K1; [apply lookup_empty|].
      intros E. apply Hne. symmetry. eapply cache_key_injective; eauto. }
    destruct (upload_miss p2 h2 u1 F2 M2) as (u2 & U2 & C2 & _).
    exists u1, u2. simpl in C1. rewrite C1 in U2, C2.
    split; [exact U1|]. split; [exact U2|]. exact C2.
Qed.

(** C1 as amended, at a concrete input: the same file twice. *)
Lemma upload_cached_per_path_witness :
  let u1 :=
    {| cache :=
         {[ py "/v/a.png_d41d8cd98f00b204e9800998ecf8427e"
            := py "https://cdn/root/a.png" ]};
       stats := {| images := 1; pdfs := 0; other := 0; failed := 0;
                   skipped_dirs := 0 |};
       calls := [(py "/v/a.png", py "root")] |} in
  upload (H := Demo.fs) (H0 := Demo.hashlib) (H1 := Demo.provider_ok)
         (py "/v/a.png") (py "root") new_uploader
  = Ok (Some (py "https://cdn/root/a.png"), u1)
  /\ upload (H := Demo.fs) (H0 := Demo.hashlib) (H1 := Demo.provider_ok)
            (py "/v/a.png") (py "hint2") u1
     = Ok (Some (py "https://cdn/root/a.png"), u1)
  /\ calls u1 = [(py "/v/a.png", py "root")].
Proof.
  intros u1.
  assert (U : upload (H := Demo.fs) (H0 := Demo.hashlib)
                     (H1 := Demo.provider_ok)
                     (py "/v/a.png") (py "root") new_uploader
              = Ok (Some (py "https://cdn/root/a.png"), u1))
    by (vm_compute; reflexivity).
  split; [exact U|].
  apply (proj1 (proj2 (upload_cached_per_path
                         (H := Demo.fs) (H0 := Demo.hashlib)
                         (H1 := Demo.provider_ok) (py "root") (py "hint2")))
           (py "/v/a.png") (py "https://cdn/root/a.png") u1 U).
  reflexivity.
Defined.

(** ** The path resolver *)

Lemma drop_spaces_span s : drop_spaces s = lstrip_by isspace s.
Proof.
  unfold lstrip_by. induction s as [|c s IH]; simpl; [reflexivity|].
  destruct (isspace c); [|reflexivity].
  rewrite IH. destruct (span isspace s). reflexivity.
Qed.

Lemma strip_trimmed s : strip s = trimmed s.
Proof.
  unfold strip, trimmed, rstrip_by. rewrite !drop_spaces_span. reflexivity.
Qed.

Section ResolverFacts.
Context `{UrlLib} `{FileSystem}.

(** The test of one candidate, by what is found at its path. *)
Lemma return_if_file_node p :
  return_if_file p
  = match node p with
    | Failing errno => Raise (OSError errno)
    | RegularFile _ =>
        match path_resolve p with
        | Ok a => Ok (Some a)
        | Raise e => Raise e
        end
    | Absent | Directory => Ok None
    end.
Proof.
  unfold return_if_file, exists_and_is_file, path_exists, path_is_file.
  destruct (node p); simpl; try reflexivity.
  all: destruct (path_resolve p); reflexivity.
Qed.

Lemma try_folders_first md_dir file_name folders :
  try_folders md_dir file_name folders
  = first_regular_file
      (map (fun folder => path_join (path_join md_dir folder) file_name)
           folders).
Proof.
  induction folders as [|folder folders IH]; simpl; [reflexivity|].
  rewrite return_if_file_node.
  destruct (node _); simpl; try exact IH; try reflexivity.
  all: destruct (path_resolve _); reflexivity.
Qed.

Lemma try_items_first items : try_items items = first_found items.
Proof.
  induction items as [|item items IH]; simpl; [reflexivity|].
  unfold path_is_file. destruct (node item); try exact IH; reflexivity.
Qed.

Lemma first_regular_file_cons p paths :
  first_regular_file (p :: paths)
  = (found ← return_if_file p;
     match found with
     | Some a => Ok (Some a)
     | None => first_regular_file paths
     end).
Proof.
  simpl. rewrite return_if_file_node.
  destruct (node p); simpl; try reflexivity.
  all: destruct (path_resolve p); reflexivity.
Qed.

(** The resolver is the search over the candidates followed, in
    single-folder mode, by the recursive search. *)
Lemma resolve_relative_path_strategies reference source_doc_path root_dir :
  resolve_relative_path reference source_doc_path root_dir
  = resolve_by_strategies reference source_doc_path root_dir.
Proof.
  unfold resolve_relative_path, resolve_by_strategies, decode_url_path.
  destruct (is_url reference); [reflexivity|].
  rewrite strip_trimmed.
  destruct (trimmed (unquote reference)) as [|c r] eqn:Er; [reflexivity|].
  cbn [truthy negb].
  destruct (path_resolve root_dir) as [root|e]; [|reflexivity].
  destruct (path_resolve (path_parent source_doc_path)) as [doc|e];
    [|reflexivity].
  cbn [mbind result_bind].
  unfold candidates. rewrite first_regular_file_cons.
  destruct (return_if_file (path_join (path_parent source_doc_path) (c :: r)))
    as [[a|]|e]; cbn [mbind result_bind]; try reflexivity.
  destruct (bool_decide (doc = root)).
  - rewrite try_folders_first, try_items_first.
    change attachment_folders with conventional_folders.
    destruct (first_regular_file _) as [[?|]|?]; reflexivity.
  - rewrite first_regular_file_cons.
    destruct (return_if_file _) as [[?|]|?]; reflexivity.
Qed.
End ResolverFacts.

(** C6, where the code departs from it.  The tests [exists()] and
    [is_file()] of the candidates stand outside any [try]: when the system
    call fails at the first candidate for a reason other than a missing
    path, for instance because a name is too long, the resolver raises
    [OSError] instead of going on to the next strategy or returning
    Unresolved.  The recursive search of the same function is inside
    [try: .. except: pass]: there the same failure ends the search without
    a result. *)
Theorem resolver_raises_on_failing_candidate `{UrlLib} `{FileSystem}
  (reference markdown_file_path vault_dir root doc : str) (errno : Z) :
  is_url reference = false ->
  strip (unquote reference) <> [] ->
  path_resolve vault_dir = Ok root ->
  path_resolve (path_parent markdown_file_path) = Ok doc ->
  node (path_join (path_parent markdown_file_path)
                  (strip (unquote reference))) = Failing errno ->
  resolve_relative_path reference markdown_file_path vault_dir
  = Raise (OSError errno)
  /\ try_items [path_join (path_parent markdown_file_path)
                          (strip (unquote reference))] = None.
Proof.
  intros Hu Hne Hv Hd Hn. split.
  - unfold resolve_relative_path, decode_url_path. rewrite Hu.
    apply truthy_true in Hne. rewrite Hne. cbn [negb].
    rewrite Hv, Hd. cbn [mbind result_bind].
    rewrite (return_if_file_node
               (path_join (path_parent markdown_file_path)
                          (strip (unquote reference)))), Hn.
    reflexivity.
  - simpl. unfold path_is_file. rewrite Hn. reflexivity.
Qed.

(** C6 at the failing input: a reference of 256 letters in the note
    [/v/note.md] of the folder [/v]. *)
Lemma resolver_raises_on_failing_candidate_witness :
  resolve_relative_path (H := Demo.urllib) (H0 := Demo.fs)
                        (repeat "a"%char 256) (py "/v/note.md") (py "/v")
  = Raise (OSError 36)
  /\ try_items (H0 := Demo.fs)
               [path_join (FileSystem := Demo.fs)
                  (path_parent (FileSystem := Demo.fs) (py "/v/note.md"))
                  (strip (unquote (UrlLib := Demo.urllib)
                                  (repeat "a"%char 256)))]
     = None.
Proof.
  apply (resolver_raises_on_failing_candidate
           (H := Demo.urllib) (H0 := Demo.fs)
           (repeat "a"%char 256) (py "/v/note.md") (py "/v")
           (py "/v") (py "/v") 36);
    vm_compute; try reflexivity; discriminate.
Defined.

(** The resolver tries its strategies in a fixed order and the first
    success wins ([resolve_by_strategies]): a reference that is an absolute
    URL is returned unchanged; otherwise the reference is URL-decoded and
    trimmed, an empty result being Unresolved; the root and the directory
    of the document are made absolute; then the candidates are tested in
    the order of [candidates], only a regular file being accepted: the
    reference relative to the directory of the document; then, in
    single-folder mode, the basename in each of the ten attachment
    subfolders, followed by the recursive search for the basename under the
    directory of the document; in vault mode instead the reference relative
    to the root.  An error of the file system before the recursive search
    is the result; inside the recursive search it ends the search without a
    result.  In particular, in single-folder mode a reference, here with
    white space around it, whose literal relative path does not exist and
    whose basename is a file of the subfolder [attachments] resolves to
    that file. *)
Theorem resolve_tries_strategies_in_order `{UrlLib} `{FileSystem}
  (reference source_doc_path root_dir : str) :
  resolve_relative_path reference source_doc_path root_dir
  = resolve_by_strategies reference source_doc_path root_dir
  /\ (forall before r after root content found,
        is_url reference = false ->
        unquote reference = before ++ r ++ after ->
        Forall (fun c => isspace c = true) before ->
        Forall (fun c => isspace c = true) after ->
        (exists c, head r = Some c /\ isspace c = false) ->
        (exists c, last r = Some c /\ isspace c = false) ->
        path_resolve root_dir = Ok root ->
        path_resolve (path_parent source_doc_path) = Ok root ->
        node (path_join (path_parent source_doc_path) r) = Absent ->
        node (path_join (path_join (path_parent source_doc_path)
                                   (py "attachments"))
                        (path_name r)) = RegularFile content ->
        path_resolve (path_join (path_join (path_parent source_doc_path)
                                           (py "attachments"))
                                (path_name r)) = Ok found ->
        resolve_relative_path reference source_doc_path root_dir
        = Ok (Some found)).
Proof.
  split; [apply resolve_relative_path_strategies|].
  intros before r after root content found Hu Hq Hb Ha Hh Hl Hroot Hdoc
         Hrel Hatt Hres.
  assert (Ht : trimmed (unquote reference) = r).
  { rewrite Hq. unfold trimmed.
    assert (D1 : forall s t,
               Forall (fun c => isspace c = true) s ->
               drop_spaces (s ++ t) = drop_spaces t).
    { intros s t Hs. induction Hs as [|c s Hc Hs IH]; [reflexivity|].
      simpl. rewrite Hc. exact IH. }
    assert (D2 : forall t c, head t = Some c -> isspace c = false ->
                             drop_spaces t = t).
    { intros [|x t] c; simpl; [discriminate|].
      intros [= ->] ->. reflexivity. }
    destruct Hh as (c1 & Hc1 & Hs1). destruct Hl as (c2 & Hc2 & Hs2).
    rewrite D1 by exact Hb.
    assert (Hr : r <> []) by (intros ->; discriminate).
    rewrite (D2 (r ++ after) c1);
      [|destruct r; [congruence|exact Hc1]|exact Hs1].
    rewrite rev_app_distr.
    rewrite D1 by (apply Forall_rev; exact Ha).
    rewrite (D2 (rev r) c2); [apply rev_involutive| |exact Hs2].
    rewrite <- Hc2. clear. induction r as [|x r IH] using rev_ind;
      [reflexivity|].
    rewrite rev_app_distr, last_snoc. reflexivity. }
  rewrite resolve_relative_path_strategies. unfold resolve_by_strategies.
  rewrite Hu, Ht.
  destruct r as [|c r]; [destruct Hh as (? & Hh & _); discriminate|].
  rewrite Hroot, Hdoc. rewrite bool_decide_eq_true_2 by reflexivity.
  unfold candidates, conventional_folders. cbn [map first_regular_file].
  rewrite Hrel, Hatt, Hres. reflexivity.
Qed.

(** At a concrete input: [ sub/pic%2Epng ], with white space around it and
    an escaped full stop, from [/v/note.md], root [/v]. *)
Lemma resolve_tries_strategies_in_order_witness :
  resolve_relative_path (H := Demo.urllib) (H0 := Demo.fs)
                        (py " sub/pic%2Epng  ") (py "/v/note.md") (py "/v")
  = Ok (Some (py "/v/attachments/pic.png")).
Proof.
  apply (proj2 (resolve_tries_strategies_in_order
                  (H := Demo.urllib) (H0 := Demo.fs)
                  (py " sub/pic%2Epng  ") (py "/v/note.md") (py "/v"))
           (py " ") (py "sub/pic.png") (py "  ") (py "/v") (Some [])
           (py "/v/attachments/pic.png")).
  - by_evaluation.
  - by_evaluation.
  - repeat constructor.
  - repeat constructor.
  - exists "s"%char. split; reflexivity.
  - exists "g"%char. split; reflexivity.
  - reflexivity.
  - reflexivity.
  - by_evaluation.
  - by_evaluation.
  - reflexivity.
Defined.

(** ** Texts in which a pattern does not match *)

Section NoMatch.
Context {G : Type}.
Variable m_at : option ascii -> str -> option (str * G * str).
Hypothesis m_consumes : consuming m_at.

Lemma no_match_in_app prev a b rest :
  no_match_in m_at prev a (b ++ rest) ->
  no_match_in m_at (char_before prev a) b rest ->
  no_match_in m_at prev (a ++ b) rest.
Proof.
  revert prev. induction a as [|c a IH]; intros prev Ha Hb.
  - exact Hb.
  - destruct Ha as [Hc Ha]. split.
    + simpl. rewrite <- app_assoc. exact Hc.
    + apply IH; [exact Ha|]. rewrite char_before_cons in Hb. exact Hb.
Qed.

Lemma finditer_none fuel prev s :
  no_match_in m_at prev s [] -> length s < fuel ->
  finditer m_at fuel prev s = ([], s).
Proof.
  intros Hn Hf. rewrite <- (app_nil_r s) at 1.
  rewrite finditer_gap by (auto; rewrite app_nil_r; lia).
  destruct (fuel - length s) as [|k] eqn:E; [lia|].
  cbn [finditer]. rewrite m_at_nil by exact m_consumes.
  simpl. rewrite app_nil_r. reflexivity.
Qed.

(** One match between two texts in which the pattern does not match. *)
Lemma re_finditer_one pre g0 g post :
  no_match_in m_at None pre (g0 ++ post) ->
  m_at (char_before None pre) (g0 ++ post) = Some (g0, g, post) ->
  no_match_in m_at (char_before (char_before None pre) g0) post [] ->
  re_finditer m_at (pre ++ g0 ++ post) = ([(pre, g0, g)], post).
Proof.
  intros Hpre Hm Hpost.
  rewrite (re_finditer_first m_at m_consumes pre g0 g post) by assumption.
  rewrite finditer_none by (auto; lia). reflexivity.
Qed.

Lemma re_sub_none repl s :
  no_match_in m_at None s [] -> re_sub m_at repl s = s.
Proof.
  intros Hn. unfold re_sub. rewrite re_finditer_none by assumption.
  reflexivity.
Qed.

Lemma re_sub_one repl pre g0 g post :
  no_match_in m_at None pre (g0 ++ post) ->
  m_at (char_before None pre) (g0 ++ post) = Some (g0, g, post) ->
  no_match_in m_at (char_before (char_before None pre) g0) post [] ->
  re_sub m_at repl (pre ++ g0 ++ post) = pre ++ repl g0 g ++ post.
Proof.
  intros Hpre Hm Hpost. unfold re_sub.
  rewrite (re_finditer_one pre g0 g post) by assumption. reflexivity.
Qed.

(** Every match of a scan is a match of the pattern, and the text is the
    matches and the gaps in order. *)
Lemma re_finditer_sound s :
  exists ms tail,
    re_finditer m_at s = (ms, tail) /\ join ms tail = s
    /\ Forall (fun '(_, g0, g) =>
                 exists prev' rest',
                   m_at prev' (g0 ++ rest') = Some (g0, g, rest')) ms.
Proof.
  destruct (re_finditer m_at s) as [ms tail] eqn:F. exists ms, tail.
  split; [reflexivity|]. split.
  - unfold re_finditer in F. apply finditer_join in F; auto.
  - pose proof (finditer_matches m_at m_consumes (S (length s)) None s) as M.
    unfold re_finditer in F. rewrite F in M. exact M.
Qed.
End NoMatch.

(** ** The link normalizer *)

Lemma wiki_no_match prev pre rest :
  Forall (fun c => c <> "["%char) pre ->
  no_match_in match_wiki prev pre rest.
Proof.
  intros Hp. revert prev. induction Hp as [|c pre Hc Hp IH]; intros prev.
  - exact I.
  - split; [|apply IH].
    unfold match_wiki, m_enclosed. simpl.
    apply Ascii.eqb_neq in Hc. rewrite Hc. reflexivity.
Qed.

Lemma embed_no_match prev pre rest :
  Forall (fun c => c <> "["%char) pre ->
  (last pre = Some "!"%char -> head rest <> Some "["%char) ->
  no_match_in match_embed prev pre rest.
Proof.
  intros Hp. revert prev. induction Hp as [|c pre Hc Hp IH]; intros prev Hl.
  - exact I.
  - split.
    + unfold match_embed, m_enclosed. simpl.
      destruct (Ascii.eqb c "!") eqn:Ec; [|reflexivity].
      apply Ascii.eqb_eq in Ec. subst c.
      destruct Hp as [|d pre Hd Hp]; simpl.
      * destruct rest as [|r rest]; [reflexivity|].
        destruct (Ascii.eqb r "[") eqn:Er; [|reflexivity].
        apply Ascii.eqb_eq in Er. subst r.
        exfalso. apply Hl; reflexivity.
      * apply Ascii.eqb_neq in Hd. rewrite Hd. reflexivity.
    + apply IH. intros Hl'. apply Hl.
      destruct pre; [discriminate|exact Hl'].
Qed.

(** The passes leave a text without an opening double bracket alone. *)
Lemma no_occurrence_no_match open p close prev pre rest :
  (forall a b, pre ++ rest <> a ++ open ++ b) ->
  no_match_in (fun _ => m_enclosed open p close) prev pre rest.
Proof.
  revert prev. induction pre as [|c pre IH]; intros prev Hn; [exact I|].
  split.
  - destruct (m_enclosed open p close (c :: pre ++ rest))
      as [[[g0 g] r]|] eqn:E; [|reflexivity].
    apply m_enclosed_spec in E as (-> & _ & _ & E).
    exfalso. apply (Hn [] (g ++ close ++ r)). simpl.
    simpl in E. rewrite E. rewrite <- !app_assoc. reflexivity.
  - apply IH. intros a b E. apply (Hn (c :: a) b). simpl. f_equal. exact E.
Qed.

Lemma split_pipe_with_pipe page display :
  Forall (fun c => c <> "|"%char) page ->
  split_pipe (page ++ py "|" ++ display) = Some (page, display).
Proof.
  intros Hp. unfold split_pipe.
  rewrite (span_app (char_not "|") page (py "|" ++ display)).
  - reflexivity.
  - eapply Forall_impl; [exact Hp|]. intros c Hc. apply char_not_true. exact Hc.
  - reflexivity.
Qed.

Lemma split_pipe_without_pipe page :
  Forall (fun c => c <> "|"%char) page -> split_pipe page = None.
Proof.
  intros Hp. unfold split_pipe. rewrite <- (app_nil_r page).
  rewrite (span_app (char_not "|") page []).
  - reflexivity.
  - eapply Forall_impl; [exact Hp|]. intros c Hc. apply char_not_true. exact Hc.
  - exact I.
Qed.

Lemma not_bracket_char_not (s : str) :
  Forall (fun c => c <> "]"%char) s ->
  Forall (fun c => char_not "]" c = true) s.
Proof.
  intros Hs. eapply Forall_impl; [exact Hs|].
  intros c Hc. apply char_not_true. exact Hc.
Qed.

(** One embed between two texts without an opening bracket. *)
Lemma convert_embeds_one pre x post :
  Forall (fun c => c <> "["%char) pre ->
  x <> [] -> Forall (fun c => c <> "]"%char) x ->
  Forall (fun c => c <> "["%char) post ->
  convert_embeds (pre ++ (py "![[" ++ x ++ py "]]") ++ post)
  = pre ++ embed_to_image x ++ post.
Proof.
  intros Hpre Hx Hx' Hpost. unfold convert_embeds.
  apply (re_sub_one match_embed match_embed_consuming).
  - apply embed_no_match; [exact Hpre|]. intros _. discriminate.
  - rewrite <- !app_assoc.
    apply (m_enclosed_app (py "![[") (char_not "]") (py "]]"));
      [exact Hx|apply not_bracket_char_not; exact Hx'|reflexivity].
  - apply embed_no_match; [exact Hpost|]. intros _. discriminate.
Qed.

(** One wiki-link between two texts without an opening bracket. *)
Lemma convert_wiki_links_one page_map pre lc post :
  Forall (fun c => c <> "["%char) pre ->
  lc <> [] -> Forall (fun c => c <> "]"%char) lc ->
  Forall (fun c => c <> "["%char) post ->
  convert_wiki_links page_map (pre ++ (py "[[" ++ lc ++ py "]]") ++ post)
  = pre ++ replace_wiki_link page_map lc ++ post.
Proof.
  intros Hpre Hx Hx' Hpost. unfold convert_wiki_links.
  apply (re_sub_one match_wiki match_wiki_consuming
                    (fun _ lc => replace_wiki_link page_map lc)).
  - apply wiki_no_match. exact Hpre.
  - rewrite <- !app_assoc.
    apply (m_enclosed_app (py "[[") (char_not "]") (py "]]"));
      [exact Hx|apply not_bracket_char_not; exact Hx'|reflexivity].
  - apply wiki_no_match. exact Hpost.
Qed.

(** The embed pass leaves a wiki-link alone. *)
Lemma convert_embeds_wiki pre lc post :
  Forall (fun c => c <> "["%char) pre -> last pre <> Some "!"%char ->
  Forall (fun c => c <> "["%char) lc ->
  Forall (fun c => c <> "["%char) post ->
  convert_embeds (pre ++ (py "[[" ++ lc ++ py "]]") ++ post)
  = pre ++ (py "[[" ++ lc ++ py "]]") ++ post.
Proof.
  intros Hpre Hlast Hlc Hpost. unfold convert_embeds.
  apply (re_sub_none match_embed match_embed_consuming).
  apply no_match_in_app.
  { apply embed_no_match; [exact Hpre|]. intros E. contradiction. }
  apply no_match_in_app.
  { apply no_match_in_app; [split; [reflexivity|split; [reflexivity|exact I]]|].
    apply no_match_in_app.
    - apply embed_no_match; [exact Hlc|]. intros _. discriminate.
    - split; [reflexivity|split; [reflexivity|exact I]]. }
  apply embed_no_match; [exact Hpost|]. intros _. discriminate.
Qed.

(** The wiki pass leaves the image syntax of an embed alone. *)
Lemma convert_wiki_links_image page_map pre x post :
  Forall (fun c => c <> "["%char) pre ->
  Forall (fun c => c <> "["%char) x ->
  Forall (fun c => c <> "["%char) post ->
  convert_wiki_links page_map (pre ++ embed_to_image x ++ post)
  = pre ++ embed_to_image x ++ post.
Proof.
  intros Hpre Hx Hpost. unfold convert_wiki_links.
  apply (re_sub_none match_wiki match_wiki_consuming).
  apply no_match_in_app; [apply wiki_no_match; exact Hpre|].
  apply no_match_in_app; [|apply wiki_no_match; exact Hpost].
  unfold embed_to_image.
  apply no_match_in_app;
    [repeat (split; [reflexivity|]); exact I|].
  apply no_match_in_app; [apply wiki_no_match; exact Hx|].
  repeat (split; [reflexivity|]). exact I.
Qed.

(** Closes [without c s] for a literal [s]. *)
Ltac without_literal :=
  unfold without, py; cbn [list_ascii_of_string];
  repeat (constructor; [discriminate|]); constructor.

(** *** Scans of a pattern that does not look behind *)

Section ScanFacts.
Context {G : Type}.
Variable m_at : option ascii -> str -> option (str * G * str).
Hypothesis m_consumes : consuming m_at.
Hypothesis m_prev : forall p q s, m_at p s = m_at q s.

Lemma finditer_prev fuel p q s :
  finditer m_at fuel p s = finditer m_at fuel q s.
Proof.
  revert p q s. induction fuel as [|fuel IH]; intros p q s; [reflexivity|].
  simpl. rewrite (m_prev p q).
  destruct (m_at q s) as [[[g0 g] rest]|].
  - rewrite (IH (char_before p g0) (char_before q g0)). reflexivity.
  - reflexivity.
Qed.

(** A scan goes over a text in which the pattern does not match. *)
Lemma re_finditer_gap pre rest :
  no_match_in m_at None pre rest ->
  re_finditer m_at (pre ++ rest) = prefix_gap pre (re_finditer m_at rest).
Proof.
  intros Hn. unfold re_finditer.
  rewrite finditer_gap by (auto; lia).
  replace (S (length (pre ++ rest)) - length pre) with (S (length rest))
    by (rewrite length_app; lia).
  rewrite (finditer_prev _ (char_before None pre) None). reflexivity.
Qed.

(** A scan takes a match at the front of the text. *)
Lemma re_finditer_match g0 g rest :
  m_at None (g0 ++ rest) = Some (g0, g, rest) ->
  re_finditer m_at (g0 ++ rest)
  = let '(ms, tail) := re_finditer m_at rest in (([], g0, g) :: ms, tail).
Proof.
  intros Hm. unfold re_finditer.
  pose proof (m_consumes _ _ _ _ _ Hm) as [_ Hne].
  cbn [finditer]. rewrite Hm.
  rewrite (finditer_fuel m_at m_consumes (length (g0 ++ rest))
                         (S (length rest)))
    by (rewrite ?length_app; destruct g0; [congruence|simpl; lia]).
  rewrite (finditer_prev _ (char_before None g0) None). reflexivity.
Qed.

Lemma re_sub_gap repl pre rest :
  no_match_in m_at None pre rest ->
  re_sub m_at repl (pre ++ rest) = pre ++ re_sub m_at repl rest.
Proof.
  intros Hn. unfold re_sub. rewrite re_finditer_gap by exact Hn.
  destruct (re_finditer m_at rest) as [[|[[gap g0] g] ms] tail]; simpl;
    [reflexivity|].
  rewrite <- app_assoc. reflexivity.
Qed.

Lemma re_sub_match repl g0 g rest :
  m_at None (g0 ++ rest) = Some (g0, g, rest) ->
  re_sub m_at repl (g0 ++ rest) = repl g0 g ++ re_sub m_at repl rest.
Proof.
  intros Hm. unfold re_sub. rewrite (re_finditer_match g0 g rest Hm).
  destruct (re_finditer m_at rest) as [ms tail]. reflexivity.
Qed.
End ScanFacts.

(** *** The occurrences of a syntax and the scan of its pattern *)

Section OccurrenceFacts.
Context {G : Type}.
Variable m_at : option ascii -> str -> option (str * G * str).
Variable syntax : str -> str -> G -> str -> Prop.

(** The pattern matches at a position exactly when the syntax starts
    there. *)
Hypothesis m_syntax :
  forall prev s g0 g rest,
    m_at prev s = Some (g0, g, rest) <-> syntax s g0 g rest.
Hypothesis syntax_consumes :
  forall s g0 g rest, syntax s g0 g rest -> s = g0 ++ rest /\ g0 <> [].

Lemma syntax_consuming : consuming m_at.
Proof.
  intros prev s g0 g rest E. apply m_syntax in E.
  apply syntax_consumes in E. exact E.
Qed.

Lemma syntax_prev p q s : m_at p s = m_at q s.
Proof.
  destruct (m_at p s) as [[[g0 g] rest]|] eqn:Ep.
  - symmetry. apply m_syntax. apply (m_syntax p). exact Ep.
  - destruct (m_at q s) as [[[g0 g] rest]|] eqn:Eq; [|reflexivity].
    apply m_syntax in Eq. apply (m_syntax p) in Eq. congruence.
Qed.

Lemma syntax_none prev s :
  m_at prev s = None <-> forall g0 g r, ~ syntax s g0 g r.
Proof.
  split.
  - intros E g0 g r Hs. apply (m_syntax prev) in Hs. congruence.
  - intros Hn. destruct (m_at prev s) as [[[g0 g] rest]|] eqn:E;
      [|reflexivity].
    apply m_syntax in E. destruct (Hn _ _ _ E).
Qed.

Lemma none_starts_no_match prev gap rest :
  none_starts syntax gap rest <-> no_match_in m_at prev gap rest.
Proof.
  revert prev. induction gap as [|c gap IH]; intros prev; [reflexivity|].
  simpl. rewrite <- (syntax_none prev), (IH (Some c)). reflexivity.
Qed.

Lemma occurrences_prepend c ms tail s :
  (forall g0 g r, ~ syntax (c :: s) g0 g r) ->
  occurrences syntax ms tail s ->
  occurrences syntax (fst (prefix_gap [c] (ms, tail)))
              (snd (prefix_gap [c] (ms, tail))) (c :: s).
Proof.
  intros Hc Ho. destruct Ho as [tail Hn | gap g0 g rest ms tail Hn Hs Ho].
  - simpl. apply occurrences_none. simpl. rewrite app_nil_r. auto.
  - simpl.
    apply (occurrences_next syntax (c :: gap) g0 g rest ms tail); auto.
    simpl. auto.
Qed.

(** The scan of the engine finds the occurrences. *)
Lemma finditer_occurrences fuel prev s :
  length s < fuel ->
  occurrences syntax (fst (finditer m_at fuel prev s))
              (snd (finditer m_at fuel prev s)) s.
Proof.
  revert prev s. induction fuel as [|fuel IH]; intros prev s Hf; [lia|].
  simpl. destruct (m_at prev s) as [[[g0 g] rest]|] eqn:E.
  - apply m_syntax in E.
    destruct (syntax_consumes _ _ _ _ E) as [-> Hne].
    assert (Hr : length rest < fuel).
    { rewrite length_app in Hf. destruct g0; [congruence|].
      simpl in Hf. lia. }
    specialize (IH (char_before prev g0) rest Hr).
    destruct (finditer m_at fuel _ rest) as [ms tail]. simpl in *.
    apply (occurrences_next syntax [] g0 g rest ms tail); auto. exact I.
  - destruct s as [|c s].
    + simpl. apply occurrences_none. exact I.
    + assert (Hs : length s < fuel) by (simpl in Hf; lia).
      specialize (IH (Some c) s Hs).
      pose proof (occurrences_prepend c _ _ s
                    (proj1 (syntax_none prev (c :: s)) E) IH) as P.
      destruct (finditer m_at fuel (Some c) s)
        as [[|[[gap g0] g] ms] tail]; exact P.
Qed.

Lemma re_finditer_occurrences s ms tail :
  re_finditer m_at s = (ms, tail) -> occurrences syntax ms tail s.
Proof.
  intros F.
  pose proof (finditer_occurrences (S (length s)) None s ltac:(lia)) as O.
  unfold re_finditer in F. rewrite F in O. exact O.
Qed.

(** The occurrences of a text are what the scan of the engine finds. *)
Lemma occurrences_re_finditer ms tail s :
  occurrences syntax ms tail s -> re_finditer m_at s = (ms, tail).
Proof.
  induction 1 as [tail Hn | gap g0 g rest ms tail Hn Hs Ho IH].
  - apply (re_finditer_none m_at syntax_consuming).
    apply none_starts_no_match. exact Hn.
  - rewrite (re_finditer_gap m_at syntax_prev gap)
      by (apply none_starts_no_match; exact Hn).
    rewrite (re_finditer_match m_at syntax_consuming syntax_prev g0 g rest)
      by (apply (m_syntax None); exact Hs).
    rewrite IH. simpl. rewrite app_nil_r. reflexivity.
Qed.

Lemma occurrences_exist s : exists ms tail, occurrences syntax ms tail s.
Proof.
  destruct (re_finditer m_at s) as [ms tail] eqn:F.
  exists ms, tail. apply re_finditer_occurrences. exact F.
Qed.
End OccurrenceFacts.

(** *** The double-bracket syntax *)

Lemma enclosed_bracketed open (prev : option ascii) s g0 body rest :
  m_enclosed open (char_not "]") (py "]]") s = Some (g0, body, rest)
  <-> bracketed open s g0 body rest.
Proof.
  clear prev. unfold bracketed. split.
  - intros E. apply m_enclosed_spec in E as (-> & Hne & Hb & ->).
    split; [reflexivity|]. split; [reflexivity|]. split; [exact Hne|].
    eapply Forall_impl; [exact Hb|]. intros c Hc.
    apply char_not_true. exact Hc.
  - intros (-> & -> & Hne & Hb). rewrite <- !app_assoc.
    apply m_enclosed_app; [exact Hne| |reflexivity].
    apply not_bracket_char_not. exact Hb.
Qed.

Lemma bracketed_consumes open s g0 body rest :
  open <> [] -> bracketed open s g0 body rest -> s = g0 ++ rest /\ g0 <> [].
Proof.
  intros Ho (-> & -> & _). split; [reflexivity|].
  destruct open; [congruence|discriminate].
Qed.

(** *** The body of a wiki-link *)

Lemma cut_at_pipe_split_pipe body : cut_at_pipe body = split_pipe body.
Proof.
  unfold split_pipe. induction body as [|c body IH]; [reflexivity|].
  simpl. unfold char_is, char_not.
  destruct (Ascii.eqb c "|"); simpl; [reflexivity|].
  rewrite IH. destruct (span _ body) as [a [|d r]]; reflexivity.
Qed.

Lemma replace_wiki_link_target page_map body :
  replace_wiki_link page_map body = wiki_target page_map body.
Proof.
  unfold replace_wiki_link, wiki_target, linked_or_bare.
  rewrite cut_at_pipe_split_pipe.
  destruct (split_pipe body) as [[A B]|]; reflexivity.
Qed.

(** *** Notes read as segments *)

Lemma double_bracket_tail c t :
  no_double_bracket (c :: t) -> no_double_bracket t.
Proof.
  unfold no_double_bracket. simpl. intros E.
  apply orb_false_iff in E as [_ E]. exact E.
Qed.

Lemma text_no_embed prev t rest :
  no_double_bracket t ->
  (rest <> [] -> last t <> Some "["%char /\ last t <> Some "!"%char) ->
  no_match_in match_embed prev t rest.
Proof.
  revert prev. induction t as [|c t IH]; intros prev Hd Hl; [exact I|].
  split.
  - unfold match_embed, m_enclosed. simpl.
    destruct (Ascii.eqb c "!") eqn:Ec; [|reflexivity].
    apply Ascii.eqb_eq in Ec. subst c.
    destruct t as [|d t]; simpl.
    + destruct rest as [|r rest]; [reflexivity|].
      exfalso. destruct Hl as [_ Hl]; [discriminate|]. apply Hl. reflexivity.
    + destruct (Ascii.eqb d "[") eqn:Ed; [|reflexivity].
      apply Ascii.eqb_eq in Ed. subst d.
      destruct t as [|e t]; simpl.
      * destruct rest as [|r rest]; [reflexivity|].
        exfalso. destruct Hl as [Hl _]; [discriminate|].
        apply Hl. reflexivity.
      * destruct (Ascii.eqb e "[") eqn:Ee; [|reflexivity].
        apply Ascii.eqb_eq in Ee. subst e.
        exfalso. unfold no_double_bracket in Hd. simpl in Hd. discriminate.
  - apply IH; [eapply double_bracket_tail; exact Hd|].
    intros Hr. destruct t as [|d t]; [split; discriminate|].
    apply Hl in Hr. exact Hr.
Qed.

Lemma text_no_wiki prev t rest :
  no_double_bracket t ->
  (rest <> [] -> last t <> Some "["%char) ->
  no_match_in match_wiki prev t rest.
Proof.
  revert prev. induction t as [|c t IH]; intros prev Hd Hl; [exact I|].
  split.
  - unfold match_wiki, m_enclosed. simpl.
    destruct (Ascii.eqb c "[") eqn:Ec; [|reflexivity].
    apply Ascii.eqb_eq in Ec. subst c.
    destruct t as [|d t]; simpl.
    + destruct rest as [|r rest]; [reflexivity|].
      exfalso. apply Hl; [discriminate|reflexivity].
    + destruct (Ascii.eqb d "[") eqn:Ed; [|reflexivity].
      apply Ascii.eqb_eq in Ed. subst d.
      exfalso. unfold no_double_bracket in Hd. simpl in Hd. discriminate.
  - apply IH; [eapply double_bracket_tail; exact Hd|].
    intros Hr. destruct t as [|d t]; [discriminate|].
    apply Hl in Hr. exact Hr.
Qed.

(** The embed pattern does not match in a wiki-link without an opening
    bracket in its body. *)
Lemma wiki_source_no_embed prev lc rest :
  without "[" lc ->
  no_match_in match_embed prev (py "[[" ++ lc ++ py "]]") rest.
Proof.
  intros Hlc.
  apply (no_match_in_app match_embed _ (py "[[")).
  { split; [reflexivity|split; [reflexivity|exact I]]. }
  apply no_match_in_app.
  - apply embed_no_match; [exact Hlc|]. intros _. discriminate.
  - split; [reflexivity|split; [reflexivity|exact I]].
Qed.

(** The wiki-link pattern does not match in the image syntax an embed
    became. *)
Lemma image_no_wiki prev x rest :
  without "[" x ->
  no_match_in match_wiki prev (py "![](" ++ x ++ py ")") rest.
Proof.
  intros Hx.
  apply (no_match_in_app match_wiki _ (py "![](")).
  { repeat (split; [reflexivity|]). exact I. }
  apply no_match_in_app.
  - apply wiki_no_match. exact Hx.
  - split; [reflexivity|exact I].
Qed.

Lemma embed_at_front x rest :
  x <> [] -> without "]" x ->
  match_embed None ((py "![[" ++ x ++ py "]]") ++ rest)
  = Some (py "![[" ++ x ++ py "]]", x, rest).
Proof.
  intros Hx Hc. rewrite <- !app_assoc.
  apply (m_enclosed_app (py "![[") (char_not "]") (py "]]"));
    [exact Hx|apply not_bracket_char_not; exact Hc|reflexivity].
Qed.

Lemma wiki_at_front lc rest :
  lc <> [] -> without "]" lc ->
  match_wiki None ((py "[[" ++ lc ++ py "]]") ++ rest)
  = Some (py "[[" ++ lc ++ py "]]", lc, rest).
Proof.
  intros Hx Hc. rewrite <- !app_assoc.
  apply (m_enclosed_app (py "[[") (char_not "]") (py "]]"));
    [exact Hx|apply not_bracket_char_not; exact Hc|reflexivity].
Qed.

Lemma without_pipe_body c A B :
  without c A -> without c B -> c <> "|"%char ->
  without c (A ++ py "|" ++ B).
Proof.
  intros HA HB Hc. apply Forall_app. split; [exact HA|].
  apply Forall_app. split; [|exact HB].
  constructor; [congruence|constructor].
Qed.

(** The body of a wiki-link segment. *)
Lemma wiki_source A B :
  source_of (WikiLink A B)
  = py "[[" ++ match B with Some B => A ++ py "|" ++ B | None => A end
    ++ py "]]".
Proof.
  destruct B as [B|]; simpl; [|reflexivity].
  rewrite <- !app_assoc. reflexivity.
Qed.

Lemma source_text_cons seg segs :
  source_text (seg :: segs) = source_of seg ++ source_text segs.
Proof. reflexivity. Qed.

(** A following segment puts a text after the one before. *)
Lemma after_embeds_nil segs :
  concat (map after_embeds segs) <> [] -> segs <> [].
Proof. intros Hn ->. apply Hn. reflexivity. Qed.

Lemma source_text_nil segs : source_text segs <> [] -> segs <> [].
Proof. intros Hn ->. apply Hn. reflexivity. Qed.

Lemma embed_pass segs :
  segmented segs ->
  convert_embeds (source_text segs) = concat (map after_embeds segs).
Proof.
  unfold convert_embeds.
  induction segs as [|seg segs IH]; intros Hs.
  - apply (re_sub_none match_embed match_embed_consuming). exact I.
  - destruct Hs as [Hseg Hs]. specialize (IH Hs).
    rewrite source_text_cons. cbn [map concat].
    destruct seg as [t|x|A B].
    + destruct Hseg as [Hd Hl].
      rewrite (re_sub_gap match_embed (fun _ _ _ => eq_refl)).
      * rewrite IH. reflexivity.
      * apply text_no_embed; [exact Hd|].
        intros Hr. apply Hl. apply source_text_nil. exact Hr.
    + destruct Hseg as (Hx & _ & Hc). cbn [source_of after_embeds].
      rewrite (re_sub_match match_embed match_embed_consuming
                 (fun _ _ _ => eq_refl) _ _ x _ (embed_at_front x _ Hx Hc)).
      rewrite IH. unfold embed_to_image. rewrite <- !app_assoc. reflexivity.
    + assert (Ho : without "["
                     match B with Some B => A ++ py "|" ++ B | None => A end).
      { destruct B as [B|].
        - destruct Hseg as (HA & _ & _ & HB & _).
          apply without_pipe_body; [exact HA|exact HB|discriminate].
        - destruct Hseg as (_ & HA & _). exact HA. }
      change (after_embeds (WikiLink A B)) with (source_of (WikiLink A B)).
      rewrite wiki_source.
      rewrite (re_sub_gap match_embed (fun _ _ _ => eq_refl)).
      * rewrite IH. reflexivity.
      * apply wiki_source_no_embed. exact Ho.
Qed.

Lemma wiki_pass page_map segs :
  segmented segs ->
  convert_wiki_links page_map (concat (map after_embeds segs))
  = normalized_text page_map segs.
Proof.
  unfold convert_wiki_links, normalized_text.
  induction segs as [|seg segs IH]; intros Hs.
  - apply (re_sub_none match_wiki match_wiki_consuming). exact I.
  - destruct Hs as [Hseg Hs]. specialize (IH Hs). cbn [map concat].
    destruct seg as [t|x|A B].
    + destruct Hseg as [Hd Hl]. cbn [after_embeds source_of normalized_of].
      rewrite (re_sub_gap match_wiki (fun _ _ _ => eq_refl)).
      * rewrite IH. reflexivity.
      * apply text_no_wiki; [exact Hd|].
        intros Hr. apply Hl. apply after_embeds_nil. exact Hr.
    + destruct Hseg as (_ & Ho & _). cbn [after_embeds normalized_of].
      rewrite (re_sub_gap match_wiki (fun _ _ _ => eq_refl)).
      * rewrite IH. reflexivity.
      * apply image_no_wiki. exact Ho.
    + change (after_embeds (WikiLink A B)) with (source_of (WikiLink A B)).
      rewrite wiki_source.
      destruct B as [B|].
      * destruct Hseg as (HAo & HAc & HAp & HBo & HBc).
        rewrite (re_sub_match match_wiki match_wiki_consuming
                   (fun _ _ _ => eq_refl) _ _ (A ++ py "|" ++ B) _
                   (wiki_at_front (A ++ py "|" ++ B) _
                      ltac:(destruct A; discriminate)
                      (without_pipe_body _ _ _ HAc HBc ltac:(discriminate)))).
        rewrite IH. cbn [normalized_of]. f_equal.
        unfold replace_wiki_link, linked_or_bare.
        rewrite split_pipe_with_pipe by exact HAp. reflexivity.
      * destruct Hseg as (HA & HAo & HAc & HAp).
        rewrite (re_sub_match match_wiki match_wiki_consuming
                   (fun _ _ _ => eq_refl) _ _ A _
                   (wiki_at_front A _ HA HAc)).
        rewrite IH. cbn [normalized_of]. f_equal.
        unfold replace_wiki_link, linked_or_bare.
        rewrite split_pipe_without_pipe by exact HAp. reflexivity.
Qed.

(** C5. Normalization is the embed pass followed by the wiki-link pass.
    For every text, the embed pass replaces every occurrence of the embed
    syntax [![[x]]], read from left to right, by [![](x)], and keeps the
    text between and after the occurrences byte for byte; the wiki-link
    pass does the same, on the text the embed pass returns, for every
    occurrence of [[[body]]], which becomes [[B](U)] when the body is [A|B]
    and the page map sends [A] to [U], the bare [B] when it does not, and
    the same with [B = A] for a body without pipe.  The occurrences are
    those of [occurrences]: each is the first that starts at or after the
    end of the one before, so none is passed over, and every text has
    them.  End to end, for every note that reads as a sequence of text,
    embeds and wiki-links ([segmented]), the result is the note with every
    embed and every wiki-link replaced and every text segment, ordinary
    [[text](url)] links and images included, unchanged. *)
Theorem normalize_embeds_then_wiki_links (page_map : gmap (list ascii) str) :
  (forall content,
      convert_obsidian_links content page_map
      = convert_wiki_links page_map (convert_embeds content))
  /\ (forall content, exists ms tail, occurrences (bracketed (py "![[")) ms tail content)
  /\ (forall content ms tail,
        occurrences (bracketed (py "![[")) ms tail content ->
        convert_embeds content
        = sub_join (fun _ x => py "![](" ++ x ++ py ")") ms tail)
  /\ (forall content, exists ms tail, occurrences (bracketed (py "[[")) ms tail content)
  /\ (forall content ms tail,
        occurrences (bracketed (py "[[")) ms tail content ->
        convert_wiki_links page_map content
        = sub_join (fun _ body => wiki_target page_map body) ms tail)
  /\ (forall segs,
        segmented segs ->
        convert_obsidian_links (source_text segs) page_map
        = normalized_text page_map segs).
Proof.
  refine (conj _ (conj _ (conj _ (conj _ (conj _ _))))).
  - reflexivity.
  - intros content.
    apply (occurrences_exist match_embed (bracketed (py "![["))
             (enclosed_bracketed (py "![["))
             (fun s g0 g rest =>
                bracketed_consumes (py "![[") s g0 g rest
                                   ltac:(discriminate))).
  - intros content ms tail Ho.
    apply (occurrences_re_finditer match_embed (bracketed (py "![["))
             (enclosed_bracketed (py "![["))
             (fun s g0 g rest =>
                bracketed_consumes (py "![[") s g0 g rest
                                   ltac:(discriminate))) in Ho.
    unfold convert_embeds, re_sub. rewrite Ho. reflexivity.
  - intros content.
    apply (occurrences_exist match_wiki (bracketed (py "[["))
             (enclosed_bracketed (py "[["))
             (fun s g0 g rest =>
                bracketed_consumes (py "[[") s g0 g rest
                                   ltac:(discriminate))).
  - intros content ms tail Ho.
    apply (occurrences_re_finditer match_wiki (bracketed (py "[["))
             (enclosed_bracketed (py "[["))
             (fun s g0 g rest =>
                bracketed_consumes (py "[[") s g0 g rest
                                   ltac:(discriminate))) in Ho.
    unfold convert_wiki_links, re_sub. rewrite Ho.
    clear Ho. induction ms as [|[[gap g0] body] ms IH]; [reflexivity|].
    simpl. rewrite IH, replace_wiki_link_target. reflexivity.
  - intros segs Hs. unfold convert_obsidian_links.
    rewrite embed_pass by exact Hs. apply wiki_pass. exact Hs.
Qed.

(** The occurrences of a concrete text, by evaluation of the scan. *)
Lemma embeds_by_scan ms tail s :
  re_finditer match_embed s = (ms, tail) ->
  occurrences (bracketed (py "![[")) ms tail s.
Proof.
  apply (re_finditer_occurrences match_embed (bracketed (py "![["))
           (enclosed_bracketed (py "![["))
           (fun s g0 g rest =>
              bracketed_consumes (py "![[") s g0 g rest
                                 ltac:(discriminate))).
Qed.

(** C5, at concrete inputs.  A note with an embed, a wiki-link with a
    display text whose page is in the page map, a wiki-link to a page that
    is not, an ordinary link and an image; and the embeds of a text in
    which the syntax is started twice without being closed. *)
Lemma normalize_embeds_then_wiki_links_witness :
  convert_obsidian_links
    (py "See ![[pic.png]] and [[Page|Text]], [[Other]] or [web](http://x.y/a) ![alt](img.png)!")
    {[ py "Page" := py "https://n/p" ]}
  = py "See ![](pic.png) and [Text](https://n/p), Other or [web](http://x.y/a) ![alt](img.png)!"
  /\ convert_embeds (py "a![[x]]![[[y]] ![[z]")
     = py "a![](x)![]([y) ![[z]".
Proof.
  pose proof (normalize_embeds_then_wiki_links
                {[ py "Page" := py "https://n/p" ]})
    as (_ & _ & He & _ & _ & Hs).
  split.
  - apply (Hs [ Text (py "See "); Embed (py "pic.png"); Text (py " and ");
                WikiLink (py "Page") (Some (py "Text")); Text (py ", ");
                WikiLink (py "Other") None;
                Text (py " or [web](http://x.y/a) ![alt](img.png)!") ]).
    cbn [segmented].
    repeat match goal with
           | |- _ /\ _ => split
           | |- True => exact I
           | |- without _ _ => without_literal
           | |- no_double_bracket _ => reflexivity
           | |- [] <> [] -> _ => intros Hc; destruct (Hc eq_refl)
           | |- _ <> [] -> _ => intros _
           | |- _ <> _ => discriminate
           end.
  - apply (He (py "a![[x]]![[[y]] ![[z]")
              [ (py "a", py "![[x]]", py "x");
                ([], py "![[[y]]", py "[y") ]
              (py " ![[z]")).
    apply embeds_by_scan. vm_compute. reflexivity.
Defined.

(** ** The attachment rewrite *)

Lemma match_src_consuming : consuming match_src.
Proof.
  intros prev s g0 g rest. unfold match_src.
  destruct (expect (py "](") s) as [s1|] eqn:E1; [|discriminate]. simpl.
  destruct (span (char_not "010") s1) as [run r] eqn:Es.
  destruct (_ && _); [|discriminate]. intros [= <- <- <-].
  apply expect_Some in E1. apply span_spec in Es as (-> & _ & _).
  subst s. split; [|discriminate]. apply app_assoc.
Qed.

Lemma src_no_match prev pre rest :
  without "]" pre -> no_match_in match_src prev pre rest.
Proof.
  intros Hp. revert prev. induction Hp as [|c pre Hc Hp IH]; intros prev.
  - exact I.
  - split; [|apply IH]. unfold match_src. simpl.
    apply Ascii.eqb_neq in Hc. rewrite Hc. reflexivity.
Qed.

Lemma last_snoc_char (s : str) c : last (s ++ [c]) = Some c.
Proof. apply last_snoc. Qed.

Lemma match_src_at (src : str) :
  src <> [] -> without "010" src ->
  match_src None (py "](" ++ (src ++ py ")") ++ [])
  = Some (py "](" ++ (src ++ py ")"), src, []).
Proof.
  intros Hne Hnl. unfold match_src. rewrite expect_app.
  cbn [mbind option_bind]. change (py ")") with [")"%char].
  rewrite (span_app (char_not "010") (src ++ [")"%char]) []).
  - rewrite last_snoc_char, removelast_last.
    assert (L : (2 <=? length (src ++ [")"%char])) = true).
    { apply Nat.leb_le. rewrite length_app. destruct src; [congruence|].
      simpl. lia. }
    rewrite L. reflexivity.
  - apply Forall_app. split.
    + eapply Forall_impl; [exact Hnl|]. intros c Hc.
      apply char_not_true. exact Hc.
    + constructor; [reflexivity|constructor].
  - exact I.
Qed.

(** The second pattern reads the source of a match of the image pattern
    back from group 0. *)
Lemma re_search_src alt src :
  image_parts alt src ->
  re_search match_src (image_syntax alt src) = Some src.
Proof.
  intros (Halt & Hne & Hnl). unfold re_search, image_syntax.
  replace (py "![" ++ alt ++ py "](" ++ src ++ py ")")
    with ((py "![" ++ alt) ++ (py "](" ++ (src ++ py ")")) ++ [])
    by (rewrite app_nil_r, <- !app_assoc; reflexivity).
  rewrite (re_finditer_first match_src match_src_consuming
             (py "![" ++ alt) (py "](" ++ (src ++ py ")")) src []).
  - destruct (finditer match_src _ _ []) as [ms tail]. reflexivity.
  - apply src_no_match. unfold without.
    constructor; [discriminate|]. constructor; [discriminate|exact Halt].
  - apply match_src_at; assumption.
Qed.

Lemma lazy_until_close_spec first s src rest :
  lazy_until_close first s = Some (src, rest) ->
  s = src ++ py ")" ++ rest /\ (first = true -> src <> [])
  /\ without "010" src.
Proof.
  revert first src rest.
  induction s as [|c s IH]; intros first src rest; simpl; [discriminate|].
  destruct (negb first && char_is ")" c && boundary s) eqn:Estop.
  - intros [= <- <-].
    apply andb_true_iff in Estop as [Estop _].
    apply andb_true_iff in Estop as [Ef Ec].
    apply char_is_true in Ec. subst c.
    apply negb_true_iff in Ef. subst first.
    split; [reflexivity|]. split; [congruence|constructor].
  - destruct (char_is "010" c) eqn:Enl; [discriminate|].
    destruct (lazy_until_close false s) as [[src' rest']|] eqn:El;
      [|discriminate].
    simpl. intros [= <- <-].
    destruct (IH _ _ _ El) as (-> & _ & Hnl).
    split; [reflexivity|]. split; [intros _; discriminate|].
    constructor; [|exact Hnl]. apply char_is_false. exact Enl.
Qed.

Lemma match_image_spec prev s g0 alt src rest :
  match_image prev s = Some (g0, (alt, src), rest) ->
  g0 = image_syntax alt src /\ image_parts alt src /\ s = g0 ++ rest.
Proof.
  unfold match_image.
  destruct (expect (py "![") s) as [s1|] eqn:E1; [|discriminate].
  cbn [mbind option_bind].
  destruct (span (char_not "]") s1) as [a s2] eqn:Es.
  destruct (expect (py "](") s2) as [s3|] eqn:E2; [|discriminate].
  cbn [mbind option_bind].
  destruct (lazy_until_close true s3) as [[sr r]|] eqn:El; [|discriminate].
  cbn [mbind option_bind]. intros [= <- <- <- <-].
  apply expect_Some in E1, E2. apply span_spec in Es as (-> & Ha & _).
  apply lazy_until_close_spec in El as (-> & Hne & Hnl).
  subst. split; [reflexivity|]. split.
  - split; [|split; [apply Hne; reflexivity|exact Hnl]].
    eapply Forall_impl; [exact Ha|]. intros c Hc. apply char_not_true. exact Hc.
  - unfold image_syntax, py. simpl. rewrite <- ?app_assoc. simpl.
    rewrite <- ?app_assoc. reflexivity.
Qed.

Lemma match_image_consuming : consuming match_image.
Proof.
  intros prev s g0 [alt src] rest E.
  apply match_image_spec in E as (-> & _ & ->).
  split; [reflexivity|discriminate].
Qed.

(** *** The image pattern and the image references *)

Lemma lazy_until_close_sound first s src rest :
  lazy_until_close first s = Some (src, rest) ->
  boundary rest = true
  /\ (forall a b,
        (first = true -> a <> []) -> src = a ++ py ")" ++ b ->
        boundary (b ++ py ")" ++ rest) = false).
Proof.
  revert first src rest.
  induction s as [|c s IH]; intros first src rest; simpl; [discriminate|].
  destruct (negb first && char_is ")" c && boundary s) eqn:Estop.
  - intros [= <- <-].
    apply andb_true_iff in Estop as [_ Eb].
    split; [exact Eb|]. intros a b _ E. destruct a; discriminate.
  - destruct (char_is "010" c) eqn:Enl; [discriminate|].
    destruct (lazy_until_close false s) as [[src' rest']|] eqn:El;
      [|discriminate].
    simpl. intros [= <- <-].
    destruct (IH _ _ _ El) as [Hb Hmin]. split; [exact Hb|].
    intros a b Ha E. destruct a as [|x a].
    + simpl in E. injection E as -> ->.
      apply lazy_until_close_spec in El as (-> & _ & _).
      destruct first; [destruct (Ha eq_refl eq_refl)|].
      simpl in Estop. exact Estop.
    + simpl in E. injection E as -> ->.
      apply (Hmin a b); [discriminate|reflexivity].
Qed.

Lemma lazy_until_close_complete first src rest :
  (first = true -> src <> []) -> without "010" src ->
  boundary rest = true ->
  (forall a b,
      (first = true -> a <> []) -> src = a ++ py ")" ++ b ->
      boundary (b ++ py ")" ++ rest) = false) ->
  lazy_until_close first (src ++ py ")" ++ rest) = Some (src, rest).
Proof.
  revert first. induction src as [|c src IH]; intros first Hne Hnl Hb Hmin.
  - destruct first; [destruct (Hne eq_refl eq_refl)|].
    simpl. rewrite Hb. reflexivity.
  - apply Forall_cons in Hnl as [Hc Hnl].
    change ((c :: src) ++ py ")" ++ rest) with (c :: (src ++ py ")" ++ rest)).
    cbn [lazy_until_close].
    assert (Estop : negb first && char_is ")" c
                    && boundary (src ++ py ")" ++ rest) = false).
    { destruct first; [reflexivity|]. simpl.
      destruct (char_is ")" c) eqn:Ec; [|reflexivity]. simpl.
      apply char_is_true in Ec. subst c.
      apply (Hmin [] src); [discriminate|reflexivity]. }
    rewrite Estop.
    apply char_is_false in Hc. rewrite Hc.
    rewrite (IH false); [reflexivity|discriminate|exact Hnl|exact Hb|].
    intros a b _ E. apply (Hmin (c :: a) b); [discriminate|].
    simpl. rewrite E. reflexivity.
Qed.

(** The image pattern matches at a position exactly when an image
    reference starts there. *)
Lemma match_image_reference (prev : option ascii) s g0 g rest :
  match_image prev s = Some (g0, g, rest) <-> image_reference s g0 g rest.
Proof.
  destruct g as [alt src]. unfold image_reference. split.
  - intros E. pose proof (match_image_spec _ _ _ _ _ _ E)
      as (Eg & (Ha & Hne & Hnl) & Es).
    refine (conj Eg (conj Es (conj Ha (conj Hne (conj Hnl _))))).
    unfold match_image in E.
    destruct (expect (py "![") s) as [s1|] eqn:E1; [|discriminate].
    cbn [mbind option_bind] in E.
    destruct (span (char_not "]") s1) as [a s2] eqn:Esp.
    destruct (expect (py "](") s2) as [s3|] eqn:E2; [|discriminate].
    cbn [mbind option_bind] in E.
    destruct (lazy_until_close true s3) as [[sr r]|] eqn:El; [|discriminate].
    cbn [mbind option_bind] in E. injection E as _ _ <- <-.
    apply lazy_until_close_sound in El as [Hb Hmin].
    split; [exact Hb|]. intros x y Hx. apply Hmin. intros _. exact Hx.
  - intros (-> & -> & Ha & Hne & Hnl & Hb & Hmin).
    unfold match_image, image_syntax. rewrite <- !app_assoc.
    rewrite expect_app. cbn [mbind option_bind].
    rewrite (span_app (char_not "]") alt);
      [|apply not_bracket_char_not; exact Ha|reflexivity].
    rewrite expect_app. cbn [mbind option_bind].
    rewrite (lazy_until_close_complete true src rest);
      [reflexivity|intros _; exact Hne|exact Hnl|exact Hb|].
    intros x y Hx. apply Hmin. apply Hx. reflexivity.
Qed.

Lemma image_reference_consumes s g0 g rest :
  image_reference s g0 g rest -> s = g0 ++ rest /\ g0 <> [].
Proof.
  destruct g as [alt src]. intros (-> & -> & _). split; [reflexivity|].
  discriminate.
Qed.

Lemma image_reference_is_image gap s g0 g rest :
  image_reference s g0 g rest -> is_image (gap, g0, g).
Proof.
  destruct g as [alt src]. intros (-> & _ & Ha & Hne & Hnl & _).
  split; [reflexivity|]. repeat split; assumption.
Qed.

Lemma occurrences_are_images ms tail s :
  occurrences image_reference ms tail s -> Forall is_image ms.
Proof.
  induction 1 as [tail Hn | gap g0 g rest ms tail Hn Hs Ho IH];
    constructor; [|exact IH].
  eapply image_reference_is_image. exact Hs.
Qed.

Lemma images_re_finditer ms tail s :
  occurrences image_reference ms tail s ->
  re_finditer match_image s = (ms, tail).
Proof.
  apply (occurrences_re_finditer match_image image_reference
           match_image_reference image_reference_consumes).
Qed.

(** The image references of a concrete text, by evaluation of the scan. *)
Lemma images_by_scan ms tail s :
  re_finditer match_image s = (ms, tail) ->
  occurrences image_reference ms tail s.
Proof.
  apply (re_finditer_occurrences match_image image_reference
           match_image_reference image_reference_consumes).
Qed.

Section RewriteFacts.
Context `{UrlLib} `{FileSystem} `{Hashlib} `{Provider}.
Variables (md vault : str).

(** The callback on a match of the image pattern, in the words of
    [rewrite_references]. *)
Lemma callback_spec alt src st :
  image_parts alt src ->
  upload_and_replace_image md vault (image_syntax alt src) alt st
  = if is_url src then Ok (image_syntax alt src, st)
    else
      match uploaded_images st !! src with
      | Some url => Ok (image_syntax alt url, st)
      | None =>
          match host_reference md vault src (uploader st) with
          | Raise e => Raise e
          | Ok (Some url, u') =>
              Ok (image_syntax alt url,
                  {| uploaded_images := <[src := url]> (uploaded_images st);
                     uploader := u' |})
          | Ok (None, u') =>
              Ok (image_syntax alt src,
                  {| uploaded_images := uploaded_images st;
                     uploader := u' |})
          end
      end.
Proof.
  intros Hp. unfold upload_and_replace_image, host_reference, upload_wanted.
  rewrite (re_search_src _ _ Hp).
  destruct (is_url src); [reflexivity|].
  destruct (uploaded_images st !! src) as [url|]; [reflexivity|].
  destruct st as [hosted u]. cbn [uploaded_images uploader].
  destruct (resolve_relative_path (unquote src) md vault) as [[fp|]|e];
    cbn [mbind result_bind]; try reflexivity.
  destruct (truthy fp); cbn [negb]; [|reflexivity].
  destruct (path_is_file fp) as [[|]|e]; cbn [mbind result_bind];
    try reflexivity.
  destruct u as [u|]; cbn [mbind result_bind]; [|reflexivity].
  destruct (upload fp (get_unique_path_for_file fp vault) u)
    as [[[v|] u']|e]; cbn [mbind result_bind]; try reflexivity.
  destruct (truthy v); reflexivity.
Qed.

Lemma callback_url alt src st :
  image_parts alt src -> is_url src = true ->
  upload_and_replace_image md vault (image_syntax alt src) alt st
  = Ok (image_syntax alt src, st).
Proof.
  intros Hp Hu. rewrite (callback_spec _ _ _ Hp), Hu. reflexivity.
Qed.

Lemma callback_cached alt src st url :
  image_parts alt src -> is_url src = false ->
  uploaded_images st !! src = Some url ->
  upload_and_replace_image md vault (image_syntax alt src) alt st
  = Ok (image_syntax alt url, st).
Proof.
  intros Hp Hu Hc. rewrite (callback_spec _ _ _ Hp), Hu, Hc. reflexivity.
Qed.

Lemma callback_success alt src st fp u v u' :
  image_parts alt src -> is_url src = false ->
  uploaded_images st !! src = None ->
  resolve_relative_path (unquote src) md vault = Ok (Some fp) ->
  truthy fp = true -> path_is_file fp = Ok true ->
  uploader st = Some u ->
  upload fp (get_unique_path_for_file fp vault) u = Ok (Some v, u') ->
  truthy v = true ->
  upload_and_replace_image md vault (image_syntax alt src) alt st
  = Ok (image_syntax alt v,
        {| uploaded_images := <[src := v]> (uploaded_images st);
           uploader := Some u' |}).
Proof.
  intros Hp Hu Hc Hr Ht Hf Hup Hupl Hv.
  rewrite (callback_spec _ _ _ Hp), Hu, Hc. unfold host_reference.
  rewrite Hr, Ht, Hf, Hup, Hupl, Hv. reflexivity.
Qed.

(** The callback removes and changes no entry of the cache. *)
Lemma callback_preserves full_match alt st r st1 s v :
  upload_and_replace_image md vault full_match alt st = Ok (r, st1) ->
  uploaded_images st !! s = Some v ->
  uploaded_images st1 !! s = Some v.
Proof.
  unfold upload_and_replace_image, upload_wanted. intros E Hs.
  destruct (re_search match_src full_match) as [src|];
    [|injection E as <- <-; exact Hs].
  destruct (is_url src); [injection E as <- <-; exact Hs|].
  destruct (uploaded_images st !! src) as [url|] eqn:Hc;
    [injection E as <- <-; exact Hs|].
  destruct (resolve_relative_path (unquote src) md vault) as [[fp|]|e];
    cbn [mbind result_bind] in E;
    [|injection E as <- <-; exact Hs|discriminate].
  destruct (truthy fp); cbn [mbind result_bind] in E;
    [|injection E as <- <-; exact Hs].
  destruct (path_is_file fp) as [[|]|e]; cbn [mbind result_bind] in E;
    [|injection E as <- <-; exact Hs|discriminate].
  destruct (uploader st) as [u|]; cbn [mbind result_bind] in E;
    [|injection E as <- <-; exact Hs].
  destruct (upload fp (get_unique_path_for_file fp vault) u)
    as [[[w|] u']|e]; cbn [mbind result_bind] in E;
    [|injection E as <- <-; exact Hs|discriminate].
  destruct (truthy w); injection E as <- <-; [|exact Hs].
  simpl. rewrite lookup_insert_ne; [exact Hs|]. congruence.
Qed.

Lemma replace_images_preserves ms tail st s v :
  uploaded_images st !! s = Some v ->
  uploaded_images (snd (replace_images md vault ms tail st)) !! s = Some v.
Proof.
  revert st. induction ms as [|[[gap g0] [alt src]] ms IH]; intros st Hs.
  - exact Hs.
  - cbn [replace_images].
    destruct (upload_and_replace_image md vault g0 alt st)
      as [[r st1]|e] eqn:E; [|exact Hs].
    pose proof (callback_preserves _ _ _ _ _ _ _ E Hs) as P.
    specialize (IH st1 P).
    destruct (replace_images md vault ms tail st1) as [out st2].
    exact IH.
Qed.

(** The loop of the substitution, in the words of [rewrite_references]. *)
Lemma replace_images_spec ms tail st :
  Forall is_image ms ->
  replace_images md vault ms tail st
  = rewrite_references md vault ms tail (uploaded_images st) (uploader st).
Proof.
  intros Hms. revert st.
  induction Hms as [|[[gap g0] [alt src]] ms [-> Hp] Hms IH]; intros st.
  - destruct st. reflexivity.
  - cbn [replace_images rewrite_references].
    rewrite (callback_spec _ _ _ Hp).
    destruct (is_url src).
    { rewrite IH. destruct (rewrite_references _ _ _ _ _ _) as [[out|e] st2];
        reflexivity. }
    destruct (uploaded_images st !! src) as [url|].
    { rewrite IH. destruct (rewrite_references _ _ _ _ _ _) as [[out|e] st2];
        reflexivity. }
    destruct (host_reference md vault src (uploader st)) as [[[url|] u']|e].
    + rewrite IH. cbn [uploaded_images uploader].
      destruct (rewrite_references _ _ _ _ _ _) as [[out|e] st2];
        reflexivity.
    + rewrite IH. cbn [uploaded_images uploader].
      destruct (rewrite_references _ _ _ _ _ _) as [[out|e] st2];
        reflexivity.
    + destruct st. reflexivity.
Qed.

(** No image syntax is removed. *)
Lemma rewrite_references_retarget ms tail hosted u out st :
  rewrite_references md vault ms tail hosted u = (Ok out, st) ->
  exists targets,
    length targets = length ms /\ out = retarget ms targets tail.
Proof.
  revert hosted u out st.
  induction ms as [|[[gap g0] [alt src]] ms IH]; intros hosted u out st.
  - intros [= <- <-]. exists []. split; reflexivity.
  - cbn [rewrite_references].
    assert (Step : forall target hosted' u',
               (let '(out', st') :=
                  rewrite_references md vault ms tail hosted' u' in
                (match out' with
                 | Ok o => Ok (gap ++ image_syntax alt target ++ o)
                 | Raise e => Raise e
                 end, st')) = (Ok out, st) ->
               exists targets,
                 length targets = S (length ms)
                 /\ out = retarget ((gap, g0, (alt, src)) :: ms) targets tail).
    { intros target hosted' u' E.
      destruct (rewrite_references md vault ms tail hosted' u')
        as [[o|e] st'] eqn:R; [|discriminate].
      injection E as <- <-.
      destruct (IH _ _ _ _ R) as (targets & L & ->).
      exists (target :: targets). split; [simpl; lia|reflexivity]. }
    destruct (is_url src); [apply Step|].
    destruct (hosted !! src) as [url|]; [apply Step|].
    destruct (host_reference md vault src u) as [[[url|] u']|e];
      [apply Step|apply Step|discriminate].
Qed.

Lemma replace_images_cached src v ms tail st :
  Forall (fun m => is_image m /\ snd (snd m) = src) ms ->
  is_url src = false -> uploaded_images st !! src = Some v ->
  replace_images md vault ms tail st
  = (Ok (retarget ms (repeat v (length ms)) tail), st).
Proof.
  intros Hms Hu Hc.
  induction Hms as [|[[gap g0] [alt s]] ms [[-> Hp] Hs] Hms IH].
  - reflexivity.
  - simpl in Hs. subst s. cbn [replace_images].
    rewrite (callback_cached _ _ _ v) by assumption.
    rewrite IH. reflexivity.
Qed.
End RewriteFacts.

(** C7 fails on the code.  For a reference whose upload fails: the per-
    document cache records successes only, so the second occurrence of the
    same reference is resolved and sent to the provider again; the text is
    left as it was.  For a reference at which a test of the file system
    raises, here a name of 256 letters: the rewrite raises, so that no
    reference of the note is left pointing anywhere. *)
Lemma failed_reference_uploaded_again :
  rewrite_images (H := Demo.urllib) (H0 := Demo.fs) (H1 := Demo.hashlib)
                 (H2 := Demo.provider_down)
                 (py "/v/note.md") (py "/v")
                 (py "![](a.png) ![](a.png)") (Some new_uploader)
  = (Ok (py "![](a.png) ![](a.png)"),
     {| uploaded_images := ∅;
        uploader :=
          Some {| cache := ∅;
                  stats := {| images := 0; pdfs := 0; other := 0;
                              failed := 2; skipped_dirs := 0 |};
                  calls := [ (py "/v/a.png", py "root");
                             (py "/v/a.png", py "root") ] |} |})
  /\ rewrite_images (H := Demo.urllib) (H0 := Demo.fs) (H1 := Demo.hashlib)
                    (H2 := Demo.provider_ok)
                    (py "/v/note.md") (py "/v")
                    (py "![](a.png) ![](" ++ repeat "a"%char 256 ++ py ")")
                    (Some new_uploader)
     = (Raise (OSError 36),
        {| uploaded_images := {[ py "a.png" := py "https://cdn/root/a.png" ]};
           uploader :=
             Some {| cache :=
                       {[ py "/v/a.png_d41d8cd98f00b204e9800998ecf8427e"
                          := py "https://cdn/root/a.png" ]};
                     stats := {| images := 1; pdfs := 0; other := 0;
                                 failed := 0; skipped_dirs := 0 |};
                     calls := [ (py "/v/a.png", py "root") ] |} |}).
Proof. split; by_evaluation. Qed.

(** C7, as the code has it.  Every text has its image references, read
    from left to right ([occurrences image_reference]: each is the first
    that starts at or after the end of the one before, and its closing
    parenthesis is followed by white space, an exclamation mark, an opening
    bracket or the end of the text).  The rewrite treats them one after the
    other as [rewrite_references] says: a reference to an absolute URL is
    left as it is; a reference whose source is in the per-document cache is
    rewritten to the cached URL, without resolution or upload; any other
    reference is rewritten to the hosted URL, which is put in the cache,
    when resolution gives a regular file, an uploader is present and the
    upload returns a URL, and is otherwise left pointing at its source, the
    cache being left as it was (so that a reference that fails is tried
    again at its next occurrence); an error raised by the resolver, by the
    test of the resolved path or by the upload ends the rewrite with that
    error.  When the rewrite returns a text, it is the original text with
    each image reference pointing at some target: no image syntax is
    removed.  Entries of the cache are never removed or changed, and later
    occurrences of a cached source change nothing. *)
Theorem image_references_rewritten `{UrlLib} `{FileSystem} `{Hashlib}
  `{Provider} (md vault : str) :
  (forall content,
      exists ms tail, occurrences image_reference ms tail content)
  /\ (forall content u ms tail,
        occurrences image_reference ms tail content ->
        rewrite_images md vault content u
        = rewrite_references md vault ms tail ∅ u)
  /\ (forall content u out st,
        rewrite_images md vault content u = (Ok out, st) ->
        exists ms tail targets,
          occurrences image_reference ms tail content
          /\ length targets = length ms
          /\ out = retarget ms targets tail)
  /\ (forall ms tail st s v,
        uploaded_images st !! s = Some v ->
        uploaded_images (snd (replace_images md vault ms tail st)) !! s
        = Some v)
  /\ (forall ms tail st src v,
        Forall (fun m => is_image m /\ snd (snd m) = src) ms ->
        is_url src = false -> uploaded_images st !! src = Some v ->
        replace_images md vault ms tail st
        = (Ok (retarget ms (repeat v (length ms)) tail), st)).
Proof.
  assert (R : forall content u ms tail,
             occurrences image_reference ms tail content ->
             rewrite_images md vault content u
             = rewrite_references md vault ms tail ∅ u).
  { intros content u ms tail Ho. unfold rewrite_images.
    rewrite (images_re_finditer _ _ _ Ho).
    rewrite replace_images_spec by (eapply occurrences_are_images; exact Ho).
    reflexivity. }
  assert (Ex : forall content,
             exists ms tail, occurrences image_reference ms tail content).
  { intros content.
    apply (occurrences_exist match_image image_reference
             match_image_reference image_reference_consumes). }
  refine (conj Ex (conj R (conj _ (conj _ _)))).
  - intros content u out st E.
    destruct (Ex content) as (ms & tail & Ho).
    rewrite (R _ _ _ _ Ho) in E.
    destruct (rewrite_references_retarget md vault _ _ _ _ _ _ E)
      as (targets & L & ->).
    exists ms, tail, targets. auto.
  - intros ms tail st s v. apply replace_images_preserves.
  - intros ms tail st src v. apply replace_images_cached.
Qed.

(** C7 as amended, at a concrete input: a note of [/v] with four image
    references.  The first is found in the folder [attachments] and
    uploaded; the second is a URL; the third has the source of the first
    and takes its URL from the cache, the provider being called once; the
    fourth names no file and is left as it is. *)
Lemma image_references_rewritten_witness :
  rewrite_images
    (H := Demo.urllib) (H0 := Demo.fs) (H1 := Demo.hashlib)
    (H2 := Demo.provider_ok) (py "/v/note.md") (py "/v")
    (py "![a](pic.png) then ![b](https://h/x.png) and ![c](pic.png) ![d](missing.png)")
    (Some new_uploader)
  = (Ok (py "![a](https://cdn/attachments/pic.png) then ![b](https://h/x.png) and ![c](https://cdn/attachments/pic.png) ![d](missing.png)"),
     {| uploaded_images :=
          {[ py "pic.png" := py "https://cdn/attachments/pic.png" ]};
        uploader :=
          Some {| cache :=
                    {[ py "/v/attachments/pic.png_d41d8cd98f00b204e9800998ecf8427e"
                       := py "https://cdn/attachments/pic.png" ]};
                  stats := {| images := 1; pdfs := 0; other := 0;
                              failed := 0; skipped_dirs := 0 |};
                  calls := [ (py "/v/attachments/pic.png",
                              py "attachments") ] |} |}).
Proof.
  rewrite (proj1 (proj2 (image_references_rewritten
                           (H := Demo.urllib) (H0 := Demo.fs)
                           (H1 := Demo.hashlib) (H2 := Demo.provider_ok)
                           (py "/v/note.md") (py "/v")))
             _ _
             [ ([], py "![a](pic.png)", (py "a", py "pic.png"));
               (py " then ", py "![b](https://h/x.png)",
                (py "b", py "https://h/x.png"));
               (py " and ", py "![c](pic.png)", (py "c", py "pic.png"));
               (py " ", py "![d](missing.png)", (py "d", py "missing.png")) ]
             []).
  - by_evaluation.
  - apply images_by_scan. by_evaluation.
Defined.

(** ** The inline formatter *)

Lemma is_markup_false c :
  is_markup c = false ->
  c <> "["%char /\ c <> ")"%char /\ c <> "`"%char /\ c <> "~"%char
  /\ c <> "*"%char /\ c <> "_"%char /\ c <> "!"%char.
Proof.
  unfold is_markup. rewrite !orb_false_iff, !char_is_false. tauto.
Qed.

Lemma unmarked_without c (s : str) :
  is_markup c = true -> unmarked s -> without c s.
Proof.
  intros Hc Hs. eapply Forall_impl; [exact Hs|].
  intros x Hx E. subst x. congruence.
Qed.

Lemma match_link_consuming : consuming match_link.
Proof.
  intros prev s g0 g rest. unfold match_link.
  destruct (bool_decide _); [discriminate|].
  destruct (expect (py "[") s) as [s1|] eqn:E1; [|discriminate].
  cbn [mbind option_bind].
  destruct (span (char_not "]") s1) as [d s2] eqn:Ed.
  destruct d as [|d0 d]; [discriminate|].
  destruct (expect (py "](") s2) as [s3|] eqn:E2; [|discriminate].
  cbn [mbind option_bind].
  destruct (span (char_not ")") s3) as [a s4] eqn:Ea.
  destruct a as [|a0 a]; [discriminate|].
  destruct (expect (py ")") s4) as [s5|] eqn:E3; [|discriminate].
  cbn [mbind option_bind].
  destruct (span (char_not ")") s5) as [b s6] eqn:Eb.
  apply expect_Some in E1, E2, E3.
  apply span_spec in Ed as (-> & _ & _). apply span_spec in Ea as (-> & _ & _).
  apply span_spec in Eb as (-> & _ & _).
  destruct (expect (py ")") s6) as [s7|] eqn:E4.
  - apply expect_Some in E4. intros [= <- <- <-]. subst.
    split; [|discriminate].
    unfold py. repeat progress (rewrite <- ?app_assoc; simpl).
    reflexivity.
  - intros [= <- <- <-]. subst. split; [|discriminate].
    unfold py. repeat progress (rewrite <- ?app_assoc; simpl).
    reflexivity.
Qed.

Lemma link_no_match prev pre rest :
  without "[" pre -> no_match_in match_link prev pre rest.
Proof.
  intros Hp. revert prev. induction Hp as [|c pre Hc Hp IH]; intros prev.
  - exact I.
  - split; [|apply IH]. unfold match_link.
    destruct (bool_decide _); [reflexivity|].
    simpl. apply Ascii.eqb_neq in Hc. rewrite Hc. reflexivity.
Qed.

Lemma codespan_no_match prev pre rest :
  without "`" pre -> no_match_in match_codespan prev pre rest.
Proof.
  intros Hp. revert prev. induction Hp as [|c pre Hc Hp IH]; intros prev.
  - exact I.
  - split; [|apply IH]. unfold match_codespan, m_enclosed.
    simpl. apply Ascii.eqb_neq in Hc. rewrite Hc. reflexivity.
Qed.

Lemma inline_no_match prev pre rest :
  unmarked pre -> no_match_in match_inline prev pre rest.
Proof.
  intros Hp. revert prev. induction Hp as [|c pre Hc Hp IH]; intros prev.
  - exact I.
  - split; [|apply IH].
    apply is_markup_false in Hc as (_ & _ & _ & Ht & Hs & Hu & _).
    apply Ascii.eqb_neq in Ht, Hs, Hu.
    unfold match_inline, m_enclosed. simpl. rewrite Ht, Hs, Hu. reflexivity.
Qed.

(** The link pattern at a link whose text has no closing bracket and whose
    target has no closing parenthesis, no closing parenthesis following. *)
Lemma match_link_at prev d t post :
  prev <> Some "!"%char ->
  d <> [] -> without "]" d -> t <> [] -> without ")" t -> without ")" post ->
  match_link prev ((py "[" ++ d ++ py "](" ++ t ++ py ")") ++ post)
  = Some (py "[" ++ d ++ py "](" ++ t ++ py ")", (d, t), post).
Proof.
  intros Hprev Hd Hd' Ht Ht' Hpost. unfold match_link.
  rewrite bool_decide_eq_false_2 by exact Hprev.
  rewrite <- !app_assoc. rewrite expect_app. cbn [mbind option_bind].
  rewrite (span_app (char_not "]") d (py "](" ++ t ++ py ")" ++ post));
    [|eapply Forall_impl; [exact Hd'|]; intros c Hc; apply char_not_true;
      exact Hc|reflexivity].
  destruct d as [|d0 d]; [congruence|].
  rewrite expect_app. cbn [mbind option_bind].
  rewrite (span_app (char_not ")") t (py ")" ++ post));
    [|eapply Forall_impl; [exact Ht'|]; intros c Hc; apply char_not_true;
      exact Hc|reflexivity].
  destruct t as [|t0 t]; [congruence|].
  rewrite expect_app. cbn [mbind option_bind].
  rewrite <- (app_nil_r post) at 1.
  rewrite (span_app (char_not ")") post []);
    [|eapply Forall_impl; [exact Hpost|]; intros c Hc; apply char_not_true;
      exact Hc|exact I].
  reflexivity.
Qed.

Lemma char_before_unmarked (pre : str) :
  unmarked pre -> char_before None pre <> Some "!"%char.
Proof.
  intros Hp. unfold char_before.
  destruct (last pre) as [c|] eqn:E; [|discriminate].
  intros [= ->]. apply last_Some in E as [l' ->].
  apply Forall_app in Hp as [_ Hp]. inversion Hp; subst. discriminate.
Qed.

(** The text after the link pass, for one link between unmarked texts. *)
Lemma link_pass_one pre d t post :
  unmarked pre -> d <> [] -> without "]" d -> t <> [] -> without ")" t ->
  unmarked post ->
  re_finditer match_link (pre ++ (py "[" ++ d ++ py "](" ++ t ++ py ")") ++ post)
  = ([(pre, py "[" ++ d ++ py "](" ++ t ++ py ")", (d, t))], post).
Proof.
  intros Hpre Hd Hd' Ht Ht' Hpost.
  apply (re_finditer_one match_link match_link_consuming).
  - apply link_no_match. apply unmarked_without; [reflexivity|exact Hpre].
  - apply match_link_at; try assumption.
    + apply char_before_unmarked. exact Hpre.
    + apply unmarked_without; [reflexivity|exact Hpost].
  - apply link_no_match. apply unmarked_without; [reflexivity|exact Hpost].
Qed.

Lemma codespan_pass_none pre post :
  unmarked pre -> unmarked post ->
  re_split match_codespan (pre ++ placeholder 0 ++ post)
  = [pre ++ placeholder 0 ++ post].
Proof.
  intros Hpre Hpost. unfold re_split.
  rewrite (re_finditer_none match_codespan match_codespan_consuming);
    [reflexivity|].
  apply no_match_in_app;
    [apply codespan_no_match; apply unmarked_without; [reflexivity|exact Hpre]|].
  apply no_match_in_app;
    [|apply codespan_no_match; apply unmarked_without;
      [reflexivity|exact Hpost]].
  repeat (split; [reflexivity|]). exact I.
Qed.

Lemma inline_pass_one pre post :
  unmarked pre -> unmarked post ->
  re_finditer match_inline (pre ++ placeholder 0 ++ post)
  = ([(pre, placeholder 0, py "0")], post).
Proof.
  intros Hpre Hpost.
  apply (re_finditer_one match_inline match_inline_consuming).
  - apply inline_no_match. exact Hpre.
  - destruct post as [|c post]; [reflexivity|].
    inversion Hpost as [|? ? Hc _]; subst.
    apply is_markup_false in Hc as (_ & _ & _ & _ & _ & Hu & _).
    unfold match_inline, m_enclosed. simpl.
    reflexivity.
  - apply inline_no_match. exact Hpost.
Qed.

Lemma placeholder_text_truthy pre post :
  truthy (pre ++ placeholder 0 ++ post) = true.
Proof. destruct pre; reflexivity. Qed.

Lemma placeholder_text_not_code pre post :
  unmarked pre -> startswith (py "`") (pre ++ placeholder 0 ++ post) = false.
Proof.
  intros Hpre. destruct Hpre as [|c pre Hc _]; [reflexivity|].
  apply is_markup_false in Hc as (_ & _ & Hb & _).
  unfold startswith. simpl. apply Ascii.eqb_neq in Hb. rewrite Hb.
  reflexivity.
Qed.

(** A link between two texts without markup characters: the text before,
    the link, the text after, as three runs (no run for an empty text).  The
    link is a run with the link text and the target when the target is a
    valid URL, and otherwise a plain run with the bracket syntax; each
    content is cut at 2000 characters. *)
Lemma link_between_plain_text `{UrlLib} pre d t post :
  unmarked pre -> d <> [] -> without "]" d -> t <> [] -> without ")" t ->
  unmarked post ->
  _parse_rich_text (pre ++ py "[" ++ d ++ py "](" ++ t ++ py ")" ++ post)
  = Ok ((if truthy pre then [plain_run (take 2000 pre)] else [])
        ++ [ if _is_valid_url t then link_run (take 2000 d) t
             else plain_run
                    (take 2000 (py "[" ++ d ++ py "](" ++ t ++ py ")")) ]
        ++ (if truthy post then [plain_run (take 2000 post)] else [])).
Proof.
  intros Hpre Hd Hd' Ht Ht' Hpost. unfold _parse_rich_text.
  replace (pre ++ py "[" ++ d ++ py "](" ++ t ++ py ")" ++ post)
    with (pre ++ (py "[" ++ d ++ py "](" ++ t ++ py ")") ++ post)
    by (rewrite <- !app_assoc; reflexivity).
  rewrite link_pass_one by assumption.
  cbn [save_links].
  rewrite codespan_pass_none by assumption.
  cbn [format_parts]. unfold format_part.
  rewrite placeholder_text_truthy.
  rewrite placeholder_text_not_code by assumption.
  cbn [negb andb].
  rewrite inline_pass_one by assumption.
  cbn [emit_matches]. unfold emit_match.
  replace (startswith (py "__LINK_") (placeholder 0)) with true
    by reflexivity.
  rewrite lookup_insert_eq.
  destruct (_is_valid_url t); destruct (truthy pre); destruct (truthy post);
    reflexivity.
Qed.


(** The example of the specification: markup characters inside the target
    of a link that stands alone are not read as emphasis. *)
Lemma link_target_with_asterisks `{UrlLib} :
  urlparse (py "http://x/*y*") = Some (py "http", py "x") ->
  _parse_rich_text (py "[a](http://x/*y*)")
  = Ok [link_run (py "a") (py "http://x/*y*")].
Proof.
  intros Hu. vm_compute in Hu. vm_compute. rewrite Hu. reflexivity.
Qed.

(** A link with a target that is not a URL, standing alone, becomes a plain
    run with the bracket syntax. *)
Lemma link_without_url_kept_as_text `{UrlLib} :
  urlparse (py "b") = Some ([], []) ->
  _parse_rich_text (py "[a](b)") = Ok [plain_run (py "[a](b)")].
Proof.
  intros Hu. vm_compute in Hu. vm_compute. rewrite Hu. reflexivity.
Qed.

(** C4 does not hold on the code: a link inside emphasis or inside a code
    span is replaced by its placeholder before the span is read, and the
    span then takes the placeholder as its text, so the run carries
    [__LINK_0__] and the link text and target are lost; this is so whatever
    the URL library answers, the target is never looked at. *)
Theorem link_inside_span_lost `{UrlLib} :
  _parse_rich_text (py "**[a](b)**")
  = Ok [annotated_run ann_bold (py "__LINK_0__")]
  /\ _parse_rich_text (py "~~[a](b)~~")
     = Ok [annotated_run ann_strikethrough (py "__LINK_0__")]
  /\ _parse_rich_text (py "`[a](b)`")
     = Ok [annotated_run ann_code (py "__LINK_0__")].
Proof. repeat split; vm_compute; reflexivity. Qed.

(** ** The formatter on texts with at most one span *)

Lemma free_of_without c chars (s : str) :
  In c chars -> free_of chars s -> without c s.
Proof.
  intros Hin Hs. eapply Forall_impl; [exact Hs|].
  intros x Hx. rewrite forallb_forall in Hx. specialize (Hx c Hin).
  apply negb_true_iff, Ascii.eqb_neq in Hx. exact Hx.
Qed.

Lemma m_enclosed_head_ne c lit p close x s :
  x <> c -> m_enclosed (c :: lit) p close (x :: s) = None.
Proof.
  intros Hx. unfold m_enclosed. rewrite expect_head_ne by exact Hx.
  reflexivity.
Qed.

Lemma m_enclosed_second_ne c1 c2 lit p close x s :
  x <> c2 -> m_enclosed (c1 :: c2 :: lit) p close (c1 :: x :: s) = None.
Proof.
  intros Hx. unfold m_enclosed. cbn [expect]. rewrite Ascii.eqb_refl.
  apply Ascii.eqb_neq in Hx. rewrite Hx. reflexivity.
Qed.

Lemma inline_no_match_chars prev pre rest :
  without "~" pre -> without "*" pre -> without "_" pre ->
  no_match_in match_inline prev pre rest.
Proof.
  intros Ht Hs Hu. revert prev.
  induction pre as [|c pre IH]; intros prev; [exact I|].
  inversion Ht as [|? ? Ht1 Ht2]; inversion Hs as [|? ? Hs1 Hs2];
    inversion Hu as [|? ? Hu1 Hu2]; subst.
  split; [|apply IH; assumption].
  unfold match_inline.
  rewrite (m_enclosed_head_ne "~" (py "~") _ _ c) by exact Ht1.
  rewrite (m_enclosed_head_ne "*" (py "*") _ _ c) by exact Hs1.
  rewrite (m_enclosed_head_ne "*" [] _ _ c) by exact Hs1.
  rewrite (m_enclosed_head_ne "_" (py "_LINK_") _ _ c) by exact Hu1.
  reflexivity.
Qed.

Lemma slice_inner_enclosed (open t close : str) :
  slice_inner (length open) (length close) (open ++ t ++ close) = t.
Proof.
  unfold slice_inner.
  replace (length (open ++ t ++ close) - length close)
    with (length (open ++ t)) by (rewrite !length_app; lia).
  rewrite app_assoc, take_app_length, drop_app_length. reflexivity.
Qed.

Lemma take_nonempty (s : str) : s <> [] -> take 2000 s <> [].
Proof. destruct s; [congruence|discriminate]. Qed.

Section SinglePart.
Context `{UrlLib}.

(** Without a link and without a code span the text is one part. *)
Lemma parse_single_part text :
  without "[" text -> without "`" text ->
  _parse_rich_text text
  = (rich_text ← format_part ∅ text;
     Ok (match rich_text with
         | [] => [plain_run []]
         | _ :: _ => rich_text
         end)).
Proof.
  intros Hl Hc. unfold _parse_rich_text.
  rewrite (re_finditer_none match_link match_link_consuming)
    by (apply link_no_match; exact Hl).
  cbn [save_links]. unfold re_split.
  rewrite (re_finditer_none match_codespan match_codespan_consuming)
    by (apply codespan_no_match; exact Hc).
  cbn [split_join format_parts].
  destruct (format_part ∅ text) as [runs|e]; [|reflexivity].
  cbn [mbind result_bind]. rewrite app_nil_r. reflexivity.
Qed.

(** A part that is one match of the span pattern. *)
Lemma format_part_one_match link_map (text body : str) :
  match_inline None (text ++ []) = Some (text, body, []) ->
  startswith (py "`") text = false ->
  format_part link_map text
  = (runs ← emit_match link_map text; Ok (runs ++ [])).
Proof.
  intros Hm Hs.
  pose proof (re_finditer_one match_inline match_inline_consuming
                [] text body [] I Hm I) as F.
  rewrite app_nil_r in F. cbn [app] in F.
  unfold format_part.
  assert (Ht : truthy text = true).
  { destruct text; [|reflexivity].
    apply match_inline_consuming in Hm as [_ Hne]. congruence. }
  rewrite Ht, Hs, F. cbn [negb andb emit_matches truthy].
  destruct (emit_match link_map text) as [runs|e]; [|reflexivity].
  simpl. rewrite !app_nil_r. reflexivity.
Qed.
End SinglePart.

Lemma startswith_without c (s : str) :
  without c s -> startswith [c] s = false.
Proof.
  intros Hs. destruct Hs as [|x s Hx _]; [reflexivity|].
  unfold startswith. cbn [expect]. apply Ascii.eqb_neq in Hx. rewrite Hx.
  reflexivity.
Qed.

Lemma lstrip_by_nil p (s : str) :
  lstrip_by p s = [] -> Forall (fun c => p c = true) s.
Proof.
  unfold lstrip_by. destruct (span p s) as [a r] eqn:E. simpl. intros ->.
  apply span_spec in E as (-> & Ha & _). rewrite app_nil_r. exact Ha.
Qed.

(** [strip] gives the empty text only for a text of white space. *)
Lemma strip_nil_spaces (s : str) :
  strip s = [] -> Forall (fun c => isspace c = true) s.
Proof.
  unfold strip, rstrip_by. intros E.
  apply (f_equal (@rev ascii)) in E. rewrite rev_involutive in E.
  cbn [rev] in E. apply lstrip_by_nil in E.
  apply Forall_rev in E. rewrite rev_involutive in E.
  unfold lstrip_by in *. destruct (span isspace s) as [a r] eqn:Es.
  simpl in E. apply span_spec in Es as (-> & Ha & Hr).
  destruct r as [|c r]; [rewrite app_nil_r; exact Ha|].
  inversion E; subst. congruence.
Qed.

Lemma literal_without (c : ascii) (a t b : str) :
  without c a -> without c t -> without c b -> without c (a ++ t ++ b).
Proof.
  intros Ha Ht Hb. apply Forall_app. split; [exact Ha|].
  apply Forall_app. split; assumption.
Qed.

Lemma endswith_enclosed (a t b : str) : endswith b (a ++ t ++ b) = true.
Proof.
  unfold endswith, startswith. rewrite !rev_app_distr, <- app_assoc.
  rewrite expect_app. reflexivity.
Qed.

Lemma plain_chars (s : str) :
  plain s ->
  without "[" s /\ without "`" s /\ without "~" s /\ without "*" s
  /\ without "_" s.
Proof.
  intros Hs. repeat split;
    (eapply free_of_without; [|exact Hs]); vm_compute; tauto.
Qed.

Lemma plain_no_span prev (s rest : str) :
  plain s -> no_match_in match_inline prev s rest.
Proof.
  intros (_ & _ & Ht & Hs & Hu)%plain_chars.
  apply inline_no_match_chars; assumption.
Qed.

Lemma startswith_app_nonempty c (a b : str) :
  a <> [] -> startswith [c] (a ++ b) = startswith [c] a.
Proof.
  intros Ha. destruct a as [|x a]; [congruence|].
  unfold startswith. cbn [app expect]. destruct (Ascii.eqb x c); reflexivity.
Qed.

Section FormatterParts.
Context `{UrlLib}.

Lemma format_part_plain link_map (s : str) :
  plain s -> format_part link_map s = Ok (text_run s).
Proof.
  intros Hs. unfold format_part, text_run. destruct (truthy s) eqn:E.
  - pose proof (startswith_without "`" s
                  (proj1 (proj2 (plain_chars s Hs)))) as Es.
    change ["`"%char] with (py "`") in Es. rewrite Es. cbn [negb andb].
    rewrite (re_finditer_none match_inline match_inline_consuming)
      by (apply plain_no_span; exact Hs).
    rewrite E. reflexivity.
  - reflexivity.
Qed.

Lemma format_part_span link_map (pre g0 body post : str) :
  plain pre -> plain post ->
  match_inline None (g0 ++ post) = Some (g0, body, post) ->
  startswith (py "`") g0 = false ->
  format_part link_map (pre ++ g0 ++ post)
  = (runs ← emit_match link_map g0;
     Ok (text_run pre ++ runs ++ text_run post)).
Proof.
  intros Hpre Hpost Hm Hs.
  assert (Hne : g0 <> [])
    by (apply match_inline_consuming in Hm as [_ Hne]; exact Hne).
  assert (F : re_finditer match_inline (pre ++ g0 ++ post)
              = ([(pre, g0, body)], post)).
  { apply (re_finditer_one match_inline match_inline_consuming).
    - apply plain_no_span; exact Hpre.
    - exact Hm.
    - apply plain_no_span; exact Hpost. }
  unfold format_part.
  assert (Ht : truthy (pre ++ g0 ++ post) = true)
    by (destruct pre; [destruct g0; [congruence|]|]; reflexivity).
  assert (Hb : startswith (py "`") (pre ++ g0 ++ post) = false).
  { change (py "`") with ["`"%char] in *. destruct pre as [|c pre].
    - cbn [app]. rewrite startswith_app_nonempty by exact Hne. exact Hs.
    - apply plain_chars in Hpre as (_ & Hc & _).
      inversion Hc as [|? ? Hx _]; subst.
      unfold startswith. cbn [app expect].
      apply Ascii.eqb_neq in Hx. rewrite Hx. reflexivity. }
  rewrite Ht, Hb, F. cbn [negb andb emit_matches].
  destruct (emit_match link_map g0) as [runs|e]; [|reflexivity].
  cbn [mbind result_bind]. rewrite app_nil_r, <- app_assoc. reflexivity.
Qed.

Lemma parse_span (pre g0 body post : str) (a : annotation) :
  plain pre -> plain post ->
  without "[" g0 -> without "`" g0 ->
  match_inline None (g0 ++ post) = Some (g0, body, post) ->
  emit_match ∅ g0 = Ok [annotated_run a (take 2000 body)] ->
  _parse_rich_text (pre ++ g0 ++ post)
  = Ok (text_run pre ++ [annotated_run a (take 2000 body)] ++ text_run post).
Proof.
  intros Hpre Hpost Hl Hc Hm He.
  apply plain_chars in Hpre as Hpre'. apply plain_chars in Hpost as Hpost'.
  rewrite parse_single_part by (apply literal_without; tauto).
  rewrite (format_part_span ∅ pre g0 body post Hpre Hpost Hm)
    by (apply (startswith_without "`" g0 Hc)).
  rewrite He. cbn [mbind result_bind].
  unfold text_run. destruct (truthy pre); reflexivity.
Qed.
End FormatterParts.

(** ** The renderer's inline methods, read back by the formatter *)

Lemma class_not c (t : str) :
  without c t -> Forall (fun x => char_not c x = true) t.
Proof.
  intros Ht. eapply Forall_impl; [exact Ht|].
  intros x Hx. apply char_not_true. exact Hx.
Qed.

Lemma match_inline_strikethrough (t post : str) :
  t <> [] -> without "~" t ->
  match_inline None (strikethrough t ++ post)
  = Some (strikethrough t, t, post).
Proof.
  intros Hne Ht. unfold match_inline, strikethrough.
  rewrite <- !app_assoc.
  rewrite (m_enclosed_app (py "~~") (char_not "~") (py "~~") t post);
    [reflexivity|exact Hne|apply class_not; exact Ht|reflexivity].
Qed.

Lemma match_inline_strong (t post : str) :
  t <> [] -> without "*" t ->
  match_inline None (strong t ++ post) = Some (strong t, t, post).
Proof.
  intros Hne Ht. unfold match_inline, strong.
  rewrite <- !app_assoc.
  assert (E1 : m_enclosed (py "~~") (char_not "~") (py "~~")
                 (py "**" ++ t ++ py "**" ++ post) = None)
    by (apply (m_enclosed_head_ne "~" (py "~") _ _ "*"); discriminate).
  rewrite E1. cbn [orelse].
  rewrite (m_enclosed_app (py "**") (char_not "*") (py "**") t post);
    [reflexivity|exact Hne|apply class_not; exact Ht|reflexivity].
Qed.

Lemma match_inline_emphasis (t post : str) :
  t <> [] -> without "*" t ->
  match_inline None (emphasis t ++ post) = Some (emphasis t, t, post).
Proof.
  intros Hne Ht. unfold match_inline, emphasis.
  rewrite <- !app_assoc.
  assert (E1 : m_enclosed (py "~~") (char_not "~") (py "~~")
                 (py "*" ++ t ++ py "*" ++ post) = None)
    by (apply (m_enclosed_head_ne "~" (py "~") _ _ "*"); discriminate).
  rewrite E1. cbn [orelse].
  destruct t as [|c t]; [congruence|]. inversion Ht as [|? ? Hc Ht']; subst.
  assert (E2 : m_enclosed (py "**") (char_not "*") (py "**")
                 (py "*" ++ (c :: t) ++ py "*" ++ post) = None)
    by (apply (m_enclosed_second_ne "*" "*" [] _ _ c); exact Hc).
  rewrite E2. cbn [orelse].
  rewrite (m_enclosed_app (py "*") (char_not "*") (py "*") (c :: t) post);
    [reflexivity|discriminate|apply class_not; exact Ht|reflexivity].
Qed.

Lemma match_codespan_at (t post : str) :
  t <> [] -> without "`" t ->
  match_codespan None (codespan t ++ post) = Some (codespan t, t, post).
Proof.
  intros Hne Hc. unfold match_codespan, codespan. rewrite <- !app_assoc.
  rewrite (m_enclosed_app (py "`") (char_not "`") (py "`") t post);
    [reflexivity|exact Hne|apply class_not; exact Hc|reflexivity].
Qed.

Section RoundTrips.
Context `{UrlLib}.

Lemma emit_strikethrough link_map (t : str) :
  emit_match link_map (strikethrough t)
  = Ok [annotated_run ann_strikethrough (take 2000 t)].
Proof.
  unfold emit_match.
  replace (startswith (py "__LINK_") (strikethrough t)) with false
    by reflexivity.
  replace (startswith (py "~~") (strikethrough t)) with true by reflexivity.
  unfold strikethrough.
  pose proof (slice_inner_enclosed (py "~~") t (py "~~")) as Es.
  change (length (py "~~")) with 2 in Es. rewrite Es. reflexivity.
Qed.

Lemma emit_strong link_map (t : str) :
  emit_match link_map (strong t) = Ok [annotated_run ann_bold (take 2000 t)].
Proof.
  unfold emit_match.
  replace (startswith (py "__LINK_") (strong t)) with false by reflexivity.
  replace (startswith (py "~~") (strong t)) with false by reflexivity.
  replace (startswith (py "**") (strong t)) with true by reflexivity.
  unfold strong.
  pose proof (slice_inner_enclosed (py "**") t (py "**")) as Es.
  change (length (py "**")) with 2 in Es. rewrite Es. reflexivity.
Qed.

Lemma emit_emphasis link_map (t : str) :
  t <> [] -> without "*" t ->
  emit_match link_map (emphasis t)
  = Ok [annotated_run ann_italic (take 2000 t)].
Proof.
  intros Hne Ht. unfold emit_match.
  replace (startswith (py "__LINK_") (emphasis t)) with false by reflexivity.
  replace (startswith (py "~~") (emphasis t)) with false by reflexivity.
  assert (E : startswith (py "**") (emphasis t) = false).
  { destruct t as [|c t]; [congruence|]. inversion Ht as [|? ? Hx _]; subst.
    unfold startswith, emphasis. simpl.
    apply Ascii.eqb_neq in Hx. rewrite Hx. reflexivity. }
  rewrite E.
  replace (startswith (py "*") (emphasis t)) with true by reflexivity.
  unfold emphasis.
  pose proof (slice_inner_enclosed (py "*") t (py "*")) as Es.
  change (length (py "*")) with 1 in Es. rewrite Es. reflexivity.
Qed.

Lemma format_part_codespan link_map (t : str) :
  t <> [] ->
  format_part link_map (codespan t)
  = Ok [annotated_run ann_code (take 2000 t)].
Proof.
  intros Hne. unfold format_part.
  replace (truthy (codespan t)) with true by reflexivity.
  replace (startswith (py "`") (codespan t)) with true by reflexivity.
  unfold codespan at 1. rewrite endswith_enclosed.
  unfold codespan.
  pose proof (slice_inner_enclosed (py "`") t (py "`")) as Es.
  change (length (py "`")) with 1 in Es. rewrite Es.
  destruct t; [congruence|]. reflexivity.
Qed.

Lemma parse_codespan (pre t post : str) :
  plain pre -> plain post -> t <> [] -> without "[" t -> without "`" t ->
  _parse_rich_text (pre ++ codespan t ++ post)
  = Ok (text_run pre ++ [annotated_run ann_code (take 2000 t)]
        ++ text_run post).
Proof.
  intros Hpre Hpost Hne Hl Hc.
  apply plain_chars in Hpre as Hpre'. apply plain_chars in Hpost as Hpost'.
  unfold _parse_rich_text.
  rewrite (re_finditer_none match_link match_link_consuming)
    by (apply link_no_match; apply literal_without; try tauto;
        apply literal_without; try assumption; without_literal).
  cbn [save_links]. unfold re_split.
  rewrite (re_finditer_one match_codespan match_codespan_consuming
             pre (codespan t) t post);
    [|apply codespan_no_match; tauto
     |apply match_codespan_at; assumption
     |apply codespan_no_match; tauto].
  cbn [split_join format_parts].
  rewrite (format_part_plain ∅ pre Hpre), (format_part_plain ∅ post Hpost).
  rewrite format_part_codespan by exact Hne.
  cbn [mbind result_bind]. rewrite app_nil_r.
  unfold text_run. destruct (truthy pre); reflexivity.
Qed.
End RoundTrips.

(** Proves [plain] and [unmarked] for a literal. *)
Ltac plain_literal :=
  unfold plain, free_of, unmarked, py; cbn [list_ascii_of_string];
  repeat (constructor; [reflexivity|]); constructor.

(** A text without markup comes back as one plain run, cut at 2000
    characters: a text in which no opening bracket, backtick, tilde,
    asterisk or underscore occurs is never split, never annotated and never
    linked; the empty text gives the single empty run. *)
Theorem plain_text_is_one_run `{UrlLib} (s : str) :
  plain s -> _parse_rich_text s = Ok [plain_run (take 2000 s)].
Proof.
  intros Hs. apply plain_chars in Hs as Hs'.
  rewrite parse_single_part by tauto.
  rewrite format_part_plain by exact Hs. cbn [mbind result_bind].
  unfold text_run. destruct s; reflexivity.
Qed.

Lemma plain_text_is_one_run_witness :
  _parse_rich_text (H := Demo.urllib) (py "Total (net): 3 > 2!")
  = Ok [plain_run (take 2000 (py "Total (net): 3 > 2!"))].
Proof.
  apply (plain_text_is_one_run (H := Demo.urllib)).
  plain_literal.
Defined.

(** What the renderer writes for strong, emphasised, struck-through and
    code text is read back by the formatter as one annotated run: between
    two texts without markup, [strong t] gives a bold run, [emphasis t] an
    italic run, [strikethrough t] a struck-through run and [codespan t] a
    code run, each with the content [t] cut at 2000 characters, the texts
    around it as plain runs (none for an empty text).  The text [t] is not
    empty and has no opening bracket and no backtick, and does not contain
    the character of its own marker. *)
Theorem span_between_plain_text `{UrlLib} (pre t post : str) :
  plain pre -> plain post -> t <> [] -> without "[" t -> without "`" t ->
  (without "*" t ->
   _parse_rich_text (pre ++ strong t ++ post)
   = Ok (text_run pre ++ [annotated_run ann_bold (take 2000 t)]
         ++ text_run post)
   /\ _parse_rich_text (pre ++ emphasis t ++ post)
      = Ok (text_run pre ++ [annotated_run ann_italic (take 2000 t)]
            ++ text_run post))
  /\ (without "~" t ->
      _parse_rich_text (pre ++ strikethrough t ++ post)
      = Ok (text_run pre ++ [annotated_run ann_strikethrough (take 2000 t)]
            ++ text_run post))
  /\ _parse_rich_text (pre ++ codespan t ++ post)
     = Ok (text_run pre ++ [annotated_run ann_code (take 2000 t)]
           ++ text_run post).
Proof.
  intros Hpre Hpost Hne Hl Hc. split; [|split].
  - intros Hs. split.
    + apply (parse_span pre (strong t) t post ann_bold); try assumption.
      * apply literal_without; [without_literal|exact Hl|without_literal].
      * apply literal_without; [without_literal|exact Hc|without_literal].
      * apply match_inline_strong; assumption.
      * apply emit_strong.
    + apply (parse_span pre (emphasis t) t post ann_italic); try assumption.
      * apply literal_without; [without_literal|exact Hl|without_literal].
      * apply literal_without; [without_literal|exact Hc|without_literal].
      * apply match_inline_emphasis; assumption.
      * apply emit_emphasis; assumption.
  - intros Ht.
    apply (parse_span pre (strikethrough t) t post ann_strikethrough);
      try assumption.
    + apply literal_without; [without_literal|exact Hl|without_literal].
    + apply literal_without; [without_literal|exact Hc|without_literal].
    + apply match_inline_strikethrough; assumption.
    + apply emit_strikethrough.
  - apply parse_codespan; assumption.
Qed.

Lemma span_between_plain_text_witness :
  _parse_rich_text (H := Demo.urllib) (py "a " ++ strong (py "b_c") ++ py "!")
  = Ok (text_run (py "a ") ++ [annotated_run ann_bold (take 2000 (py "b_c"))]
        ++ text_run (py "!")).
Proof.
  apply (proj1 (proj1 (span_between_plain_text (H := Demo.urllib)
                         (py "a ") (py "b_c") (py "!")
                         ltac:(plain_literal) ltac:(plain_literal)
                         ltac:(discriminate)
                         ltac:(without_literal) ltac:(without_literal))
                      ltac:(without_literal))).
Defined.

(** ** Links and placeholders *)

Lemma link_with_text `{FileSystem} (t u : str) :
  t <> [] -> strip u <> [] ->
  link_ (Some t) (Some u) = py "[" ++ t ++ py "](" ++ u ++ py ")".
Proof.
  intros Ht Hu. unfold link_.
  assert (Hu' : truthy u = true) by (destruct u; [exfalso; auto|reflexivity]).
  apply truthy_true in Hu, Ht. rewrite Hu, Hu'. cbn [negb orb].
  unfold str_or. rewrite Ht.
  destruct (existsb _ _); reflexivity.
Qed.

(** A link the renderer has written, with a text that has no closing
    bracket and a target that has no closing parenthesis, between two texts
    without markup characters, is read back by the formatter as one run
    between the plain runs of the texts around it: a run that links the text
    to the target when the target is a valid URL, and otherwise a plain run
    with the bracket syntax; each content is cut at 2000 characters. *)
Theorem rendered_link_read_back `{UrlLib} `{FileSystem} (pre t u post : str) :
  unmarked pre -> unmarked post ->
  t <> [] -> without "]" t -> strip u <> [] -> without ")" u ->
  _parse_rich_text (pre ++ link_ (Some t) (Some u) ++ post)
  = Ok (text_run pre
        ++ [ if _is_valid_url u then link_run (take 2000 t) u
             else plain_run
                    (take 2000 (py "[" ++ t ++ py "](" ++ u ++ py ")")) ]
        ++ text_run post).
Proof.
  intros Hpre Hpost Ht Ht' Hu Hu'.
  rewrite link_with_text by assumption.
  rewrite <- !app_assoc.
  apply link_between_plain_text; try assumption.
  destruct u; [exfalso; auto|discriminate].
Qed.

Lemma rendered_link_read_back_witness :
  _parse_rich_text (H := Demo.urllib)
    (py "see " ++ link_ (H := Demo.fs) (Some (py "the docs"))
                        (Some (py "https://x.org/a.pdf")) ++ py ".")
  = Ok (text_run (py "see ")
        ++ [ if _is_valid_url (H := Demo.urllib) (py "https://x.org/a.pdf")
             then link_run (take 2000 (py "the docs"))
                           (py "https://x.org/a.pdf")
             else plain_run
                    (take 2000 (py "[" ++ py "the docs" ++ py "]("
                                ++ py "https://x.org/a.pdf" ++ py ")")) ]
        ++ text_run (py ".")).
Proof.
  apply (rendered_link_read_back (H := Demo.urllib) (H0 := Demo.fs)
           (py "see ") (py "the docs") (py "https://x.org/a.pdf") (py ".")).
  - plain_literal.
  - plain_literal.
  - discriminate.
  - without_literal.
  - vm_compute. discriminate.
  - without_literal.
Defined.

Lemma isdigit_not_markup c :
  isdigit c = true ->
  c <> "["%char /\ c <> "`"%char /\ c <> "_"%char.
Proof.
  intros Hc. repeat split; intros ->; discriminate Hc.
Qed.

Lemma token_at (digits post : str) :
  digits <> [] -> Forall (fun c => isdigit c = true) digits ->
  match_inline None ((py "__LINK_" ++ digits ++ py "__") ++ post)
  = Some (py "__LINK_" ++ digits ++ py "__", digits, post).
Proof.
  intros Hne Hd. unfold match_inline. rewrite <- !app_assoc.
  assert (E1 : m_enclosed (py "~~") (char_not "~") (py "~~")
                 (py "__LINK_" ++ digits ++ py "__" ++ post) = None)
    by (apply (m_enclosed_head_ne "~" (py "~") _ _ "_"); discriminate).
  assert (E2 : m_enclosed (py "**") (char_not "*") (py "**")
                 (py "__LINK_" ++ digits ++ py "__" ++ post) = None)
    by (apply (m_enclosed_head_ne "*" (py "*") _ _ "_"); discriminate).
  assert (E3 : m_enclosed (py "*") (char_not "*") (py "*")
                 (py "__LINK_" ++ digits ++ py "__" ++ post) = None)
    by (apply (m_enclosed_head_ne "*" [] _ _ "_"); discriminate).
  rewrite E1, E2, E3. cbn [orelse].
  apply m_enclosed_app; [exact Hne|exact Hd|reflexivity].
Qed.

Lemma token_raises `{UrlLib} (pre digits post : str) :
  plain pre -> plain post ->
  digits <> [] -> Forall (fun c => isdigit c = true) digits ->
  _parse_rich_text (pre ++ (py "__LINK_" ++ digits ++ py "__") ++ post)
  = Raise (KeyError (py "__LINK_" ++ digits ++ py "__")).
Proof.
  intros Hpre Hpost Hne Hd.
  apply plain_chars in Hpre as Hpre'. apply plain_chars in Hpost as Hpost'.
  assert (Hl : without "[" (py "__LINK_" ++ digits ++ py "__")).
  { apply literal_without; [without_literal| |without_literal].
    eapply Forall_impl; [exact Hd|].
    intros c Hc. apply isdigit_not_markup in Hc. tauto. }
  assert (Hc : without "`" (py "__LINK_" ++ digits ++ py "__")).
  { apply literal_without; [without_literal| |without_literal].
    eapply Forall_impl; [exact Hd|].
    intros c Hx. apply isdigit_not_markup in Hx. tauto. }
  rewrite parse_single_part by (apply literal_without; tauto).
  rewrite (format_part_span ∅ pre _ digits post Hpre Hpost
             (token_at digits post Hne Hd)) by reflexivity.
  unfold emit_match. rewrite lookup_empty.
  replace (startswith (py "__LINK_") (py "__LINK_" ++ digits ++ py "__"))
    with true by (unfold startswith; rewrite expect_app; reflexivity).
  reflexivity.
Qed.

Lemma token_not_blank (pre digits post : str) :
  strip (pre ++ (py "__LINK_" ++ digits ++ py "__") ++ post) <> [].
Proof.
  intros E. apply strip_nil_spaces in E.
  apply Forall_app in E as [_ E]. apply Forall_app in E as [E _].
  inversion E as [|? ? Hc _]. discriminate Hc.
Qed.

(** A text that contains a placeholder of the formatter's own, the token
    [__LINK_], digits, [__], between texts without markup and thus without a
    link that would define it, makes the formatter raise [KeyError] with
    the token as key; so do the paragraph and the list-item handler for such
    a text, and a rendering stops with this exception at the first such
    paragraph when the events before it are handled. *)
Theorem stray_placeholder_raises `{UrlLib} (pre digits post : str) :
  plain pre -> plain post ->
  digits <> [] -> Forall (fun c => isdigit c = true) digits ->
  let token := py "__LINK_" ++ digits ++ py "__" in
  let text := pre ++ token ++ post in
  _parse_rich_text text = Raise (KeyError token)
  /\ (forall c, paragraph text c = Raise (KeyError token)
                /\ list_item text c = Raise (KeyError token))
  /\ (forall es1 es2 c c1,
        render es1 c = Ok c1 ->
        render (es1 ++ EvParagraph text :: es2) c = Raise (KeyError token)).
Proof.
  intros Hpre Hpost Hne Hd token text.
  pose proof (token_raises pre digits post Hpre Hpost Hne Hd) as R.
  fold token in R. fold text in R.
  assert (P : forall c, paragraph text c = Raise (KeyError token)).
  { intros c. unfold paragraph.
    pose proof (token_not_blank pre digits post) as Hb.
    apply truthy_true in Hb. fold token in Hb. fold text in Hb.
    rewrite Hb, R. reflexivity. }
  split; [exact R|]. split.
  - intros c. split; [apply P|]. unfold list_item. rewrite R. reflexivity.
  - intros es1 es2 c c1 R1. rewrite render_app, R1.
    cbn [mbind result_bind render handle]. rewrite P. reflexivity.
Qed.

Lemma stray_placeholder_raises_witness :
  paragraph (H := Demo.urllib) (py "see " ++ (py "__LINK_" ++ py "7" ++ py "__")
                                ++ py ".") new_converter
  = Raise (KeyError (py "__LINK_" ++ py "7" ++ py "__")).
Proof.
  pose proof (stray_placeholder_raises (H := Demo.urllib)
                (py "see ") (py "7") (py ".")
                ltac:(plain_literal) ltac:(plain_literal)
                ltac:(discriminate) ltac:(repeat constructor)) as (_ & P & _).
  exact (proj1 (P new_converter)).
Defined.

(** ** The links of runs *)

Section LinksChecked.
Context `{UrlLib}.

Lemma unlinked_checked c a :
  link_checked {| content := c; link := None; annotations := a |}.
Proof. exact I. Qed.

(** Closes [Forall link_checked] goals over explicit lists of runs
    without a link. *)
Ltac unlinked_runs :=
  repeat match goal with
    | |- Forall _ [] => constructor
    | |- Forall _ (_ :: _) => constructor
    | |- link_checked (plain_run _) => apply unlinked_checked
    | |- link_checked (annotated_run _ _) => apply unlinked_checked
    end.

Lemma emit_match_checked link_map matched_text runs :
  emit_match link_map matched_text = Ok runs -> Forall link_checked runs.
Proof.
  unfold emit_match.
  destruct (startswith (py "__LINK_") matched_text).
  { destruct (link_map !! matched_text) as [[d u]|]; [|discriminate].
    generalize (take 2000 (py "[" ++ d ++ py "](" ++ u ++ py ")")).
    intros literal.
    destruct (_is_valid_url u) eqn:E; intros [= <-]; unlinked_runs.
    split; [exact E|reflexivity]. }
  destruct (startswith (py "~~") matched_text);
    [intros [= <-]; unlinked_runs|].
  destruct (startswith (py "**") matched_text);
    [intros [= <-]; unlinked_runs|].
  destruct (startswith (py "*") matched_text);
    intros [= <-]; unlinked_runs.
Qed.

Lemma emit_matches_checked link_map ms runs :
  emit_matches link_map ms = Ok runs -> Forall link_checked runs.
Proof.
  revert runs. induction ms as [|[[gap mt] g] ms IH]; intros runs;
    cbn [emit_matches].
  - intros [= <-]. constructor.
  - destruct (emit_match link_map mt) as [r1|] eqn:E1; [|discriminate].
    destruct (emit_matches link_map ms) as [r2|] eqn:E2; [|discriminate].
    intros [= <-]. apply Forall_app. split.
    + destruct (truthy gap); unlinked_runs.
    + apply Forall_app. split; [eapply emit_match_checked; eauto|auto].
Qed.

Lemma format_part_checked link_map part runs :
  format_part link_map part = Ok runs -> Forall link_checked runs.
Proof.
  unfold format_part.
  destruct (negb (truthy part)); [intros [= <-]; constructor|].
  destruct (_ && _).
  - destruct (truthy _); intros [= <-]; unlinked_runs.
  - destruct (re_finditer match_inline part) as [ms remaining].
    destruct (emit_matches link_map ms) as [r|] eqn:E; [|discriminate].
    intros [= <-]. apply Forall_app. split.
    + eapply emit_matches_checked; eauto.
    + destruct (truthy remaining); unlinked_runs.
Qed.

Lemma format_parts_checked link_map parts runs :
  format_parts link_map parts = Ok runs -> Forall link_checked runs.
Proof.
  revert runs. induction parts as [|part parts IH]; intros runs;
    cbn [format_parts].
  - intros [= <-]. constructor.
  - destruct (format_part link_map part) as [r1|] eqn:E1; [|discriminate].
    destruct (format_parts link_map parts) as [r2|] eqn:E2; [|discriminate].
    intros [= <-]. apply Forall_app. split; [|auto].
    eapply format_part_checked; eauto.
Qed.

Lemma _parse_rich_text_checked text runs :
  _parse_rich_text text = Ok runs -> Forall link_checked runs.
Proof.
  unfold _parse_rich_text.
  destruct (re_finditer match_link text) as [lms ltail].
  destruct (save_links lms ltail 0 ∅) as [text1 link_map].
  destruct (format_parts link_map _) as [r|] eqn:E; [|discriminate].
  intros [= <-]. apply format_parts_checked in E.
  destruct r; [unlinked_runs|exact E].
Qed.

Lemma handle_checked e c c' :
  Forall block_links_checked (blocks c) -> handle e c = Ok c' ->
  Forall block_links_checked (blocks c').
Proof.
  intros Hc. destruct e; cbn [handle].
  - unfold heading. destruct (heading_types _); [|discriminate].
    intros [= <-]. apply Forall_app. split; [exact Hc|].
    constructor; [|constructor]. unfold block_links_checked.
    cbn [block_runs]. unlinked_runs.
  - unfold paragraph. destruct (negb _); [intros [= <-]; exact Hc|].
    destruct (_parse_rich_text text) as [r|] eqn:E; [|discriminate].
    intros [= <-]. apply Forall_app. split; [exact Hc|].
    constructor; [|constructor].
    eapply _parse_rich_text_checked; eauto.
  - unfold block_code. rewrite fold_append_blocks. intros [= <-].
    apply Forall_app. split; [exact Hc|].
    apply Forall_fmap. apply Forall_forall. intros chunk _.
    constructor; [exact I|constructor].
  - intros [= <-]. apply Forall_app. split; [exact Hc|].
    constructor; [|constructor]. unfold block_links_checked.
    cbn [block_runs]. unlinked_runs.
  - intros [= <-]. exact Hc.
  - unfold list_item.
    destruct (_parse_rich_text text) as [r|] eqn:E; [|discriminate].
    intros [= <-]. apply Forall_app. split; [exact Hc|].
    constructor; [|constructor].
    eapply _parse_rich_text_checked; eauto.
  - unfold image. destruct (_ || _); intros [= <-]; [exact Hc|].
    apply Forall_app. split; [exact Hc|].
    constructor; [|constructor]. unfold block_links_checked.
    destruct (truthy text); cbn [block_runs]; unlinked_runs.
  - intros [= <-]. apply Forall_app. split; [exact Hc|].
    constructor; [|constructor]. constructor.
Qed.
End LinksChecked.

(** No run reaches a block with a link the validation would refuse: in
    every block a rendering appends, a run that carries a link carries a
    target [_is_valid_url] accepts (a scheme [http] or [https] and a host,
    once closing parentheses at its end are set aside), and such a run has
    no annotation.  This holds for every sequence of events rendered
    without an exception from a state whose blocks have the property.  It
    says nothing of what a refused link becomes. *)
Theorem every_link_checked `{UrlLib} (es : list event) (c c' : Converter) :
  Forall block_links_checked (blocks c) -> render es c = Ok c' ->
  Forall block_links_checked (blocks c').
Proof.
  revert c. induction es as [|e es IH]; intros c Hc; simpl.
  - intros [= <-]. exact Hc.
  - destruct (handle e c) as [c1|] eqn:E; simpl; [|discriminate].
    apply IH. eapply handle_checked; eauto.
Qed.

Lemma every_link_checked_witness :
  exists c',
    render (H := Demo.urllib)
      [ EvParagraph (py "[a](http://x/y) and more");
        EvParagraph (py "[b](ftp://x/y)");
        EvListItem (py "**[e](http://x/z)**") ] new_converter = Ok c'
    /\ map block_runs (blocks c')
       = [ [ link_run (py "a") (py "http://x/y"); plain_run (py " and more") ];
           [ plain_run (py "[b](ftp://x/y)") ];
           [ annotated_run ann_bold (py "__LINK_0__") ] ]
    /\ Forall (block_links_checked (H := Demo.urllib)) (blocks c').
Proof.
  eexists. split; [vm_compute; reflexivity|]. split; [reflexivity|].
  eapply (every_link_checked (H := Demo.urllib)
            [ EvParagraph (py "[a](http://x/y) and more");
              EvParagraph (py "[b](ftp://x/y)");
              EvListItem (py "**[e](http://x/z)**") ] new_converter).
  - constructor.
  - vm_compute. reflexivity.
Defined.

(** ** A link target with a closing parenthesis inside *)

Lemma match_link_inner prev d a b post :
  prev <> Some "!"%char ->
  d <> [] -> without "]" d -> a <> [] -> without ")" a -> without ")" b ->
  match_link prev
    ((py "[" ++ d ++ py "](" ++ (a ++ py ")" ++ b) ++ py ")") ++ post)
  = Some (py "[" ++ d ++ py "](" ++ (a ++ py ")" ++ b) ++ py ")",
          (d, a ++ py ")" ++ b), post).
Proof.
  intros Hprev Hd Hd' Ha Ha' Hb. unfold match_link.
  rewrite bool_decide_eq_false_2 by exact Hprev.
  rewrite <- !app_assoc. rewrite expect_app. cbn [mbind option_bind].
  rewrite (span_app (char_not "]") d) by (apply class_not || reflexivity;
                                          assumption).
  destruct d as [|d0 d]; [congruence|].
  rewrite expect_app. cbn [mbind option_bind].
  rewrite (span_app (char_not ")") a) by (apply class_not || reflexivity;
                                          assumption).
  destruct a as [|a0 a]; [congruence|].
  rewrite expect_app. cbn [mbind option_bind].
  rewrite (span_app (char_not ")") b) by (apply class_not || reflexivity;
                                          assumption).
  rewrite expect_app. rewrite <- !app_assoc. reflexivity.
Qed.

Lemma one_link_parsed `{UrlLib} pre g0 d t post :
  unmarked pre -> unmarked post ->
  match_link (char_before None pre) (g0 ++ post) = Some (g0, (d, t), post) ->
  _parse_rich_text (pre ++ g0 ++ post)
  = Ok (text_run pre
        ++ [ if _is_valid_url t then link_run (take 2000 d) t
             else plain_run
                    (take 2000 (py "[" ++ d ++ py "](" ++ t ++ py ")")) ]
        ++ text_run post).
Proof.
  intros Hpre Hpost Hm. unfold _parse_rich_text.
  rewrite (re_finditer_one match_link match_link_consuming pre g0 (d, t) post);
    [|apply link_no_match; apply unmarked_without; [reflexivity|exact Hpre]
     |exact Hm
     |apply link_no_match; apply unmarked_without; [reflexivity|exact Hpost]].
  cbn [save_links].
  rewrite codespan_pass_none by assumption.
  cbn [format_parts]. unfold format_part.
  rewrite placeholder_text_truthy.
  rewrite placeholder_text_not_code by assumption.
  cbn [negb andb].
  rewrite inline_pass_one by assumption.
  cbn [emit_matches]. unfold emit_match.
  replace (startswith (py "__LINK_") (placeholder 0)) with true
    by reflexivity.
  rewrite lookup_insert_eq. unfold text_run.
  destruct (_is_valid_url t); destruct (truthy pre); destruct (truthy post);
    reflexivity.
Qed.

(** The target of a link runs over one closing parenthesis: in
    [[d](a)b)], where neither [a] nor [b] has a closing parenthesis, the
    target is [a)b], so a target with a pair of parentheses in it is kept
    whole; and when a second link follows in the same text, [b] reaches to
    the end of the target of that link, and the two links and the text
    between them are read as one link with the text of the first.  Between texts
    without markup characters the result is the run of that one link (or
    the plain bracket syntax when the target is refused). *)
Theorem link_target_over_parenthesis `{UrlLib} (pre d a b post : str) :
  unmarked pre -> unmarked post ->
  d <> [] -> without "]" d -> a <> [] -> without ")" a -> without ")" b ->
  let target := a ++ py ")" ++ b in
  _parse_rich_text (pre ++ (py "[" ++ d ++ py "](" ++ target ++ py ")") ++ post)
  = Ok (text_run pre
        ++ [ if _is_valid_url target then link_run (take 2000 d) target
             else plain_run
                    (take 2000 (py "[" ++ d ++ py "](" ++ target ++ py ")")) ]
        ++ text_run post).
Proof.
  intros Hpre Hpost Hd Hd' Ha Ha' Hb target.
  apply one_link_parsed; try assumption.
  apply match_link_inner; try assumption.
  apply char_before_unmarked. exact Hpre.
Qed.

Lemma link_target_over_parenthesis_witness :
  _parse_rich_text (H := Demo.urllib)
    (py "see " ++ (py "[" ++ py "one" ++ py "]("
                   ++ (py "http://x/1" ++ py ")" ++ py " and [two](http://x/2")
                   ++ py ")") ++ py ".")
  = Ok [ plain_run (py "see ");
         link_run (py "one") (py "http://x/1) and [two](http://x/2");
         plain_run (py ".") ].
Proof.
  pose proof (link_target_over_parenthesis (H := Demo.urllib)
                (py "see ") (py "one") (py "http://x/1")
                (py " and [two](http://x/2") (py ".")
                ltac:(plain_literal) ltac:(plain_literal)
                ltac:(discriminate) ltac:(without_literal)
                ltac:(discriminate) ltac:(without_literal)
                ltac:(without_literal)) as P.
  cbv zeta in P. rewrite P. vm_compute. reflexivity.
Defined.

(** ** The books of the uploader *)

Section UploaderBooks.
Context `{FileSystem} `{Hashlib} `{Provider}.

Lemma count_uploaded_total ext s :
  images (count_uploaded ext s) + pdfs (count_uploaded ext s)
  + other (count_uploaded ext s)
  = S (images s + pdfs s + other s)
  /\ failed (count_uploaded ext s) = failed s
  /\ skipped_dirs (count_uploaded ext s) = skipped_dirs s.
Proof.
  unfold count_uploaded.
  repeat case_bool_decide; simpl; (split; [|split; reflexivity]);
    generalize (images s) (pdfs s) (other s); intros; lia.
Qed.

Lemma books_balanced_later n u :
  books_balanced n u -> books_balanced (S n) u.
Proof.
  intros (Ht & Hlo & Hhi & Hn & Hf & Hc).
  refine (conj Ht (conj Hlo (conj Hhi (conj _ (conj Hf Hc))))). lia.
Qed.

Lemma upload_balanced n p h u r u' :
  upload p h u = Ok (r, u') ->
  books_balanced n u -> books_balanced (S n) u'.
Proof.
  intros E (Ht & Hlo & Hhi & Hn & Hf & Hc). revert E.
  unfold books_balanced, print_stats_total in *. unfold upload.
  destruct (path_exists p) as [[|]|] eqn:He;
    cbn [negb mbind result_bind]; [| |discriminate].
  2:{ intros [= <- <-]. simpl.
      refine (conj _ (conj _ (conj _ (conj _ (conj _ _)))));
        try assumption; lia. }
  destruct (path_is_file p) as [[|]|] eqn:Hp;
    cbn [negb mbind result_bind]; [| |discriminate].
  2:{ intros [= <- <-]. simpl.
      refine (conj _ (conj _ (conj _ (conj _ (conj _ _)))));
        try assumption; lia. }
  destruct (cache u !! _get_cache_key p) as [url|] eqn:Hk.
  { intros [= <- <-]. simpl.
    refine (conj _ (conj _ (conj _ (conj _ (conj _ _)))));
      try assumption; lia. }
  assert (Hold : map_Forall
            (fun k url =>
               url <> [] /\
               exists c, c ∈ calls u ++ [(p, h)] /\ k = _get_cache_key (fst c))
            (cache u)).
  { intros k url Hkv. destruct (Hc k url Hkv) as (Hne & c & Hin & ->).
    split; [exact Hne|]. exists c. split; [|reflexivity].
    apply elem_of_app. left. exact Hin. }
  assert (Hcalls : Forall (fun c => path_is_file (fst c) = Ok true)
                     (calls u ++ [(p, h)])).
  { apply Forall_app. split; [exact Hf|]. constructor; [exact Hp|constructor]. }
  destruct (provider_upload (calls u) p h) as [v|].
  - destruct (truthy v) eqn:Hv; intros [= <- <-].
    + cbn [snd cache stats calls].
      destruct (count_uploaded_total (lower (path_suffix p)) (stats u))
        as (E1 & E2 & E3).
      rewrite E1, E2, E3, (map_size_insert_None _ _ _ Hk), length_app.
      simpl. refine (conj _ (conj _ (conj _ (conj _ (conj _ _)))));
        try lia; try assumption.
      apply map_Forall_insert; [exact Hk|]. split; [|exact Hold].
      split; [apply truthy_true; exact Hv|].
      exists (p, h). split; [|reflexivity].
      apply elem_of_app. right. apply list_elem_of_singleton. reflexivity.
    + cbn [snd cache stats calls count_failed images pdfs other failed
           skipped_dirs]. rewrite length_app. simpl.
      refine (conj _ (conj _ (conj _ (conj _ (conj _ _)))));
        try lia; try assumption.
  - intros [= <- <-].
    cbn [snd cache stats calls count_failed images pdfs other failed
         skipped_dirs]. rewrite length_app. simpl.
    refine (conj _ (conj _ (conj _ (conj _ (conj _ _)))));
      try lia; try assumption.
Qed.

Lemma upload_each_balanced requests n u :
  books_balanced n u ->
  books_balanced (n + length requests) (upload_each requests u).
Proof.
  revert n u. induction requests as [|r requests IH]; intros n u Hu.
  - simpl. rewrite Nat.add_0_r. exact Hu.
  - cbn [upload_each fold_left length].
    replace (n + S (length requests)) with (S n + length requests) by lia.
    apply IH.
    destruct (upload (fst r) (snd r) u) as [[res u']|e] eqn:E.
    + eapply upload_balanced; eauto.
    + apply books_balanced_later. exact Hu.
Qed.

(** The cache only grows: a call of [upload] removes no entry and changes
    none. *)
Lemma upload_keeps_cache p h u r u' k url :
  upload p h u = Ok (r, u') ->
  cache u !! k = Some url -> cache u' !! k = Some url.
Proof.
  intros E Hk. revert E. unfold upload.
  destruct (path_exists p) as [[|]|]; cbn [negb mbind result_bind];
    [|intros [= <- <-]; exact Hk|discriminate].
  destruct (path_is_file p) as [[|]|]; cbn [negb mbind result_bind];
    [|intros [= <- <-]; exact Hk|discriminate].
  destruct (cache u !! _get_cache_key p) as [w|] eqn:E;
    [intros [= <- <-]; exact Hk|].
  destruct (provider_upload (calls u) p h) as [v|];
    [|intros [= <- <-]; exact Hk].
  destruct (truthy v); intros [= <- <-]; [|exact Hk].
  cbn [cache]. rewrite lookup_insert_ne; [exact Hk|]. congruence.
Qed.

Lemma upload_each_keeps_cache requests u k url :
  cache u !! k = Some url -> cache (upload_each requests u) !! k = Some url.
Proof.
  revert u. induction requests as [|r requests IH]; intros u Hk; [exact Hk|].
  cbn [upload_each fold_left]. apply IH.
  destruct (upload (fst r) (snd r) u) as [[res u']|e] eqn:E; [|exact Hk].
  eapply upload_keeps_cache; eauto.
Qed.
End UploaderBooks.

(** The books of the uploader balance after any sequence of calls of
    [upload] on a fresh uploader: the total [print_stats] reports is the
    number of entries of the cache; the provider was called once for each
    of them and at most once more for each failure counted; every call of
    [upload] is counted at most once (a call answered from the cache is
    not counted); the provider is only ever called for a regular file; and
    every cached URL is non-empty and stands under the key of a path the
    provider was called for. *)
Theorem uploader_books_balance `{FileSystem} `{Hashlib} `{Provider}
  (requests : list (str * str)) :
  books_balanced (length requests) (upload_each requests new_uploader).
Proof.
  apply (upload_each_balanced requests 0 new_uploader).
  unfold books_balanced, print_stats_total.
  cbn [new_uploader cache stats calls images pdfs other failed skipped_dirs].
  rewrite map_size_empty.
  refine (conj _ (conj _ (conj _ (conj _ (conj _ _))))).
  all: try (simpl; lia).
  - constructor.
  - apply map_Forall_empty.
Qed.

(** A URL once returned stays: when a call of [upload] for a path returns a
    non-empty URL, every later call for that path on the same uploader,
    after any number of calls for this or other paths and with any unique
    path, returns the same URL from the cache, without a call of the
    provider and without a change of the uploader (the files being what
    they were). *)
Theorem uploaded_url_stays `{FileSystem} `{Hashlib} `{Provider}
  (p h h' url : str) (u u1 : FileUploader) (requests : list (str * str)) :
  upload p h u = Ok (Some url, u1) -> url <> [] ->
  upload p h' (upload_each requests u1)
  = Ok (Some url, upload_each requests u1).
Proof.
  intros Hu Hne. apply truthy_true in Hne.
  destruct (upload_success p h u url u1 Hu Hne) as (Hf & Hc & _).
  apply upload_hit; [exact Hf|].
  apply upload_each_keeps_cache. exact Hc.
Qed.

(** At a concrete input: after the upload of [/v/a.png], uploads of another
    file and of a missing file, then [/v/a.png] again. *)
Lemma uploaded_url_stays_witness :
  let u1 :=
    {| cache :=
         {[ py "/v/a.png_d41d8cd98f00b204e9800998ecf8427e"
            := py "https://cdn/root/a.png" ]};
       stats := {| images := 1; pdfs := 0; other := 0; failed := 0;
                   skipped_dirs := 0 |};
       calls := [(py "/v/a.png", py "root")] |} in
  let u2 :=
    upload_each (H := Demo.fs) (H0 := Demo.hashlib) (H1 := Demo.provider_ok)
                [ (py "/v/b.png", py "root"); (py "/v/missing.png", py "root") ]
                u1 in
  upload (H := Demo.fs) (H0 := Demo.hashlib) (H1 := Demo.provider_ok)
         (py "/v/a.png") (py "root") new_uploader
  = Ok (Some (py "https://cdn/root/a.png"), u1)
  /\ calls u2 = [(py "/v/a.png", py "root"); (py "/v/b.png", py "root")]
  /\ upload (H := Demo.fs) (H0 := Demo.hashlib) (H1 := Demo.provider_ok)
            (py "/v/a.png") (py "elsewhere") u2
     = Ok (Some (py "https://cdn/root/a.png"), u2).
Proof.
  cbv zeta.
  assert (U : upload (H := Demo.fs) (H0 := Demo.hashlib)
                     (H1 := Demo.provider_ok)
                     (py "/v/a.png") (py "root") new_uploader
              = Ok (Some (py "https://cdn/root/a.png"),
                    {| cache :=
                         {[ py "/v/a.png_d41d8cd98f00b204e9800998ecf8427e"
                            := py "https://cdn/root/a.png" ]};
                       stats := {| images := 1; pdfs := 0; other := 0;
                                   failed := 0; skipped_dirs := 0 |};
                       calls := [(py "/v/a.png", py "root")] |}))
    by by_evaluation.
  refine (conj U (conj _ _)); [by_evaluation|].
  apply (uploaded_url_stays (H := Demo.fs) (H0 := Demo.hashlib)
           (H1 := Demo.provider_ok)
           (py "/v/a.png") (py "root") (py "elsewhere")
           (py "https://cdn/root/a.png") new_uploader _ _ U).
  discriminate.
Defined.

(** ** The attachment rewrite without an uploader *)

Section NoUploader.
Context `{UrlLib} `{FileSystem} `{Hashlib} `{Provider}.
Variables (md vault : str).

(** Without an uploader no reference is hosted. *)
Lemma host_reference_without_uploader src r :
  host_reference md vault src None = Ok r -> r = (None, None).
Proof.
  unfold host_reference.
  destruct (resolve_relative_path (unquote src) md vault) as [[fp|]|e];
    [|intros [= <-]; reflexivity|discriminate].
  destruct (negb (truthy fp)); [intros [= <-]; reflexivity|].
  destruct (path_is_file fp) as [[|]|e];
    [intros [= <-]; reflexivity|intros [= <-]; reflexivity|discriminate].
Qed.

Lemma rewrite_references_without_uploader ms tail :
  Forall is_image ms ->
  rewrite_references md vault ms tail ∅ None
  = (Ok (join ms tail), {| uploaded_images := ∅; uploader := None |})
  \/ exists e m,
       m ∈ ms /\ is_url (snd (snd m)) = false
       /\ host_reference md vault (snd (snd m)) None = Raise e
       /\ rewrite_references md vault ms tail ∅ None
          = (Raise e, {| uploaded_images := ∅; uploader := None |}).
Proof.
  intros Hms.
  induction Hms as [|[[gap g0] [alt src]] ms [-> Hp] Hms IH];
    [left; reflexivity|].
  cbn [rewrite_references].
  assert (Step :
    (let '(out, st) := rewrite_references md vault ms tail ∅ None in
     (match out with
      | Ok out => Ok (gap ++ image_syntax alt src ++ out)
      | Raise e => Raise e
      end, st))
    = (Ok (join ((gap, image_syntax alt src, (alt, src)) :: ms) tail),
       {| uploaded_images := ∅; uploader := None |})
    \/ exists e m,
         m ∈ (gap, image_syntax alt src, (alt, src)) :: ms
         /\ is_url (snd (snd m)) = false
         /\ host_reference md vault (snd (snd m)) None = Raise e
         /\ (let '(out, st) := rewrite_references md vault ms tail ∅ None in
             (match out with
              | Ok out => Ok (gap ++ image_syntax alt src ++ out)
              | Raise e => Raise e
              end, st))
            = (Raise e, {| uploaded_images := ∅; uploader := None |})).
  { destruct IH as [-> | (e & m & Hin & Hu & Hh & ->)].
    - left. reflexivity.
    - right. exists e, m. split; [right; exact Hin|]. auto. }
  destruct (is_url src) eqn:Hu; [exact Step|].
  rewrite lookup_empty.
  destruct (host_reference md vault src None) as [r|e] eqn:Hh.
  - apply host_reference_without_uploader in Hh. subst r. exact Step.
  - right. exists e, (gap, image_syntax alt src, (alt, src)).
    split; [left|]. auto.
Qed.

(** When no reference raises, the text is returned as it is. *)
Lemma rewrite_references_quiet ms tail :
  Forall is_image ms ->
  Forall (fun m =>
            is_url (snd (snd m)) = false ->
            exists r, host_reference md vault (snd (snd m)) None = Ok r) ms ->
  rewrite_references md vault ms tail ∅ None
  = (Ok (join ms tail), {| uploaded_images := ∅; uploader := None |}).
Proof.
  intros Hms Hq.
  destruct (rewrite_references_without_uploader ms tail Hms)
    as [E | (e & m & Hin & Hu & Hh & _)]; [exact E|].
  rewrite Forall_forall in Hq. destruct (Hq m Hin Hu) as [r Hr]. congruence.
Qed.
End NoUploader.

Lemma occurrences_join {G} (syntax : str -> str -> G -> str -> Prop)
  ms tail s :
  occurrences syntax ms tail s -> join ms tail = s.
Proof.
  induction 1 as [tail Hn | gap g0 g rest ms tail Hn Hs Ho IH];
    [reflexivity|].
  unfold join in *. simpl. rewrite IH. reflexivity.
Qed.

(** Without an uploader (the default of [parse_markdown_to_blocks]) the
    image pass uploads nothing and changes no text.  When resolution raises
    at no image reference of the text the link normalizer wrote (a
    reference to a URL is not resolved), the markdown parser receives
    exactly that text, and the result is the blocks of its events, or their
    exception.  In every case the result is that one or the error raised
    while one of the references that are no URL was resolved, and the
    uploader stays absent. *)
Theorem parse_without_uploader `{UrlLib} `{FileSystem} `{Hashlib} `{Provider}
  `{MarkdownParser} (content vault_dir markdown_file_path : str)
  (page_map : gmap (list ascii) str)
  (ms : list (str * str * (str * str))) (tail : str) :
  occurrences image_reference ms tail
              (convert_obsidian_links content page_map) ->
  (Forall (fun m =>
             is_url (snd (snd m)) = false ->
             exists r,
               host_reference markdown_file_path vault_dir (snd (snd m)) None
               = Ok r) ms ->
   parse_markdown_to_blocks content vault_dir markdown_file_path page_map None
   = (c ← render (markdown_events (convert_obsidian_links content page_map))
                 new_converter;
      Ok (blocks c),
      None))
  /\ (parse_markdown_to_blocks content vault_dir markdown_file_path page_map
                               None
      = (c ← render (markdown_events
                       (convert_obsidian_links content page_map))
                    new_converter;
         Ok (blocks c),
         None)
      \/ exists e m,
           m ∈ ms /\ is_url (snd (snd m)) = false
           /\ host_reference markdown_file_path vault_dir (snd (snd m)) None
              = Raise e
           /\ parse_markdown_to_blocks content vault_dir markdown_file_path
                                       page_map None
              = (Raise e, None)).
Proof.
  intros Ho.
  pose proof (occurrences_are_images _ _ _ Ho) as Hms.
  pose proof (occurrences_join _ _ _ _ Ho) as J.
  assert (R : rewrite_images markdown_file_path vault_dir
                (convert_obsidian_links content page_map) None
              = rewrite_references markdown_file_path vault_dir ms tail
                                   ∅ None).
  { unfold rewrite_images. rewrite (images_re_finditer _ _ _ Ho).
    rewrite replace_images_spec by exact Hms. reflexivity. }
  unfold parse_markdown_to_blocks. rewrite R. split.
  - intros Hq. rewrite rewrite_references_quiet by assumption.
    rewrite J. reflexivity.
  - destruct (rewrite_references_without_uploader
                markdown_file_path vault_dir ms tail Hms)
      as [-> | (e & m & Hin & Hu & Hh & ->)].
    + left. rewrite J. reflexivity.
    + right. exists e, m. auto.
Qed.

(** At a concrete input: a note with a reference to a file and a reference
    to a URL becomes one paragraph with its text unchanged. *)
Lemma parse_without_uploader_witness :
  parse_markdown_to_blocks
    (H := Demo.urllib) (H0 := Demo.fs) (H1 := Demo.hashlib)
    (H2 := Demo.provider_ok) (H3 := Demo.one_paragraph)
    (py "![[pic.png]] and ![b](http://h/x.png)") (py "/v") (py "/v/note.md")
    ∅ None
  = (Ok [ParagraphBlock
           [plain_run (py "![](pic.png) and ![b](http://h/x.png)")]],
     None).
Proof.
  apply (proj1 (parse_without_uploader
                  (H := Demo.urllib) (H0 := Demo.fs) (H1 := Demo.hashlib)
                  (H2 := Demo.provider_ok) (H3 := Demo.one_paragraph)
                  (py "![[pic.png]] and ![b](http://h/x.png)")
                  (py "/v") (py "/v/note.md") ∅
                  [ ([], py "![](pic.png)", ([], py "pic.png"));
                    (py " and ", py "![b](http://h/x.png)",
                     (py "b", py "http://h/x.png")) ]
                  []
                  ltac:(apply images_by_scan; by_evaluation))).
  repeat constructor.
  - intros _. eexists. vm_compute. reflexivity.
  - intros Hu. vm_compute in Hu. discriminate.
Defined.

(** ** The builder only appends *)

Section Appends.
Context `{UrlLib}.

Lemma handle_appends e c :
  handle e c
  = (r ← handle e (without_blocks c);
     Ok {| blocks := blocks c ++ blocks r;
           current_list_type := current_list_type r |}).
Proof.
  destruct e; cbn [handle].
  - unfold heading. destruct (heading_types _); [|reflexivity]. reflexivity.
  - unfold paragraph. destruct (negb _).
    + cbn [mbind result_bind without_blocks blocks current_list_type].
      rewrite app_nil_r. destruct c; reflexivity.
    + destruct (_parse_rich_text text); reflexivity.
  - unfold block_code. rewrite !fold_append_blocks. reflexivity.
  - reflexivity.
  - cbn [list_ mbind result_bind without_blocks blocks current_list_type].
    rewrite app_nil_r. reflexivity.
  - unfold list_item. destruct (_parse_rich_text text); reflexivity.
  - unfold image. destruct (_ || _).
    + cbn [mbind result_bind without_blocks blocks current_list_type].
      rewrite app_nil_r. destruct c; reflexivity.
    + reflexivity.
  - reflexivity.
Qed.
End Appends.

(** The builder only appends: a rendering never removes, changes or
    reorders a block that is already there, and what it appends does not
    depend on those blocks.  For every sequence of events, rendering from a
    state gives the blocks of that state followed by the blocks the same
    events give from the state with no blocks, and raises when that
    rendering raises. *)
Theorem render_only_appends `{UrlLib} (es : list event) (c : Converter) :
  render es c
  = (r ← render es (without_blocks c);
     Ok {| blocks := blocks c ++ blocks r;
           current_list_type := current_list_type r |}).
Proof.
  revert c. induction es as [|e es IH]; intros c.
  - cbn [render mbind result_bind without_blocks blocks current_list_type].
    rewrite app_nil_r. destruct c; reflexivity.
  - cbn [render]. rewrite (handle_appends e c).
    destruct (handle e (without_blocks c)) as [c1|x]; [|reflexivity].
    cbn [mbind result_bind]. rewrite IH. rewrite (IH c1).
    cbn [without_blocks current_list_type].
    destruct (render es _) as [r|x]; [|reflexivity].
    cbn [mbind result_bind blocks current_list_type].
    rewrite app_assoc. reflexivity.
Qed.

(** ** [create_notion_page] *)

Section CreatePageFacts.
Context `{UrlLib} `{FileSystem} `{Hashlib} `{Provider} `{MarkdownParser}
        `{NotionApi}.

Lemma create_notion_page_page title content vault md page_map u log
  page u' log' :
  create_notion_page title content vault md page_map u log
  = (Some page, u', log') ->
  pages_create (take 2000 title) = Some page.
Proof.
  unfold create_notion_page.
  destruct (pages_create (take 2000 title)) as [new_page|]; [|discriminate].
  destruct (parse_markdown_to_blocks _ _ _ _ _) as [[bs|x] u1];
    [|discriminate].
  destruct (submit_blocks bs log) as [[|e] l]; [|discriminate].
  intros [= <- _ _]. reflexivity.
Qed.
End CreatePageFacts.

(** A page is reported only when it is complete: when [create_notion_page]
    returns the id and the URL of a page, the page was created under the
    title cut at 2000 characters, the text was parsed without an exception,
    and the calls made on the API since are the blocks of the text, each
    block once, in order, in calls of 1 to 100 blocks none of which
    failed. *)
Theorem created_page_is_complete `{UrlLib} `{FileSystem} `{Hashlib}
  `{Provider} `{MarkdownParser} `{NotionApi}
  (title content vault_dir markdown_file_path : str)
  (page_map : gmap (list ascii) str) (u u' : option FileUploader)
  (log log' : list (list Block * option str)) (page : str * str) :
  create_notion_page title content vault_dir markdown_file_path page_map u log
  = (Some page, u', log') ->
  pages_create (take 2000 title) = Some page
  /\ exists parsed new,
       parse_markdown_to_blocks content vault_dir markdown_file_path
                                page_map u = (Ok parsed, u')
       /\ log' = log ++ new
       /\ concat (map fst new) = parsed
       /\ Forall (fun call => snd call = None /\ 0 < length (fst call) <= 100)
                 new.
Proof.
  intros E. split; [eapply create_notion_page_page; exact E|].
  revert E. unfold create_notion_page.
  destruct (pages_create (take 2000 title)) as [new_page|]; [|discriminate].
  destruct (parse_markdown_to_blocks _ _ _ _ _) as [[bs|x] u1];
    [|discriminate].
  destruct (submit_blocks bs log) as [[|e] l] eqn:S; [|discriminate].
  intros [= _ <- <-].
  rewrite submit_blocks_batches in S. apply submit_batches_returns in S.
  exists bs, (map (fun b => (b, None)) (chunks batch_size bs)).
  split; [reflexivity|]. split; [exact S|]. split.
  - rewrite map_map. cbn [fst]. rewrite map_id.
    apply chunks_concat. unfold batch_size. lia.
  - apply Forall_fmap.
    pose proof (chunks_bounded batch_size bs) as Hb.
    pose proof (chunks_nonempty batch_size bs
                  ltac:(unfold batch_size; lia)) as Hn.
    rewrite Forall_forall in *. intros b Hin. cbn [fst snd].
    specialize (Hb b Hin). specialize (Hn b Hin). unfold batch_size in Hb.
    split; [reflexivity|]. destruct b; [congruence|simpl in *; lia].
Qed.

(** At a concrete input: a note with one image, on an API that accepts the
    call. *)
Lemma created_page_is_complete_witness :
  exists parsed new,
    parse_markdown_to_blocks (H := Demo.urllib) (H0 := Demo.fs)
      (H1 := Demo.hashlib) (H2 := Demo.provider_ok) (H3 := Demo.one_paragraph)
      (py "see ![pic](a.png)") (py "/v") (py "/v/note.md") ∅
      (Some new_uploader)
    = (Ok parsed,
       Some {| cache :=
                 {[ py "/v/a.png_d41d8cd98f00b204e9800998ecf8427e"
                    := py "https://cdn/root/a.png" ]};
               stats := {| images := 1; pdfs := 0; other := 0; failed := 0;
                           skipped_dirs := 0 |};
               calls := [(py "/v/a.png", py "root")] |})
    /\ [ ([ParagraphBlock
             [plain_run (py "see ![pic](https://cdn/root/a.png)")]],
          @None str) ]
       = [] ++ new
    /\ concat (map fst new) = parsed
    /\ Forall (fun call => snd call = None /\ 0 < length (fst call) <= 100)
              new.
Proof.
  apply (proj2 (created_page_is_complete (H := Demo.urllib) (H0 := Demo.fs)
           (H1 := Demo.hashlib) (H2 := Demo.provider_ok)
           (H3 := Demo.one_paragraph) (H4 := Demo.notion_failing_at 1)
           (py "note") (py "see ![pic](a.png)") (py "/v") (py "/v/note.md") ∅
           (Some new_uploader) _ [] _ (py "id", py "https://notion/id")
           ltac:(by_evaluation))).
Defined.

(** ** The loop of [main] *)

Section MainFacts.
Context `{UrlLib} `{FileSystem} `{Hashlib} `{Provider} `{MarkdownParser}
        `{NotionApi} `{TextFiles}.

Lemma balanced_more_done done md_file m :
  map_Forall
    (fun title url =>
       exists f page_id,
         f ∈ done /\ path_stem f = title
         /\ pages_create (take 2000 title) = Some (page_id, url)
         /\ page_id <> [])
    (m_page_map m) ->
  map_Forall
    (fun title url =>
       exists f page_id,
         f ∈ done ++ [md_file] /\ path_stem f = title
         /\ pages_create (take 2000 title) = Some (page_id, url)
         /\ page_id <> [])
    (m_page_map m).
Proof.
  intros Hm title url E.
  destruct (Hm title url E) as (f & page_id & Hin & Hs & Hp & Hne).
  exists f, page_id. split; [|auto]. apply elem_of_app. left. exact Hin.
Qed.

Lemma migrate_file_balanced vault_dir done md_file m :
  migration_balanced done m ->
  migration_balanced (done ++ [md_file]) (migrate_file vault_dir md_file m).
Proof.
  intros (Hc & Hs & Hm). apply (balanced_more_done done md_file) in Hm.
  unfold migration_balanced, migrate_file. rewrite length_app. cbn [length].
  destruct (read_text md_file) as [content|].
  2:{ cbn [successful failed_files m_page_map].
      split; [lia|]. split; [exact Hs|exact Hm]. }
  destruct (path_resolve md_file) as [markdown_file_path|e].
  2:{ cbn [successful failed_files m_page_map].
      split; [lia|]. split; [exact Hs|exact Hm]. }
  destruct (create_notion_page _ _ _ _ _ _ _) as [[page u] log] eqn:E.
  destruct page as [[page_id page_url]|].
  2:{ cbn [successful failed_files m_page_map].
      split; [lia|]. split; [exact Hs|exact Hm]. }
  destruct (truthy page_id) eqn:Ht.
  2:{ cbn [successful failed_files m_page_map].
      split; [lia|]. split; [exact Hs|exact Hm]. }
  cbn [successful failed_files m_page_map].
  split; [lia|]. split.
  - pose proof (map_size_insert (path_stem md_file) page_url (m_page_map m))
      as Hi.
    destruct (m_page_map m !! path_stem md_file); unfold id in Hi; lia.
  - apply map_Forall_insert_2; [|exact Hm].
    exists md_file, page_id. split.
    { apply elem_of_app. right. apply list_elem_of_singleton. reflexivity. }
    split; [reflexivity|]. split.
    + eapply create_notion_page_page. exact E.
    + apply truthy_true. exact Ht.
Qed.

Lemma migrate_files_balanced vault_dir done markdown_files m :
  migration_balanced done m ->
  migration_balanced (done ++ markdown_files)
                     (migrate_files vault_dir markdown_files m).
Proof.
  revert done m.
  induction markdown_files as [|f fs IH]; intros done m Hm.
  - rewrite app_nil_r. exact Hm.
  - cbn [migrate_files fold_left].
    replace (done ++ f :: fs) with ((done ++ [f]) ++ fs)
      by (rewrite <- app_assoc; reflexivity).
    apply IH. apply migrate_file_balanced. exact Hm.
Qed.

Lemma migration_start_balanced : migration_balanced [] migration_start.
Proof.
  unfold migration_balanced, migration_start.
  cbn [successful failed_files m_page_map length].
  rewrite map_size_empty. split; [reflexivity|]. split; [lia|].
  apply map_Forall_empty.
Qed.
End MainFacts.

(** A wiki-link to a note that has not been migrated yet loses its target:
    while the files [before] have been migrated and none of them has the
    stem [page], the page map handed to the next file has no entry for
    [page], and the link normalizer writes the wiki-link [[[page]]] of that
    file as the plain text [page], whether or not a file of that name
    follows later in the list. *)
Theorem forward_wiki_link_flattened `{UrlLib} `{FileSystem} `{Hashlib}
  `{Provider} `{MarkdownParser} `{NotionApi} `{TextFiles}
  (vault_dir : str) (before : list str) (pre page post : str) :
  (forall md_file, md_file ∈ before -> path_stem md_file <> page) ->
  without "[" pre -> last pre <> Some "!"%char ->
  page <> [] -> without "[" page -> without "]" page -> without "|" page ->
  without "[" post ->
  let m := migrate_files vault_dir before migration_start in
  m_page_map m !! page = None
  /\ convert_obsidian_links (pre ++ py "[[" ++ page ++ py "]]" ++ post)
                            (m_page_map m)
     = pre ++ page ++ post.
Proof.
  intros Hb Hpre Hlast Hne Hpo Hpc Hpp Hpost m.
  assert (Hnone : m_page_map m !! page = None).
  { destruct (m_page_map m !! page) as [url|] eqn:E; [|reflexivity].
    pose proof (migrate_files_balanced vault_dir [] before migration_start
                  migration_start_balanced) as (_ & _ & Hm).
    destruct (Hm page url E) as (f & _ & Hin & Hs & _).
    exfalso. exact (Hb f Hin Hs). }
  split; [exact Hnone|].
  unfold convert_obsidian_links.
  replace (pre ++ py "[[" ++ page ++ py "]]" ++ post)
    with (pre ++ (py "[[" ++ page ++ py "]]") ++ post)
    by (rewrite <- !app_assoc; reflexivity).
  rewrite convert_embeds_wiki by assumption.
  rewrite convert_wiki_links_one by assumption.
  unfold replace_wiki_link. rewrite split_pipe_without_pipe by exact Hpp.
  rewrite Hnone. reflexivity.
Qed.

(** At a concrete input: the note [/v/note.md] links to [other], which is
    migrated after it. *)
Lemma forward_wiki_link_flattened_witness :
  let m :=
    migrate_files (H := Demo.urllib) (H0 := Demo.fs) (H1 := Demo.hashlib)
      (H2 := Demo.provider_ok) (H3 := Demo.one_paragraph)
      (H4 := Demo.notion_failing_at 9) (H5 := Demo.text_files)
      (py "/v") [py "/v/note.md"] migration_start in
  m_page_map m !! py "other" = None
  /\ convert_obsidian_links
       (py "see " ++ py "[[" ++ py "other" ++ py "]]" ++ py ".")
       (m_page_map m)
     = py "see " ++ py "other" ++ py ".".
Proof.
  apply (forward_wiki_link_flattened (H := Demo.urllib) (H0 := Demo.fs)
           (H1 := Demo.hashlib) (H2 := Demo.provider_ok)
           (H3 := Demo.one_paragraph) (H4 := Demo.notion_failing_at 9)
           (H5 := Demo.text_files)
           (py "/v") [py "/v/note.md"] (py "see ") (py "other") (py "."));
    try without_literal; try discriminate.
  intros md_file Hin. apply list_elem_of_singleton in Hin. subst md_file.
  vm_compute. discriminate.
Defined.

Section MainResult.
Context `{UrlLib} `{FileSystem} `{Hashlib} `{Provider} `{MarkdownParser}
        `{NotionApi} `{TextFiles}.

(** The test of [get_markdown_files]: no part of the path is an excluded
    folder. *)
Lemma not_excluded md_file :
  negb (existsb
          (fun excluded => bool_decide (excluded ∈ path_parts md_file))
          default_exclude_folders) = true
  <-> Forall (fun part => part ∉ default_exclude_folders)
             (path_parts md_file).
Proof.
  rewrite negb_true_iff, Forall_forall. split.
  - intros Hex part Hpart Hx.
    assert (E : existsb
                  (fun excluded => bool_decide (excluded ∈ path_parts md_file))
                  default_exclude_folders = true).
    { apply existsb_exists. exists part. split.
      - apply list_elem_of_In. exact Hx.
      - apply bool_decide_eq_true_2. exact Hpart. }
    congruence.
  - intros Hn.
    destruct (existsb _ default_exclude_folders) eqn:E; [|reflexivity].
    apply existsb_exists in E as (part & Hx & Hpart).
    apply bool_decide_eq_true_1 in Hpart. apply list_elem_of_In in Hx.
    destruct (Hn part Hpart Hx).
Qed.

Lemma get_markdown_files_found vault_dir found :
  rglob vault_dir (py "*.md") = (found, None) ->
  get_markdown_files vault_dir None
  = Ok (filter (fun md_file =>
                  Forall (fun part => part ∉ default_exclude_folders)
                         (path_parts md_file)) found).
Proof.
  intros E. unfold get_markdown_files. rewrite E. f_equal.
  apply list_filter_iff. intros md_file. apply not_excluded.
Qed.
End MainResult.

(** What [main] does once the arguments are read.  It raises where the
    vault path cannot be made absolute, where the test that it exists
    raises, and where the search for [*.md] raises.  It does nothing when
    the vault is not found.  Otherwise its result is the state after the
    files the search found under the vault, those without [.obsidian],
    [.trash] or [.git] among the parts of their path, each migrated once, in
    the order found, from the empty books; and the books balance over
    exactly these files.
    One file is migrated as follows.  When its text cannot be read or its
    path cannot be made absolute, it is counted as failed and nothing else
    changes: no call is made on the API.  Otherwise [create_notion_page] is
    called with the stem of the file as title, the page map as it is and
    the uploader all files share; when it returns a page with an id that is
    not empty, the page map gets the URL of the page under the stem and the
    file is counted as successful; in every other case the file is counted
    as failed and the page map stays.  The uploader and the record of API
    calls are those the call leaves. *)
Theorem main_migrates_listed_files `{UrlLib} `{FileSystem} `{Hashlib}
  `{Provider} `{MarkdownParser} `{NotionApi} `{TextFiles} (vault_dir : str) :
  match main vault_dir with
  | Raise e =>
      path_resolve vault_dir = Raise e
      \/ exists root,
           path_resolve vault_dir = Ok root
           /\ (path_exists root = Raise e
               \/ (path_exists root = Ok true
                   /\ snd (rglob root (py "*.md")) = Some e))
  | Ok None =>
      exists root,
        path_resolve vault_dir = Ok root /\ path_exists root = Ok false
  | Ok (Some m) =>
      exists root found,
        path_resolve vault_dir = Ok root /\ path_exists root = Ok true
        /\ rglob root (py "*.md") = (found, None)
        /\ let files :=
             filter (fun md_file =>
                       Forall (fun part => part ∉ default_exclude_folders)
                              (path_parts md_file)) found in
           m = fold_left (fun m md_file => migrate_file root md_file m)
                         files migration_start
           /\ migration_balanced files m
  end
  /\ (forall root md_file m,
        read_text md_file = None
        \/ (exists e, path_resolve md_file = Raise e) ->
        migrate_file root md_file m
        = {| m_page_map := m_page_map m; successful := successful m;
             failed_files := S (failed_files m);
             m_uploader := m_uploader m; m_log := m_log m |})
  /\ (forall root md_file m content path page u log,
        read_text md_file = Some content ->
        path_resolve md_file = Ok path ->
        create_notion_page (path_stem md_file) content root path
                           (m_page_map m) (Some (m_uploader m)) (m_log m)
        = (page, u, log) ->
        migrate_file root md_file m
        = match page with
          | Some (page_id :: page_id', page_url) =>
              {| m_page_map :=
                   <[path_stem md_file := page_url]> (m_page_map m);
                 successful := S (successful m);
                 failed_files := failed_files m;
                 m_uploader := default (m_uploader m) u;
                 m_log := log |}
          | _ =>
              {| m_page_map := m_page_map m; successful := successful m;
                 failed_files := S (failed_files m);
                 m_uploader := default (m_uploader m) u;
                 m_log := log |}
          end).
Proof.
  refine (conj _ (conj _ _)).
  - unfold main.
    destruct (path_resolve vault_dir) as [root|e] eqn:Er;
      cbn [mbind result_bind]; [|left; reflexivity].
    destruct (path_exists root) as [[|]|e] eqn:Ee;
      cbn [mbind result_bind negb].
    + destruct (rglob root (py "*.md")) as [found [e|]] eqn:Eg.
      * unfold get_markdown_files. rewrite Eg. cbn [mbind result_bind].
        right. exists root. split; [reflexivity|]. right.
        split; [exact Ee|]. rewrite Eg. reflexivity.
      * rewrite (get_markdown_files_found root found Eg).
        cbn [mbind result_bind].
        exists root, found. split; [reflexivity|]. split; [exact Ee|].
        split; [exact Eg|]. cbv zeta. split; [reflexivity|].
        apply (migrate_files_balanced root [] _ migration_start
                 migration_start_balanced).
    + exists root. split; [reflexivity|exact Ee].
    + right. exists root. split; [reflexivity|]. left. exact Ee.
  - intros root md_file m [E | [e E]]; unfold migrate_file; rewrite E.
    + reflexivity.
    + destruct (read_text md_file); reflexivity.
  - intros root md_file m content path page u log Et Ep Ec.
    unfold migrate_file. rewrite Et, Ep, Ec.
    destruct page as [[[|c page_id] page_url]|]; reflexivity.
Qed.

(** At a concrete input: the vault [/v] holds the notes [note.md] and
    [other.md] and a file [plugin.md] in the folder [.obsidian].  The two
    notes are migrated in that order, the third file is not: the link of
    the first note to the second is flattened, both pages are in the page
    map, and the API received one call for each note.  The first note
    alone, from the empty books. *)
Lemma main_migrates_listed_files_witness :
  rglob (FileSystem := Demo.fs) (py "/v") (py "*.md")
  = ([py "/v/note.md"; py "/v/.obsidian/plugin.md"; py "/v/other.md"], None)
  /\ main (H := Demo.urllib) (H0 := Demo.fs) (H1 := Demo.hashlib)
          (H2 := Demo.provider_ok) (H3 := Demo.one_paragraph)
          (H4 := Demo.notion_failing_at 9) (H5 := Demo.text_files) (py "/v")
     = Ok (Some
             {| m_page_map :=
                  {[ py "note" := py "https://notion/id";
                     py "other" := py "https://notion/id" ]};
                successful := 2; failed_files := 0;
                m_uploader := new_uploader;
                m_log :=
                  [ ([ParagraphBlock [plain_run (py "see other")]], None);
                    ([ParagraphBlock [plain_run (py "text")]], None) ] |})
  /\ migrate_file (H := Demo.urllib) (H0 := Demo.fs) (H1 := Demo.hashlib)
                  (H2 := Demo.provider_ok) (H3 := Demo.one_paragraph)
                  (H4 := Demo.notion_failing_at 9) (H5 := Demo.text_files)
                  (py "/v") (py "/v/note.md") migration_start
     = {| m_page_map := {[ py "note" := py "https://notion/id" ]};
          successful := 1; failed_files := 0;
          m_uploader := new_uploader;
          m_log :=
            [ ([ParagraphBlock [plain_run (py "see other")]], None) ] |}.
Proof.
  refine (conj _ (conj _ _)); [by_evaluation|by_evaluation|].
  rewrite (proj2 (proj2 (main_migrates_listed_files
                           (H := Demo.urllib) (H0 := Demo.fs)
                           (H1 := Demo.hashlib) (H2 := Demo.provider_ok)
                           (H3 := Demo.one_paragraph)
                           (H4 := Demo.notion_failing_at 9)
                           (H5 := Demo.text_files) (py "/v")))
             (py "/v") (py "/v/note.md") migration_start
             (py "see [[other]]") (py "/v/note.md")
             (Some (py "id", py "https://notion/id")) (Some new_uploader)
             [ ([ParagraphBlock [plain_run (py "see other")]], None) ]);
    by_evaluation.
Defined.

(** ** From an embed to a hosted image *)

Lemma lazy_until_close_rest (x post : str) :
  without ")" x -> without "010" x -> boundary post = true ->
  lazy_until_close false (x ++ py ")" ++ post) = Some (x, post).
Proof.
  intros Hx Hn Hb. induction x as [|c x IH].
  - cbn [app py list_ascii_of_string lazy_until_close negb andb].
    rewrite (proj2 (char_is_true ")" ")") eq_refl), Hb. reflexivity.
  - inversion Hx as [|? ? Hc Hx']; inversion Hn as [|? ? Hl Hn']; subst.
    cbn [app lazy_until_close negb andb].
    apply char_is_false in Hc, Hl. rewrite Hc, Hl. cbn [andb].
    rewrite IH by assumption. reflexivity.
Qed.

Lemma lazy_until_close_first (x post : str) :
  x <> [] -> without ")" x -> without "010" x -> boundary post = true ->
  lazy_until_close true (x ++ py ")" ++ post) = Some (x, post).
Proof.
  intros Hne Hx Hn Hb. destruct x as [|c x]; [congruence|].
  inversion Hx as [|? ? Hc Hx']; inversion Hn as [|? ? Hl Hn']; subst.
  cbn [app lazy_until_close negb andb].
  apply char_is_false in Hl. rewrite Hl.
  rewrite lazy_until_close_rest by assumption. reflexivity.
Qed.

Lemma match_image_at prev (alt x post : str) :
  without "]" alt ->
  x <> [] -> without ")" x -> without "010" x -> boundary post = true ->
  match_image prev (image_syntax alt x ++ post)
  = Some (image_syntax alt x, (alt, x), post).
Proof.
  intros Ha Hne Hx Hn Hb. unfold match_image, image_syntax.
  rewrite <- !app_assoc. rewrite expect_app. cbn [mbind option_bind].
  rewrite (span_app (char_not "]") alt)
    by (apply class_not || reflexivity; assumption).
  rewrite expect_app. cbn [mbind option_bind].
  rewrite lazy_until_close_first by assumption. reflexivity.
Qed.

Lemma image_no_match prev pre rest :
  without "[" pre ->
  (last pre = Some "!"%char -> head rest <> Some "["%char) ->
  no_match_in match_image prev pre rest.
Proof.
  intros Hp. revert prev. induction Hp as [|c pre Hc Hp IH]; intros prev Hl.
  - exact I.
  - split.
    + unfold match_image. simpl.
      destruct (Ascii.eqb c "!") eqn:Ec; [|reflexivity].
      apply Ascii.eqb_eq in Ec. subst c.
      destruct Hp as [|d pre Hd Hp]; simpl.
      * destruct rest as [|r rest]; [reflexivity|].
        destruct (Ascii.eqb r "[") eqn:Er; [|reflexivity].
        apply Ascii.eqb_eq in Er. subst r.
        exfalso. apply Hl; reflexivity.
      * apply Ascii.eqb_neq in Hd. rewrite Hd. reflexivity.
    + apply IH. intros Hl'. apply Hl.
      destruct pre; [discriminate|exact Hl'].
Qed.

(** The only image of a text: one image reference between two texts
    without an opening bracket, the text after it at a boundary. *)
Lemma re_finditer_one_image (pre alt x post : str) :
  without "[" pre -> without "[" post -> boundary post = true ->
  without "]" alt ->
  x <> [] -> without ")" x -> without "010" x ->
  re_finditer match_image (pre ++ image_syntax alt x ++ post)
  = ([(pre, image_syntax alt x, (alt, x))], post).
Proof.
  intros Hpre Hpost Hb Ha Hne Hx Hn.
  apply (re_finditer_one match_image match_image_consuming).
  - apply image_no_match; [exact Hpre|]. intros _. discriminate.
  - apply match_image_at; assumption.
  - apply image_no_match; [exact Hpost|]. intros _. discriminate.
Qed.

Section SharedAttachment.
Context `{UrlLib} `{FileSystem} `{Hashlib} `{Provider} `{MarkdownParser}.

Lemma lone_embed_hosted (pre x post vault_dir markdown_file_path : str)
  (page_map : gmap (list ascii) str) (u u' : FileUploader) (fp v : str) :
  lone_embed pre x post ->
  resolve_relative_path (unquote x) markdown_file_path vault_dir
  = Ok (Some fp) ->
  fp <> [] -> path_is_file fp = Ok true ->
  upload fp (get_unique_path_for_file fp vault_dir) u = Ok (Some v, u') ->
  v <> [] ->
  parse_markdown_to_blocks (pre ++ py "![[" ++ x ++ py "]]" ++ post)
    vault_dir markdown_file_path page_map (Some u)
  = (c ← render (markdown_events (pre ++ py "![](" ++ v ++ py ")" ++ post))
                new_converter;
     Ok (blocks c),
     Some u').
Proof.
  intros (Hpre & Hpost & Hb & Hne & Hxo & Hxc & Hxp & Hxn & Hurl)
         Hr Hfp Hf Hu Hv.
  apply truthy_true in Hfp, Hv.
  assert (N : convert_obsidian_links
                (pre ++ py "![[" ++ x ++ py "]]" ++ post) page_map
              = pre ++ image_syntax [] x ++ post).
  { unfold convert_obsidian_links.
    replace (pre ++ py "![[" ++ x ++ py "]]" ++ post)
      with (pre ++ (py "![[" ++ x ++ py "]]") ++ post)
      by (rewrite <- !app_assoc; reflexivity).
    rewrite convert_embeds_one by assumption.
    rewrite convert_wiki_links_image by assumption.
    unfold embed_to_image, image_syntax. rewrite <- !app_assoc.
    reflexivity. }
  assert (Hp : image_parts [] x).
  { split; [constructor|]. split; assumption. }
  unfold parse_markdown_to_blocks. rewrite N. unfold rewrite_images.
  rewrite re_finditer_one_image by (assumption || constructor).
  cbn [replace_images].
  rewrite (callback_success markdown_file_path vault_dir [] x _ fp u v u');
    [|assumption|assumption|apply lookup_empty|assumption..|reflexivity
     |assumption|assumption].
  cbn [uploader mbind result_bind]. unfold image_syntax.
  rewrite <- !app_assoc. reflexivity.
Qed.
End SharedAttachment.

(** An embed of a file becomes the image of the hosted file: for an embed
    [![[x]]] between two texts without an opening bracket, followed by
    white space, an exclamation mark or the end of the text, where [x] is
    not a URL and has no bracket, closing parenthesis or newline, the
    markdown parser receives the text with [![](v)] in the place of the
    embed when the name resolves to a regular file and its upload returns
    the URL [v]; and it receives the text with [![](x)], the uploader
    untouched, when the name resolves to no file. *)
Theorem embedded_file_is_hosted `{UrlLib} `{FileSystem} `{Hashlib}
  `{Provider} `{MarkdownParser} (pre x post vault_dir markdown_file_path : str)
  (page_map : gmap (list ascii) str) (u : FileUploader) :
  without "[" pre -> without "[" post -> boundary post = true ->
  x <> [] -> without "[" x -> without "]" x -> without ")" x ->
  without "010" x -> is_url x = false ->
  (forall fp v u',
      resolve_relative_path (unquote x) markdown_file_path vault_dir
      = Ok (Some fp) ->
      fp <> [] -> path_is_file fp = Ok true ->
      upload fp (get_unique_path_for_file fp vault_dir) u
      = Ok (Some v, u') ->
      v <> [] ->
      parse_markdown_to_blocks (pre ++ py "![[" ++ x ++ py "]]" ++ post)
        vault_dir markdown_file_path page_map (Some u)
      = (c ← render (markdown_events (pre ++ py "![](" ++ v ++ py ")" ++ post))
                    new_converter;
         Ok (blocks c),
         Some u'))
  /\ (resolve_relative_path (unquote x) markdown_file_path vault_dir
      = Ok None ->
      parse_markdown_to_blocks (pre ++ py "![[" ++ x ++ py "]]" ++ post)
        vault_dir markdown_file_path page_map (Some u)
      = (c ← render (markdown_events (pre ++ py "![](" ++ x ++ py ")" ++ post))
                    new_converter;
         Ok (blocks c),
         Some u)).
Proof.
  intros Hpre Hpost Hb Hne Hxo Hxc Hxp Hxn Hurl.
  assert (N : convert_obsidian_links
                (pre ++ py "![[" ++ x ++ py "]]" ++ post) page_map
              = pre ++ image_syntax [] x ++ post).
  { unfold convert_obsidian_links.
    replace (pre ++ py "![[" ++ x ++ py "]]" ++ post)
      with (pre ++ (py "![[" ++ x ++ py "]]") ++ post)
      by (rewrite <- !app_assoc; reflexivity).
    rewrite convert_embeds_one by assumption.
    rewrite convert_wiki_links_image by assumption.
    unfold embed_to_image, image_syntax. rewrite <- !app_assoc.
    reflexivity. }
  assert (Hp : image_parts [] x).
  { split; [constructor|]. split; assumption. }
  split.
  - intros fp v u' Hr Hfp Hf Hu Hv.
    apply (lone_embed_hosted pre x post vault_dir markdown_file_path
             page_map u u' fp v); try assumption.
    unfold lone_embed. auto 10.
  - intros Hr. unfold parse_markdown_to_blocks. rewrite N.
    unfold rewrite_images.
    rewrite re_finditer_one_image by (assumption || constructor).
    cbn [replace_images].
    rewrite (callback_spec markdown_file_path vault_dir _ _ _ Hp), Hurl.
    cbn [uploaded_images uploader]. rewrite lookup_empty.
    unfold host_reference. rewrite Hr.
    cbn [mbind result_bind]. unfold image_syntax.
    rewrite <- !app_assoc. reflexivity.
Qed.

(** At a concrete input: the embed of [pic.png], found in the folder
    [attachments]. *)
Lemma embedded_file_is_hosted_witness :
  parse_markdown_to_blocks (H := Demo.urllib) (H0 := Demo.fs)
    (H1 := Demo.hashlib) (H2 := Demo.provider_ok) (H3 := Demo.one_paragraph)
    (py "see " ++ py "![[" ++ py "pic.png" ++ py "]]" ++ py " here")
    (py "/v") (py "/v/note.md") ∅ (Some new_uploader)
  = (c ← render (H := Demo.urllib)
           (markdown_events (MarkdownParser := Demo.one_paragraph)
              (py "see " ++ py "![]("
               ++ py "https://cdn/attachments/pic.png" ++ py ")"
               ++ py " here"))
           new_converter;
     Ok (blocks c),
     Some {| cache :=
               {[ py "/v/attachments/pic.png_d41d8cd98f00b204e9800998ecf8427e"
                  := py "https://cdn/attachments/pic.png" ]};
             stats := {| images := 1; pdfs := 0; other := 0; failed := 0;
                         skipped_dirs := 0 |};
             calls := [(py "/v/attachments/pic.png", py "attachments")] |}).
Proof.
  apply (proj1 (embedded_file_is_hosted (H := Demo.urllib) (H0 := Demo.fs)
                  (H1 := Demo.hashlib) (H2 := Demo.provider_ok)
                  (H3 := Demo.one_paragraph)
                  (py "see ") (py "pic.png") (py " here")
                  (py "/v") (py "/v/note.md") ∅ new_uploader
                  ltac:(without_literal) ltac:(without_literal)
                  ltac:(reflexivity) ltac:(discriminate)
                  ltac:(without_literal) ltac:(without_literal)
                  ltac:(without_literal) ltac:(without_literal)
                  ltac:(reflexivity))
           (py "/v/attachments/pic.png")
           (py "https://cdn/attachments/pic.png")).
  - by_evaluation.
  - discriminate.
  - reflexivity.
  - by_evaluation.
  - discriminate.
Defined.

(** ** The formatter returns for a text without an underscore *)

Lemma string_of_uint_digits u :
  Forall (fun c => isdigit c = true) (py (NilEmpty.string_of_uint u)).
Proof.
  induction u; cbn [NilEmpty.string_of_uint py list_ascii_of_string];
    try constructor; try reflexivity; assumption.
Qed.

Lemma str_of_nat_number n : is_number (str_of_nat n).
Proof.
  unfold str_of_nat. generalize (Nat.to_uint n). intros u. split.
  - destruct u; discriminate.
  - destruct u; try apply (string_of_uint_digits (_ u)).
    repeat constructor.
Qed.

Lemma digit_not_underscore c : isdigit c = true -> c <> "_"%char.
Proof. intros Hc ->. discriminate Hc. Qed.

Lemma span_unique p (a r a' r' : str) :
  Forall (fun c => p c = true) a ->
  match r with [] => True | c :: _ => p c = false end ->
  Forall (fun c => p c = true) a' ->
  match r' with [] => True | c :: _ => p c = false end ->
  a ++ r = a' ++ r' -> a = a' /\ r = r'.
Proof.
  intros Ha Hr Ha' Hr' E.
  pose proof (span_app p a r Ha Hr) as S1.
  pose proof (span_app p a' r' Ha' Hr') as S2.
  rewrite E in S1. rewrite S1 in S2. injection S2 as -> ->. auto.
Qed.

Lemma first_underscore_pair (s g0 rest : str) c :
  underscores_paired s -> s = g0 ++ "_"%char :: c :: rest ->
  without "_" g0 -> c <> "_"%char -> False.
Proof.
  intros (g & r & -> & Hg & Hr) E Hg0 Hc.
  apply (span_unique (char_not "_")) in E as [-> E];
    [|apply class_not; exact Hg
     |destruct Hr as [->|(d & r' & _ & ->)]; [exact I|reflexivity]
     |apply class_not; exact Hg0|reflexivity].
  destruct Hr as [->|(d & r' & _ & ->)]; [discriminate|].
  unfold token, py in E. cbn [list_ascii_of_string app] in E.
  injection E as E _. congruence.
Qed.

Lemma token_after_gap (gap rest a b d : str) :
  without "_" gap -> gap ++ rest = a ++ token d ++ b ->
  exists k, a = gap ++ k /\ rest = k ++ token d ++ b.
Proof.
  intros Hg E. apply app_eq_app in E as [l [[-> E]|[-> E]]].
  - destruct l as [|x l].
    + exists []. rewrite !app_nil_r. auto.
    + exfalso. unfold token, py in E. cbn [list_ascii_of_string app] in E.
      injection E as <- _. apply Forall_app in Hg as [_ Hg].
      inversion Hg; congruence.
  - exists l. auto.
Qed.

Lemma token_after_number (sn R k T : str) :
  Forall (fun c => isdigit c = true) sn ->
  sn ++ R = k ++ "_"%char :: T -> exists j, R = j ++ "_"%char :: T.
Proof.
  intros Hn E. apply app_eq_app in E as [l [[-> E]|[-> E]]].
  - destruct l as [|x l].
    + exists []. rewrite app_nil_l in E. symmetry. exact E.
    + exfalso. injection E as <- _. apply Forall_app in Hn as [_ Hn].
      inversion Hn as [|? ? Hx _]. discriminate Hx.
  - exists l. exact E.
Qed.

Lemma number_unique (d d' r r' : str) :
  Forall (fun c => isdigit c = true) d ->
  Forall (fun c => isdigit c = true) d' ->
  d ++ "_"%char :: r = d' ++ "_"%char :: r' -> d = d'.
Proof.
  intros Hd Hd' E.
  apply (span_unique isdigit) in E as [E _];
    [exact E|assumption|reflexivity|assumption|reflexivity].
Qed.

Lemma no_token_without_underscore (s d : str) :
  without "_" s -> ~ occurs_in (token d) s.
Proof.
  intros Hs (a & b & ->). apply Forall_app in Hs as [_ Hs].
  apply Forall_app in Hs as [Hs _]. inversion Hs. congruence.
Qed.

Lemma save_links_known (ms : list (str * str * (str * str))) (tail : str)
  (n : nat) (link_map : gmap (list ascii) (str * str)) :
  Forall (fun m : str * str * (str * str) => without "_" (fst (fst m))) ms ->
  without "_" tail ->
  underscores_paired (fst (save_links ms tail n link_map))
  /\ placeholders_known (snd (save_links ms tail n link_map))
                        (fst (save_links ms tail n link_map))
  /\ (forall k, is_Some (link_map !! k) ->
                is_Some (snd (save_links ms tail n link_map) !! k)).
Proof.
  intros Hms Ht. revert n link_map.
  induction Hms as [|[[gap g0] [lt lu]] ms Hgap Hms IH]; intros n link_map.
  - cbn [save_links fst snd]. split; [|split].
    + exists tail, []. rewrite app_nil_r. auto.
    + intros d _ Ho. exfalso.
      exact (no_token_without_underscore tail d Ht Ho).
    + auto.
  - cbn [save_links]. cbn [fst] in Hgap.
    specialize (IH (S n) (<[placeholder n := (lt, lu)]> link_map)).
    destruct (save_links ms tail (S n) _) as [out lm] eqn:E.
    cbn [fst snd] in *. destruct IH as (Hp & Hk & Hl).
    destruct (str_of_nat_number n) as [Hne Hdig].
    assert (Hph : is_Some (lm !! placeholder n)).
    { apply Hl. rewrite lookup_insert_eq. eauto. }
    split; [|split].
    + exists gap, (placeholder n ++ out). split; [reflexivity|].
      split; [exact Hgap|]. right. exists (str_of_nat n), out.
      split; [split; assumption|reflexivity].
    + intros d [Hd Hdd] (a & b & Ho).
      apply token_after_gap in Ho as (k & -> & Ho); [|exact Hgap].
      unfold placeholder in Ho. rewrite <- !app_assoc in Ho.
      destruct k as [|k0 k].
      { (* the occurrence is the placeholder itself *)
        unfold token in Ho. rewrite <- !app_assoc in Ho.
        cbn [app] in Ho. apply app_inv_head in Ho.
        unfold py in Ho. cbn [list_ascii_of_string app] in Ho.
        apply number_unique in Ho; [|assumption|assumption].
        subst d. exact Hph. }
      unfold token, py in Ho. rewrite <- ?app_assoc in Ho.
      cbn [list_ascii_of_string app] in Ho.
      do 5 (destruct k as [|? k]; [exfalso; discriminate Ho|]).
      destruct k as [|? k].
      { exfalso. destruct (str_of_nat n) as [|c sn]; [discriminate Ho|].
        apply (f_equal (drop 7)) in Ho. cbn [drop app] in Ho.
        injection Ho as -> _. inversion Hdig as [|? ? Hc _].
        discriminate Hc. }
      apply (f_equal (drop 7)) in Ho. cbn [drop app] in Ho.
      apply token_after_number in Ho as [j Ho]; [|exact Hdig].
      destruct j as [|j0 j].
      { exfalso. cbn [app] in Ho. injection Ho as Ho.
        destruct d as [|c d]; [congruence|].
        apply Forall_cons in Hdd as [Hc _].
        apply (first_underscore_pair out (py "LINK") (d ++ py "__" ++ b) c);
          [exact Hp|exact Ho|without_literal
          |apply digit_not_underscore; exact Hc]. }
      destruct j as [|j1 j].
      { exfalso. cbn [app] in Ho. injection Ho as _ Ho.
        apply (first_underscore_pair out []
                 (py "INK_" ++ d ++ py "__" ++ b) "L");
          [exact Hp|exact Ho|constructor|discriminate]. }
      cbn [app] in Ho. injection Ho as _ _ Ho.
      apply (Hk d (conj Hd Hdd)). exists j, b. rewrite Ho.
      unfold token, py. rewrite <- ?app_assoc. reflexivity.
    + intros k Hk'. apply Hl.
      apply lookup_insert_is_Some'. right. exact Hk'.
Qed.

Section Occurrences.
Context {G : Type}.

Lemma join_without c (ms : list (str * str * G)) (tail : str) :
  without c (join ms tail) ->
  Forall (fun m => without c (fst (fst m))) ms /\ without c tail.
Proof.
  induction ms as [|[[gap g0] g] ms IH]; cbn [join sub_join]; intros Hs.
  - split; [constructor|exact Hs].
  - apply Forall_app in Hs as [Hgap Hs]. apply Forall_app in Hs as [_ Hs].
    destruct (IH Hs) as [Hms Ht]. split; [|exact Ht].
    constructor; [exact Hgap|exact Hms].
Qed.

Lemma join_occurs (ms : list (str * str * G)) (tail : str) :
  Forall (fun m => occurs_in (snd (fst m)) (join ms tail)) ms.
Proof.
  induction ms as [|[[gap g0] g] ms IH]; [constructor|].
  cbn [join sub_join]. constructor.
  - exists gap, (sub_join (fun g0 _ => g0) ms tail). reflexivity.
  - eapply Forall_impl; [exact IH|]. intros m (a & b & E).
    exists (gap ++ g0 ++ a), b. unfold join in E. rewrite E.
    rewrite <- !app_assoc. reflexivity.
Qed.

Lemma split_join_occurs (ms : list (str * str * G)) (tail : str) :
  Forall (fun part => occurs_in part (join ms tail)) (split_join ms tail).
Proof.
  induction ms as [|[[gap g0] g] ms IH]; cbn [join sub_join split_join].
  - constructor; [|constructor]. exists [], []. rewrite app_nil_r. reflexivity.
  - constructor; [|constructor].
    + exists [], (g0 ++ sub_join (fun g0 _ => g0) ms tail). reflexivity.
    + exists gap, (sub_join (fun g0 _ => g0) ms tail). reflexivity.
    + eapply Forall_impl; [exact IH|]. intros part (a & b & E).
      exists (gap ++ g0 ++ a), b. unfold join in E. rewrite E.
      rewrite <- !app_assoc. reflexivity.
Qed.
End Occurrences.

Lemma known_in_part link_map (part s : str) :
  placeholders_known link_map s -> occurs_in part s ->
  placeholders_known link_map part.
Proof.
  intros Hs (a & b & ->) d Hd (a' & b' & ->). apply (Hs d Hd).
  exists (a ++ a'), (b' ++ b). rewrite <- !app_assoc. reflexivity.
Qed.

(** A match of the span pattern that starts like a placeholder is one. *)
Lemma inline_token_shape prev (g0 g rest : str) :
  match_inline prev (g0 ++ rest) = Some (g0, g, rest) ->
  startswith (py "__LINK_") g0 = true ->
  g0 = token g /\ is_number g.
Proof.
  unfold match_inline, orelse. intros E Hs.
  destruct (m_enclosed (py "~~") _ _ _) as [[[x1 y1] z1]|] eqn:E1.
  { injection E as -> -> ->. apply m_enclosed_spec in E1 as (-> & _).
    discriminate Hs. }
  destruct (m_enclosed (py "**") _ _ _) as [[[x2 y2] z2]|] eqn:E2.
  { injection E as -> -> ->. apply m_enclosed_spec in E2 as (-> & _).
    discriminate Hs. }
  destruct (m_enclosed (py "*") _ _ _) as [[[x3 y3] z3]|] eqn:E3.
  { injection E as -> -> ->. apply m_enclosed_spec in E3 as (-> & _).
    discriminate Hs. }
  apply m_enclosed_spec in E as (-> & Hne & Hd & _).
  split; [reflexivity|split; assumption].
Qed.

Section Returns.
Context `{UrlLib}.

Lemma emit_match_returns link_map (g0 : str) :
  (startswith (py "__LINK_") g0 = true -> is_Some (link_map !! g0)) ->
  exists runs, emit_match link_map g0 = Ok runs.
Proof.
  intros Hk. unfold emit_match.
  destruct (startswith (py "__LINK_") g0).
  { destruct (Hk eq_refl) as [[d u] ->].
    destruct (_is_valid_url u); eauto. }
  destruct (startswith (py "~~") g0); [eauto|].
  destruct (startswith (py "**") g0); [eauto|].
  destruct (startswith (py "*") g0); eauto.
Qed.

Lemma emit_matches_return link_map (ms : list (str * str * str)) :
  Forall (fun m => startswith (py "__LINK_") (snd (fst m)) = true ->
                   is_Some (link_map !! snd (fst m))) ms ->
  exists runs, emit_matches link_map ms = Ok runs.
Proof.
  induction 1 as [|[[gap g0] g] ms Hm Hms [more IH]];
    cbn [emit_matches]; [eauto|].
  destruct (emit_match_returns link_map g0 Hm) as [runs ->].
  rewrite IH. cbn [mbind result_bind]. eauto.
Qed.

Lemma format_part_returns link_map (part : str) :
  placeholders_known link_map part ->
  exists runs, format_part link_map part = Ok runs.
Proof.
  intros Hk. unfold format_part.
  destruct (negb (truthy part)); [eauto|].
  destruct (_ && _); [destruct (truthy _); eauto|].
  destruct (re_finditer_sound match_inline match_inline_consuming part)
    as (ms & tail & -> & J & M).
  destruct (emit_matches_return link_map ms) as [runs ->];
    [|cbn [mbind result_bind]; eauto].
  pose proof (join_occurs ms tail) as O. rewrite J in O.
  rewrite Forall_forall in *. intros [[gap g0] g] Hin Hs. cbn [fst snd] in *.
  destruct (M _ Hin) as (prev' & rest' & E).
  destruct (inline_token_shape _ _ _ _ E Hs) as [-> Hn].
  apply (Hk g Hn). exact (O _ Hin).
Qed.

Lemma format_parts_return link_map (parts : list str) :
  Forall (placeholders_known link_map) parts ->
  exists runs, format_parts link_map parts = Ok runs.
Proof.
  induction 1 as [|part parts Hp Hps [more IH]];
    cbn [format_parts]; [eauto|].
  destruct (format_part_returns link_map part Hp) as [runs ->].
  rewrite IH. cbn [mbind result_bind]. eauto.
Qed.

Lemma _parse_rich_text_returns (text : str) :
  without "_" text -> exists runs, _parse_rich_text text = Ok runs.
Proof.
  intros Ht. unfold _parse_rich_text.
  destruct (re_finditer_sound match_link match_link_consuming text)
    as (lms & ltail & -> & J & _).
  rewrite <- J in Ht. apply join_without in Ht as [Hg Hl].
  destruct (save_links_known lms ltail 0 ∅ Hg Hl) as (_ & Hk & _).
  destruct (save_links lms ltail 0 ∅) as [text' link_map].
  cbn [fst snd] in Hk. unfold re_split.
  destruct (re_finditer_sound match_codespan match_codespan_consuming text')
    as (cms & ctail & -> & Jc & _).
  destruct (format_parts_return link_map (split_join cms ctail))
    as [runs ->].
  - pose proof (split_join_occurs cms ctail) as O. rewrite Jc in O.
    eapply Forall_impl; [exact O|]. intros part Hp.
    exact (known_in_part link_map part text' Hk Hp).
  - cbn [mbind result_bind]. eauto.
Qed.

Lemma handle_returns e c : event_safe e -> exists c', handle e c = Ok c'.
Proof.
  destruct e; cbn [handle event_safe]; intros He.
  - unfold heading. rewrite heading_types_clamped by exact He.
    cbn [mbind result_bind]. eauto.
  - unfold paragraph. destruct (negb _); [eauto|].
    destruct (_parse_rich_text_returns text He) as [runs ->].
    cbn [mbind result_bind]. eauto.
  - unfold block_code. eauto.
  - unfold block_quote. eauto.
  - unfold list_. eauto.
  - unfold list_item.
    destruct (_parse_rich_text_returns text He) as [runs ->].
    cbn [mbind result_bind]. eauto.
  - unfold image. destruct (_ || _); eauto.
  - unfold thematic_break. eauto.
Qed.
End Returns.

(** No exception without an underscore: the formatter returns its runs for
    every text in which no underscore occurs, whatever links, code spans and
    emphasis it holds, since every placeholder it then meets is one it wrote
    itself; and a rendering returns for every sequence of events in which
    the headings have a level of at least 1 and the texts of paragraphs
    and list items have no underscore. *)
Theorem no_exception_without_underscore `{UrlLib} :
  (forall text,
      without "_" text -> exists runs, _parse_rich_text text = Ok runs)
  /\ (forall es c,
        Forall event_safe es -> exists c', render es c = Ok c').
Proof.
  split; [exact _parse_rich_text_returns|].
  intros es c Hes. revert c.
  induction Hes as [|e es He Hes IH]; intros c; cbn [render]; [eauto|].
  destruct (handle_returns e c He) as [c1 ->].
  cbn [mbind result_bind]. apply IH.
Qed.

Lemma no_exception_without_underscore_witness :
  exists c',
    render (H := Demo.urllib)
      [ EvHeading (py "T") 2;
        EvParagraph (py "**[a](b)** and `c` and [d](http://x/y)");
        EvListItem (py "LINK") ] new_converter
    = Ok c'.
Proof.
  apply (proj2 (no_exception_without_underscore (H := Demo.urllib))).
  constructor; [cbn [event_safe]; lia|].
  constructor; [cbn [event_safe]; without_literal|].
  constructor; [cbn [event_safe]; without_literal|]. constructor.
Defined.

(** ** No empty run *)

Lemma match_link_text prev s g0 d u rest :
  match_link prev s = Some (g0, (d, u), rest) -> d <> [].
Proof.
  unfold match_link. destruct (bool_decide _); [discriminate|].
  destruct (expect (py "[") s) as [s1|]; [|discriminate].
  cbn [mbind option_bind].
  destruct (span (char_not "]") s1) as [d' s2].
  destruct d' as [|d0 d']; [discriminate|].
  destruct (expect (py "](") s2) as [s3|]; [|discriminate].
  cbn [mbind option_bind].
  destruct (span (char_not ")") s3) as [a s4].
  destruct a as [|a0 a]; [discriminate|].
  destruct (expect (py ")") s4) as [s5|]; [|discriminate].
  cbn [mbind option_bind].
  destruct (span (char_not ")") s5) as [b s6].
  destruct (expect (py ")") s6); intros [= _ <- _ _]; discriminate.
Qed.

Lemma save_links_have_text (ms : list (str * str * (str * str))) (tail : str)
  (n : nat) (link_map : gmap (list ascii) (str * str)) :
  Forall (fun m : str * str * (str * str) => fst (snd m) <> []) ms ->
  links_have_text link_map ->
  links_have_text (snd (save_links ms tail n link_map)).
Proof.
  intros Hms. revert n link_map.
  induction Hms as [|[[gap g0] [lt lu]] ms Hm Hms IH]; intros n link_map Hl.
  - exact Hl.
  - cbn [save_links].
    specialize (IH (S n) (<[placeholder n := (lt, lu)]> link_map)).
    destruct (save_links ms tail (S n) _) as [out lm]. cbn [snd] in *.
    apply IH. apply map_Forall_insert_2; [exact Hm|exact Hl].
Qed.

(** The text of a span the pattern has matched. *)
Lemma inline_span_shape prev (g0 g rest : str) :
  match_inline prev (g0 ++ rest) = Some (g0, g, rest) ->
  g <> []
  /\ (g0 = py "~~" ++ g ++ py "~~"
      \/ (g0 = py "**" ++ g ++ py "**" /\ without "*" g)
      \/ (g0 = py "*" ++ g ++ py "*" /\ without "*" g)
      \/ g0 = token g).
Proof.
  unfold match_inline, orelse. intros E.
  assert (W : forall b : str,
             Forall (fun c => char_not "*" c = true) b -> without "*" b).
  { intros b Hb. eapply Forall_impl; [exact Hb|].
    intros c Hc. apply char_not_true. exact Hc. }
  destruct (m_enclosed (py "~~") _ _ _) as [[[x1 y1] z1]|] eqn:E1.
  { injection E as <- <- <-. apply m_enclosed_spec in E1 as (E1 & Hne & _).
    split; [exact Hne|]. left. exact E1. }
  destruct (m_enclosed (py "**") _ _ _) as [[[x2 y2] z2]|] eqn:E2.
  { injection E as <- <- <-.
    apply m_enclosed_spec in E2 as (E2 & Hne & Hb & _).
    split; [exact Hne|]. right. left. split; [exact E2|apply W; exact Hb]. }
  destruct (m_enclosed (py "*") _ _ _) as [[[x3 y3] z3]|] eqn:E3.
  { injection E as <- <- <-.
    apply m_enclosed_spec in E3 as (E3 & Hne & Hb & _).
    split; [exact Hne|]. right. right. left.
    split; [exact E3|apply W; exact Hb]. }
  apply m_enclosed_spec in E as (E & Hne & _).
  split; [exact Hne|]. right. right. right. exact E.
Qed.

Section NoEmptyRun.
Context `{UrlLib}.

Lemma emit_match_content link_map prev (g0 g rest : str) runs :
  links_have_text link_map ->
  match_inline prev (g0 ++ rest) = Some (g0, g, rest) ->
  emit_match link_map g0 = Ok runs ->
  Forall (fun r => content r <> []) runs.
Proof.
  intros Hl E. apply inline_span_shape in E as [Hne Hs]. unfold emit_match.
  destruct (startswith (py "__LINK_") g0) eqn:S0.
  { destruct (link_map !! g0) as [[d u]|] eqn:El; [|discriminate].
    pose proof (Hl _ _ El) as Hd. cbn [fst] in Hd.
    destruct (_is_valid_url u); intros [= <-];
      (constructor; [|constructor]); cbn [content link_run plain_run].
    - apply take_nonempty. exact Hd.
    - discriminate. }
  destruct (startswith (py "~~") g0) eqn:S1.
  { intros [= <-]. constructor; [|constructor].
    cbn [content annotated_run]. apply take_nonempty.
    destruct Hs as [->|[[-> _]|[[-> _]| ->]]];
      try (exfalso; cbv in S1; discriminate S1).
    pose proof (slice_inner_enclosed (py "~~") g (py "~~")) as Es.
    change (length (py "~~")) with 2 in Es. rewrite Es. exact Hne. }
  destruct (startswith (py "**") g0) eqn:S2.
  { intros [= <-]. constructor; [|constructor].
    cbn [content annotated_run]. apply take_nonempty.
    destruct Hs as [->|[[-> _]|[[-> Hg]| ->]]];
      try (exfalso; cbv in S1; discriminate S1);
      try (exfalso; cbv in S2; discriminate S2).
    - pose proof (slice_inner_enclosed (py "**") g (py "**")) as Es.
      change (length (py "**")) with 2 in Es. rewrite Es. exact Hne.
    - exfalso. destruct g as [|c g]; [congruence|].
      apply Forall_cons in Hg as [Hc _].
      unfold startswith in S2. cbn [py list_ascii_of_string app expect] in S2.
      apply Ascii.eqb_neq in Hc. rewrite Hc in S2. discriminate S2. }
  destruct (startswith (py "*") g0) eqn:S3.
  { intros [= <-]. constructor; [|constructor].
    cbn [content annotated_run]. apply take_nonempty.
    destruct Hs as [->|[[-> _]|[[-> _]| ->]]];
      try (exfalso; cbv in S2; discriminate S2);
      try (exfalso; cbv in S3; discriminate S3).
    pose proof (slice_inner_enclosed (py "*") g (py "*")) as Es.
    change (length (py "*")) with 1 in Es. rewrite Es. exact Hne. }
  intros [= <-]. constructor.
Qed.

Lemma text_run_content (s : str) :
  Forall (fun r => content r <> [])
         (if truthy s then [plain_run (take 2000 s)] else []).
Proof.
  destruct (truthy s) eqn:E; [|constructor].
  constructor; [|constructor]. cbn [content plain_run].
  apply take_nonempty. apply truthy_true. exact E.
Qed.

Lemma emit_matches_content link_map (ms : list (str * str * str)) runs :
  links_have_text link_map ->
  Forall (fun '(_, g0, g) =>
            exists prev' rest',
              match_inline prev' (g0 ++ rest') = Some (g0, g, rest')) ms ->
  emit_matches link_map ms = Ok runs ->
  Forall (fun r => content r <> []) runs.
Proof.
  intros Hl Hms. revert runs.
  induction Hms as [|[[gap g0] g] ms (prev' & rest' & E) Hms IH];
    intros runs; cbn [emit_matches].
  - intros [= <-]. constructor.
  - destruct (emit_match link_map g0) as [r1|] eqn:E1; [|discriminate].
    destruct (emit_matches link_map ms) as [r2|] eqn:E2; [|discriminate].
    intros [= <-]. apply Forall_app. split; [apply text_run_content|].
    apply Forall_app. split; [|auto].
    eapply emit_match_content; eauto.
Qed.

Lemma format_part_content link_map (part : str) runs :
  links_have_text link_map ->
  format_part link_map part = Ok runs ->
  Forall (fun r => content r <> []) runs.
Proof.
  intros Hl. unfold format_part.
  destruct (negb (truthy part)); [intros [= <-]; constructor|].
  destruct (_ && _).
  - destruct (truthy (slice_inner 1 1 part)) eqn:E; intros [= <-];
      [|constructor].
    constructor; [|constructor]. cbn [content annotated_run].
    apply take_nonempty. apply truthy_true. exact E.
  - destruct (re_finditer_sound match_inline match_inline_consuming part)
      as (ms & tail & -> & _ & M).
    destruct (emit_matches link_map ms) as [r|] eqn:E; [|discriminate].
    intros [= <-]. apply Forall_app. split; [|apply text_run_content].
    eapply emit_matches_content; eauto.
Qed.

Lemma format_parts_content link_map (parts : list str) runs :
  links_have_text link_map ->
  format_parts link_map parts = Ok runs ->
  Forall (fun r => content r <> []) runs.
Proof.
  intros Hl. revert runs. induction parts as [|part parts IH]; intros runs;
    cbn [format_parts].
  - intros [= <-]. constructor.
  - destruct (format_part link_map part) as [r1|] eqn:E1; [|discriminate].
    destruct (format_parts link_map parts) as [r2|] eqn:E2; [|discriminate].
    intros [= <-]. apply Forall_app. split; [|auto].
    eapply format_part_content; eauto.
Qed.
End NoEmptyRun.

(** The formatter never returns an empty list of runs and never an empty
    run beside others: what it returns is either the single empty run (for
    a text that leaves nothing to show, the empty text for one) or runs
    that all have a content of at least one character. *)
Theorem runs_have_content `{UrlLib} (text : str) (runs : list RichText) :
  _parse_rich_text text = Ok runs ->
  runs = [plain_run []]
  \/ (runs <> [] /\ Forall (fun r => content r <> []) runs).
Proof.
  unfold _parse_rich_text.
  destruct (re_finditer_sound match_link match_link_consuming text)
    as (lms & ltail & -> & _ & M).
  assert (Hl : links_have_text (snd (save_links lms ltail 0 ∅))).
  { apply save_links_have_text; [|apply map_Forall_empty].
    eapply Forall_impl; [exact M|].
    intros [[gap g0] [d u]] (prev' & rest' & E). cbn [fst snd].
    eapply match_link_text. exact E. }
  destruct (save_links lms ltail 0 ∅) as [text' link_map]. cbn [snd] in Hl.
  destruct (format_parts link_map _) as [r|] eqn:E; [|discriminate].
  cbn [mbind result_bind]. intros [= <-].
  apply format_parts_content in E; [|exact Hl].
  destruct r as [|r0 r]; [left; reflexivity|right].
  split; [discriminate|exact E].
Qed.

Lemma runs_have_content_witness :
  [ annotated_run ann_bold (py "a"); plain_run (py " ");
    annotated_run ann_code (py "b") ]
  = [plain_run []]
  \/ ([ annotated_run ann_bold (py "a"); plain_run (py " ");
        annotated_run ann_code (py "b") ] <> []
      /\ Forall (fun r => content r <> [])
                [ annotated_run ann_bold (py "a"); plain_run (py " ");
                  annotated_run ann_code (py "b") ]).
Proof.
  apply (runs_have_content (H := Demo.urllib) (py "**a** `b`")).
  vm_compute. reflexivity.
Defined.

(** ** One attachment in two notes *)

(** A file embedded in two notes is uploaded once: when the embed of the
    first note resolves to a regular file whose upload returns a URL, and
    the embed of a second note, parsed later with the same uploader,
    resolves to the same file, the markdown parser receives both notes with
    the image of that one URL, and the second note leaves the uploader as
    the first left it: the provider is not called again (the file being
    what it was). *)
Theorem attachment_shared_between_notes `{UrlLib} `{FileSystem} `{Hashlib}
  `{Provider} `{MarkdownParser}
  (vault_dir note1 note2 pre1 x1 post1 pre2 x2 post2 fp v : str)
  (page_map1 page_map2 : gmap (list ascii) str) (u u1 : FileUploader) :
  lone_embed pre1 x1 post1 -> lone_embed pre2 x2 post2 ->
  resolve_relative_path (unquote x1) note1 vault_dir = Ok (Some fp) ->
  resolve_relative_path (unquote x2) note2 vault_dir = Ok (Some fp) ->
  fp <> [] -> path_is_file fp = Ok true ->
  upload fp (get_unique_path_for_file fp vault_dir) u = Ok (Some v, u1) ->
  v <> [] ->
  parse_markdown_to_blocks (pre1 ++ py "![[" ++ x1 ++ py "]]" ++ post1)
    vault_dir note1 page_map1 (Some u)
  = (c ← render (markdown_events (pre1 ++ py "![](" ++ v ++ py ")" ++ post1))
                new_converter;
     Ok (blocks c),
     Some u1)
  /\ parse_markdown_to_blocks (pre2 ++ py "![[" ++ x2 ++ py "]]" ++ post2)
       vault_dir note2 page_map2 (Some u1)
     = (c ← render
              (markdown_events (pre2 ++ py "![](" ++ v ++ py ")" ++ post2))
              new_converter;
        Ok (blocks c),
        Some u1).
Proof.
  intros He1 He2 Hr1 Hr2 Hfp Hf Hu Hv. split.
  - eapply lone_embed_hosted; eassumption.
  - eapply lone_embed_hosted; try eassumption.
    apply truthy_true in Hv.
    destruct (upload_success _ _ _ _ _ Hu Hv) as (_ & Hc & _).
    apply upload_hit; assumption.
Qed.

(** At a concrete input: [pic.png] embedded in [/v/note.md] and, under
    another name, in [/v/other.md]. *)
Lemma attachment_shared_between_notes_witness :
  let u1 :=
    {| cache :=
         {[ py "/v/attachments/pic.png_d41d8cd98f00b204e9800998ecf8427e"
            := py "https://cdn/attachments/pic.png" ]};
       stats := {| images := 1; pdfs := 0; other := 0; failed := 0;
                   skipped_dirs := 0 |};
       calls := [(py "/v/attachments/pic.png", py "attachments")] |} in
  parse_markdown_to_blocks (H := Demo.urllib) (H0 := Demo.fs)
    (H1 := Demo.hashlib) (H2 := Demo.provider_ok)
    (H3 := Demo.one_paragraph)
    (py "see " ++ py "![[" ++ py "pic.png" ++ py "]]" ++ py " here")
    (py "/v") (py "/v/note.md") ∅ (Some new_uploader)
  = (c ← render (H := Demo.urllib)
           (markdown_events (MarkdownParser := Demo.one_paragraph)
              (py "see " ++ py "![]("
               ++ py "https://cdn/attachments/pic.png" ++ py ")"
               ++ py " here"))
           new_converter;
     Ok (blocks c),
     Some u1)
  /\ parse_markdown_to_blocks (H := Demo.urllib) (H0 := Demo.fs)
       (H1 := Demo.hashlib) (H2 := Demo.provider_ok)
       (H3 := Demo.one_paragraph)
       (py "again " ++ py "![[" ++ py "attachments/pic.png" ++ py "]]" ++ [])
       (py "/v") (py "/v/other.md") ∅ (Some u1)
     = (c ← render (H := Demo.urllib)
              (markdown_events (MarkdownParser := Demo.one_paragraph)
                 (py "again " ++ py "![]("
                  ++ py "https://cdn/attachments/pic.png" ++ py ")" ++ []))
              new_converter;
        Ok (blocks c),
        Some u1).
Proof.
  cbv zeta.
  apply (attachment_shared_between_notes (H := Demo.urllib)
           (H0 := Demo.fs) (H1 := Demo.hashlib)
           (H2 := Demo.provider_ok) (H3 := Demo.one_paragraph)
           (py "/v") (py "/v/note.md") (py "/v/other.md")
           (py "see ") (py "pic.png") (py " here")
           (py "again ") (py "attachments/pic.png") []
           (py "/v/attachments/pic.png")
           (py "https://cdn/attachments/pic.png") ∅ ∅
           new_uploader _
           ltac:(repeat split; first [without_literal | reflexivity
                                     | discriminate])
           ltac:(repeat split; first [without_literal | reflexivity
                                     | discriminate])
           ltac:(by_evaluation) ltac:(by_evaluation)
           ltac:(discriminate) ltac:(reflexivity)
           ltac:(by_evaluation) ltac:(discriminate)).
Defined.
